(** * Sky Tonight: the per-body scheduling core

    A shallow embedding of [custom_components/sky_tonight]: the
    [CelestialBody] entity of [entity.py] with its two self-rearming
    callbacks, and the ephemeris helpers of [skyfield_helper.py].

    Conventions of the embedding.
    - A [datetime] is an aware UTC instant, counted in microseconds (the
      resolution of Python's [datetime]); a [timedelta] is a number of
      microseconds.  Python's bound on the year is not modelled.
    - A Python [float] holding an angle is a rational [Q]; NaN and the
      infinities are not modelled.
    - The external collaborators (system clock, skyfield almanac, astral)
      are the fields of a record [Sky]; every read of the system clock is
      a separate reading of [clock].
    - Code that mutates [self] and [hass] runs in a state monad over
      [Ctx]; a raised exception keeps the mutations made before it, as in
      Python. *)

From Stdlib Require Import ZArith QArith Qround Bool Ascii String List Lia Lqa.
Import ListNotations.

Local Open Scope string_scope.
Local Open Scope list_scope.
Local Open Scope Z_scope.

(** ** Instants and durations *)

Definition datetime := Z.
Definition timedelta := Z.

Definition timedelta_minutes (m : Z) : timedelta := m * 60000000.
Definition timedelta_days (d : Z) : timedelta := d * 86400000000.

(** [datetime._divide_and_round]: [a / b] rounded to the nearest integer,
    ties to even ([divmod] floors, as [Z.div] and [Z.modulo] do). *)
Definition _divide_and_round (a b : Z) : Z :=
  let q := a / b in
  let r := 2 * (a mod b) in
  let greater_than_half := if 0 <? b then b <? r else r <? b in
  if greater_than_half || ((r =? b) && (q mod 2 =? 1)) then q + 1 else q.

(** [delta * 1.25]: [timedelta.__mul__] with a float multiplies by the
    float's integer ratio, here [(5, 4)], and rounds to a microsecond. *)
Definition timedelta_mul_1_25 (delta : timedelta) : timedelta :=
  _divide_and_round (delta * 5) 4.

(** ** Phases, [entity.py] lines 46-71 *)

Inductive Phase : Type :=
| PHASE_NIGHT
| PHASE_ASTRONOMICAL_TWILIGHT
| PHASE_NAUTICAL_TWILIGHT
| PHASE_TWILIGHT
| PHASE_SMALL_DAY
| PHASE_DAY.

Definition phase_name (p : Phase) : string :=
  match p with
  | PHASE_NIGHT => "night"
  | PHASE_ASTRONOMICAL_TWILIGHT => "astronomical_twilight"
  | PHASE_NAUTICAL_TWILIGHT => "nautical_twilight"
  | PHASE_TWILIGHT => "twilight"
  | PHASE_SMALL_DAY => "small_day"
  | PHASE_DAY => "day"
  end.

Definition _PHASE_UPDATES (p : Phase) : timedelta :=
  match p with
  | PHASE_NIGHT => timedelta_minutes (4 * 5)
  | PHASE_ASTRONOMICAL_TWILIGHT => timedelta_minutes (4 * 2)
  | PHASE_NAUTICAL_TWILIGHT => timedelta_minutes 4
  | PHASE_TWILIGHT => timedelta_minutes 2
  | PHASE_SMALL_DAY => timedelta_minutes 2
  | PHASE_DAY => timedelta_minutes 4
  end.

(** [x >= y] on angles. *)
Definition Qge_bool (x y : Q) : bool := Qle_bool y x.

(** [x > y] on angles. *)
Definition Qgt_bool (x y : Q) : bool := negb (Qle_bool x y).

(** The chain of comparisons of [update_events], lines 196-207. *)
Definition classify_phase (elevation : Q) : Phase :=
  if Qge_bool elevation (10 # 1) then PHASE_DAY
  else if Qge_bool elevation (0 # 1) then PHASE_SMALL_DAY
  else if Qge_bool elevation (-6 # 1) then PHASE_TWILIGHT
  else if Qge_bool elevation (-12 # 1) then PHASE_NAUTICAL_TWILIGHT
  else if Qge_bool elevation (-18 # 1) then PHASE_ASTRONOMICAL_TWILIGHT
  else PHASE_NIGHT.

(** [round(x, 0)] on a float: the nearest whole number, ties to even,
    still a float. *)
Definition round_half_even (x : Q) : Z :=
  let f := Qfloor x in
  match Qcompare (x - inject_Z f) (1 # 2) with
  | Lt => f
  | Gt => f + 1
  | Eq => if Z.even f then f else f + 1
  end.

Definition py_round (x : Q) : Q := inject_Z (round_half_even x).

(** ** Constants, [const.py] *)

Definition SIGNAL_POSITION_CHANGED : string := "sky_tonight_position_changed".
Definition SIGNAL_EVENTS_CHANGED : string := "sky_tonight_events_changed".
Definition STATE_ABOVE_HORIZON : string := "above_horizon".
Definition STATE_BELOW_HORIZON : string := "below_horizon".

(** [homeassistant.const] *)
Definition SUN_EVENT_SUNRISE : string := "sunrise".
Definition SUN_EVENT_SUNSET : string := "sunset".

Definition BODIES_DICT : list (string * string) :=
  [ ("sun", "SUN");
    ("moon", "Moon");
    ("mercury", "MERCURY BARYCENTER");
    ("venus", "Venus BARYCENTER");
    ("mars", "Mars BARYCENTER");
    ("jupiter", "JUPITER BARYCENTER");
    ("saturn", "SATURN BARYCENTER");
    ("uranus", "URANUS BARYCENTER");
    ("neptune", "NEPTUNE BARYCENTER");
    ("pluto", "PLUTO BARYCENTER") ].

Fixpoint dict_get (d : list (string * string)) (k : string) : option string :=
  match d with
  | [] => None
  | (k', v) :: d' => if String.eqb k k' then Some v else dict_get d' k
  end.

(** ** Locations and the host configuration *)

(** An astral [Location], compared by its [LocationInfo]. *)
Record Location : Type := {
  loc_name : string;
  loc_region : string;
  loc_timezone : string;
  latitude : Q;
  longitude : Q
}.

Definition Location_eqb (a b : Location) : bool :=
  String.eqb (loc_name a) (loc_name b)
  && String.eqb (loc_region a) (loc_region b)
  && String.eqb (loc_timezone a) (loc_timezone b)
  && Qeq_bool (latitude a) (latitude b)
  && Qeq_bool (longitude a) (longitude b).

(** [hass.config] *)
Record Config : Type := {
  cfg_latitude : Q;
  cfg_longitude : Q;
  cfg_time_zone : string;
  cfg_elevation : Z
}.

(** ** External collaborators *)

Record Sky : Type := {
  (** the n-th reading of the system clock ([dt_util.utcnow],
      [datetime.now(UTC)], [ts.now()]) *)
  clock : nat -> datetime;
  (** [skyfield.almanac.find_risings(observer, target, t0, t1)], the
      observer given by latitude, longitude and elevation: the times *)
  find_risings : Q -> Q -> Z -> string -> datetime -> datetime -> list (option datetime);
  find_settings : Q -> Q -> Z -> string -> datetime -> datetime -> list (option datetime);
  (** [(earth + observer).at(t).observe(target).apparent().altaz()]:
      altitude and azimuth in degrees *)
  altaz : Q -> Q -> Z -> string -> datetime -> Q * Q;
  (** astral's [Location.solar_elevation(dateandtime, observer_elevation)] *)
  astral_solar_elevation : Location -> datetime -> Z -> Q
}.

(** ** Exceptions and results *)

Inductive Exc : Type :=
| ValueError (msg : string)
| KeyError (key : string)
| AttributeError
| TypeError
| AssertionError.

Inductive Result (A : Type) : Type :=
| Ok (a : A)
| Raise (e : Exc).

Arguments Ok {A} a.
Arguments Raise {A} e.

(** ** The host: timers, dispatcher, clock *)

(** The two bound methods handed to [async_track_point_in_utc_time]. *)
Inductive Action : Type :=
| Run_update_events
| Run_update_body_position.

Definition Action_eqb (a b : Action) : bool :=
  match a, b with
  | Run_update_events, Run_update_events => true
  | Run_update_body_position, Run_update_body_position => true
  | _, _ => false
  end.

(** A pending point-in-time callback.  [t_owner] is the identity of the
    entity whose bound method is scheduled. *)
Record Timer : Type := {
  t_handle : nat;
  t_owner : nat;
  t_action : Action;
  t_point : datetime
}.

(** What the sensors of [sensor.py] read from a body ([SENSOR_TYPES]),
    which is also what [extra_state_attributes] reports. *)
Record Observed : Type := {
  seen_next_rising : option datetime;
  seen_next_setting : option datetime;
  seen_solar_elevation : option Q;
  seen_solar_azimuth : option Q
}.

(** The record of what a run did to the host, in order. *)
Inductive LogEntry : Type :=
| LogTrack (t : Timer)
| LogCancel (h : nat)
| LogFired (t : Timer)
| LogDispatch (signal : string) (owner : nat) (seen : Observed)
| LogWriteState (owner : nat) (st : string) (attrs : Observed).

Record Hass : Type := {
  config : Config;
  location_cache : list Location;
  bus_listeners : list nat;
  timers : list Timer;
  next_handle : nat;
  ticks : nat;
  log : list LogEntry
}.

(** ** The entity, [entity.py] lines 74-120 *)

Record CelestialBody : Type := {
  object : string;
  phase : option Phase;
  location : option Location;
  elevation : option Z;
  next_rising : option datetime;
  next_setting : option datetime;
  solar_elevation : option Q;
  solar_azimuth : option Q;
  _next_change : option datetime;
  _config_listener : option nat;
  _update_events_listener : option nat;
  _update_body_position_listener : option nat
}.

(** A running method sees the host and its own entity; [self_id] is the
    identity under which the host knows the entity. *)
Record Ctx : Type := {
  hass : Hass;
  self_id : nat;
  self : CelestialBody
}.

(** *** Field updates *)

Definition set_config (v : Config) (h : Hass) : Hass :=
  {| config := v; location_cache := location_cache h;
     bus_listeners := bus_listeners h; timers := timers h;
     next_handle := next_handle h; ticks := ticks h; log := log h |}.

Definition set_location_cache (v : list Location) (h : Hass) : Hass :=
  {| config := config h; location_cache := v;
     bus_listeners := bus_listeners h; timers := timers h;
     next_handle := next_handle h; ticks := ticks h; log := log h |}.

Definition set_bus_listeners (v : list nat) (h : Hass) : Hass :=
  {| config := config h; location_cache := location_cache h;
     bus_listeners := v; timers := timers h;
     next_handle := next_handle h; ticks := ticks h; log := log h |}.

Definition set_timers (v : list Timer) (h : Hass) : Hass :=
  {| config := config h; location_cache := location_cache h;
     bus_listeners := bus_listeners h; timers := v;
     next_handle := next_handle h; ticks := ticks h; log := log h |}.

Definition set_next_handle (v : nat) (h : Hass) : Hass :=
  {| config := config h; location_cache := location_cache h;
     bus_listeners := bus_listeners h; timers := timers h;
     next_handle := v; ticks := ticks h; log := log h |}.

Definition set_ticks (v : nat) (h : Hass) : Hass :=
  {| config := config h; location_cache := location_cache h;
     bus_listeners := bus_listeners h; timers := timers h;
     next_handle := next_handle h; ticks := v; log := log h |}.

Definition add_log (e : LogEntry) (h : Hass) : Hass :=
  {| config := config h; location_cache := location_cache h;
     bus_listeners := bus_listeners h; timers := timers h;
     next_handle := next_handle h; ticks := ticks h; log := log h ++ [e] |}.

Definition set_phase (v : option Phase) (b : CelestialBody) : CelestialBody :=
  {| object := object b; phase := v; location := location b;
     elevation := elevation b; next_rising := next_rising b;
     next_setting := next_setting b; solar_elevation := solar_elevation b;
     solar_azimuth := solar_azimuth b; _next_change := _next_change b;
     _config_listener := _config_listener b;
     _update_events_listener := _update_events_listener b;
     _update_body_position_listener := _update_body_position_listener b |}.

Definition set_location (l : option Location) (e : option Z)
    (b : CelestialBody) : CelestialBody :=
  {| object := object b; phase := phase b; location := l;
     elevation := e; next_rising := next_rising b;
     next_setting := next_setting b; solar_elevation := solar_elevation b;
     solar_azimuth := solar_azimuth b; _next_change := _next_change b;
     _config_listener := _config_listener b;
     _update_events_listener := _update_events_listener b;
     _update_body_position_listener := _update_body_position_listener b |}.

Definition set_next_rising (v : option datetime) (b : CelestialBody) : CelestialBody :=
  {| object := object b; phase := phase b; location := location b;
     elevation := elevation b; next_rising := v;
     next_setting := next_setting b; solar_elevation := solar_elevation b;
     solar_azimuth := solar_azimuth b; _next_change := _next_change b;
     _config_listener := _config_listener b;
     _update_events_listener := _update_events_listener b;
     _update_body_position_listener := _update_body_position_listener b |}.

Definition set_next_setting (v : option datetime) (b : CelestialBody) : CelestialBody :=
  {| object := object b; phase := phase b; location := location b;
     elevation := elevation b; next_rising := next_rising b;
     next_setting := v; solar_elevation := solar_elevation b;
     solar_azimuth := solar_azimuth b; _next_change := _next_change b;
     _config_listener := _config_listener b;
     _update_events_listener := _update_events_listener b;
     _update_body_position_listener := _update_body_position_listener b |}.

Definition set_solar_position (e a : option Q) (b : CelestialBody) : CelestialBody :=
  {| object := object b; phase := phase b; location := location b;
     elevation := elevation b; next_rising := next_rising b;
     next_setting := next_setting b; solar_elevation := e;
     solar_azimuth := a; _next_change := _next_change b;
     _config_listener := _config_listener b;
     _update_events_listener := _update_events_listener b;
     _update_body_position_listener := _update_body_position_listener b |}.

Definition set_next_change (v : option datetime) (b : CelestialBody) : CelestialBody :=
  {| object := object b; phase := phase b; location := location b;
     elevation := elevation b; next_rising := next_rising b;
     next_setting := next_setting b; solar_elevation := solar_elevation b;
     solar_azimuth := solar_azimuth b; _next_change := v;
     _config_listener := _config_listener b;
     _update_events_listener := _update_events_listener b;
     _update_body_position_listener := _update_body_position_listener b |}.

(** The listener field that holds the handle of a callback of kind [k]. *)
Definition listener (k : Action) (b : CelestialBody) : option nat :=
  match k with
  | Run_update_events => _update_events_listener b
  | Run_update_body_position => _update_body_position_listener b
  end.

Definition set_listener (k : Action) (v : option nat) (b : CelestialBody) : CelestialBody :=
  {| object := object b; phase := phase b; location := location b;
     elevation := elevation b; next_rising := next_rising b;
     next_setting := next_setting b; solar_elevation := solar_elevation b;
     solar_azimuth := solar_azimuth b; _next_change := _next_change b;
     _config_listener := _config_listener b;
     _update_events_listener :=
       match k with
       | Run_update_events => v
       | Run_update_body_position => _update_events_listener b
       end;
     _update_body_position_listener :=
       match k with
       | Run_update_events => _update_body_position_listener b
       | Run_update_body_position => v
       end |}.

(** ** The monad of a running method *)

Definition M (A : Type) : Type := Ctx -> Result A * Ctx.

Definition ret {A : Type} (a : A) : M A := fun c => (Ok a, c).

Definition bind {A B : Type} (m : M A) (k : A -> M B) : M B :=
  fun c =>
    match m c with
    | (Ok a, c') => k a c'
    | (Raise e, c') => (Raise e, c')
    end.

Definition raise {A : Type} (e : Exc) : M A := fun c => (Raise e, c).

Declare Scope monad_scope.
Delimit Scope monad_scope with monad.
Notation "x <- m ;; k" := (bind m (fun x => k))
  (at level 61, m at next level, right associativity) : monad_scope.
Notation "m ;; k" := (bind m (fun _ => k))
  (at level 61, right associativity) : monad_scope.
Local Open Scope monad_scope.

Definition get_self : M CelestialBody := fun c => (Ok (self c), c).

Definition get_hass : M Hass := fun c => (Ok (hass c), c).

Definition modify_self (f : CelestialBody -> CelestialBody) : M unit :=
  fun c => (Ok tt, {| hass := hass c; self_id := self_id c; self := f (self c) |}).

Definition modify_hass (f : Hass -> Hass) : M unit :=
  fun c => (Ok tt, {| hass := f (hass c); self_id := self_id c; self := self c |}).

(** Attribute access on a field that may still be [None]. *)
Definition attr_of {A : Type} (o : option A) : M A :=
  match o with
  | Some a => ret a
  | None => raise AttributeError
  end.

(** A comparison operand that may still be [None]. *)
Definition operand {A : Type} (o : option A) : M A :=
  match o with
  | Some a => ret a
  | None => raise TypeError
  end.

(** [Topos(..., elevation_m=elevation)]: the observer is built with a
    [Distance] in metres, whose constructor rejects [None]. *)
Definition elevation_m (elevation : option Z) : M Z :=
  match elevation with
  | Some e => ret e
  | None => raise (ValueError "to construct a Distance provide au, km, or m")
  end.

Definition lift {A : Type} (r : Result A) : M A := fun c => (r, c).

Definition get_id : M nat := fun c => (Ok (self_id c), c).

(** ** Host services used by the entity *)

Definition remove_timer (h : nat) (ts : list Timer) : list Timer :=
  filter (fun t => negb (Nat.eqb (t_handle t) h)) ts.

(** Calling the function returned by [async_track_point_in_utc_time]:
    the timer is dropped if it is still pending, nothing happens
    otherwise. *)
Definition unsub (h : nat) : M unit :=
  modify_hass (fun hs => add_log (LogCancel h) (set_timers (remove_timer h (timers hs)) hs)).

(** [if self.listener: self.listener()] *)
Definition call_listener (o : option nat) : M unit :=
  match o with
  | Some h => unsub h
  | None => ret tt
  end.

Definition async_track_point_in_utc_time (action : Action)
    (point_in_time : datetime) : M nat :=
  hs <- get_hass ;;
  i <- get_id ;;
  let t := {| t_handle := next_handle hs; t_owner := i;
              t_action := action; t_point := point_in_time |} in
  modify_hass (fun hs =>
    add_log (LogTrack t)
      (set_next_handle (S (next_handle hs)) (set_timers (timers hs ++ [t]) hs))) ;;
  ret (next_handle hs).

Definition observe (b : CelestialBody) : Observed :=
  {| seen_next_rising := next_rising b;
     seen_next_setting := next_setting b;
     seen_solar_elevation := solar_elevation b;
     seen_solar_azimuth := solar_azimuth b |}.

(** [async_dispatcher_send(hass, signal)]: the subscribed sensors are
    called at once and read the body as it is now. *)
Definition async_dispatcher_send (signal : string) : M unit :=
  b <- get_self ;;
  i <- get_id ;;
  modify_hass (add_log (LogDispatch signal i (observe b))).

(** ** Properties of the entity, [entity.py] lines 149-166 *)

Definition state (b : CelestialBody) : Result string :=
  match solar_elevation b with
  | None => Raise TypeError
  | Some e =>
      if Qgt_bool e (-833 # 1000) then Ok STATE_ABOVE_HORIZON
      else Ok STATE_BELOW_HORIZON
  end.

Definition extra_state_attributes (b : CelestialBody) : Result Observed :=
  match next_rising b, next_setting b with
  | Some _, Some _ => Ok (observe b)
  | _, _ => Raise AttributeError
  end.

(** [Entity.async_write_ha_state]: the host reads [state] and
    [extra_state_attributes] and stores them. *)
Definition async_write_ha_state : M unit :=
  b <- get_self ;;
  i <- get_id ;;
  st <- lift (state b) ;;
  attrs <- lift (extra_state_attributes b) ;;
  modify_hass (add_log (LogWriteState i st attrs)).

Section Program.

Variable sky : Sky.

(** One reading of the system clock. *)
Definition utcnow : M datetime :=
  hs <- get_hass ;;
  modify_hass (set_ticks (S (ticks hs))) ;;
  ret (clock sky (ticks hs)).

(** ** [skyfield_helper.py] *)

Definition get_astral_location : M (Location * Z) :=
  hs <- get_hass ;;
  let cfg := config hs in
  let info := {| loc_name := ""; loc_region := "";
                 loc_timezone := cfg_time_zone cfg;
                 latitude := cfg_latitude cfg;
                 longitude := cfg_longitude cfg |} in
  (if existsb (Location_eqb info) (location_cache hs) then ret tt
   else modify_hass (set_location_cache (info :: location_cache hs))) ;;
  hs' <- get_hass ;;
  match find (Location_eqb info) (location_cache hs') with
  | Some l => ret (l, cfg_elevation cfg)
  | None => raise (KeyError "astral_location_cache")
  end.

Definition bodies_dict_item (celestial_object : string) : M string :=
  match dict_get BODIES_DICT celestial_object with
  | Some target => ret target
  | None => raise (KeyError celestial_object)
  end.

Definition get_astral_event_next (location : option Location)
    (elevation : option Z) (celestial_object : string) (event : string)
    (utc_point_in_time : datetime) : M datetime :=
  loc <- attr_of location ;;
  elev <- elevation_m elevation ;;
  let t0 := utc_point_in_time in
  let t1 := utc_point_in_time + timedelta_days 2 in
  times <-
    (if String.eqb event SUN_EVENT_SUNRISE then
       target <- bodies_dict_item celestial_object ;;
       ret (find_risings sky (latitude loc) (longitude loc) elev target t0 t1)
     else if String.eqb event SUN_EVENT_SUNSET then
       target <- bodies_dict_item celestial_object ;;
       ret (find_settings sky (latitude loc) (longitude loc) elev target t0 t1)
     else raise (ValueError "Unsupported event type")) ;;
  match times with
  | [] => utcnow
  | None :: _ => utcnow
  | Some t :: _ => ret t
  end.

(** The instant handed in is not used: the position is taken at
    [ts.now()]. *)
Definition get_astral_position (location : option Location)
    (elevation : option Z) (celestial_object : string)
    (utc_point_in_time : datetime) : M (Q * Q) :=
  t <- utcnow ;;
  loc <- attr_of location ;;
  elev <- elevation_m elevation ;;
  target <- bodies_dict_item celestial_object ;;
  let apparent := altaz sky (latitude loc) (longitude loc) elev target t in
  let alt := fst apparent in
  let az := snd apparent in
  ret (py_round alt, py_round az).

(** ** The callbacks of [entity.py] *)

Definition _check_event (utc_point_in_time : datetime) (event : string)
    : M datetime :=
  b <- get_self ;;
  next_utc <- get_astral_event_next (location b) (elevation b) (object b)
                event utc_point_in_time ;;
  b <- get_self ;;
  next_change <- operand (_next_change b) ;;
  (if next_utc <? next_change
   then modify_self (set_next_change (Some next_utc))
   else ret tt) ;;
  ret next_utc.

Definition update_body_position : M unit :=
  utc_point_in_time <- utcnow ;;
  b <- get_self ;;
  pos <- get_astral_position (location b) (elevation b) (object b)
           utc_point_in_time ;;
  modify_self (set_solar_position (Some (fst pos)) (Some (snd pos))) ;;
  async_write_ha_state ;;
  async_dispatcher_send SIGNAL_POSITION_CHANGED ;;
  b <- get_self ;;
  p <- match phase b with
       | Some p => ret p
       | None => raise AssertionError
       end ;;
  let delta := _PHASE_UPDATES p in
  next_change <- operand (_next_change b) ;;
  if utc_point_in_time + timedelta_mul_1_25 delta >? next_change then
    modify_self (set_listener Run_update_body_position None)
  else
    h <- async_track_point_in_utc_time Run_update_body_position
           (utc_point_in_time + delta) ;;
    modify_self (set_listener Run_update_body_position (Some h)).

Definition update_events : M unit :=
  utc_point_in_time <- utcnow ;;
  modify_self (set_next_change (Some (utc_point_in_time + timedelta_days 400))) ;;
  r <- _check_event utc_point_in_time SUN_EVENT_SUNRISE ;;
  modify_self (set_next_rising (Some r)) ;;
  s <- _check_event utc_point_in_time SUN_EVENT_SUNSET ;;
  modify_self (set_next_setting (Some s)) ;;
  b <- get_self ;;
  match phase b with
  | None =>
      loc <- attr_of (location b) ;;
      next_change <- operand (_next_change b) ;;
      elev <- operand (elevation b) ;;
      let elevation := astral_solar_elevation sky loc next_change elev in
      modify_self (set_phase (Some (classify_phase elevation)))
  | Some _ => ret tt
  end ;;
  b <- get_self ;;
  call_listener (_update_body_position_listener b) ;;
  update_body_position ;;
  async_dispatcher_send SIGNAL_EVENTS_CHANGED ;;
  b <- get_self ;;
  next_change <- operand (_next_change b) ;;
  h <- async_track_point_in_utc_time Run_update_events next_change ;;
  modify_self (set_listener Run_update_events (Some h)).

Definition update_location (initial : bool) : M unit :=
  le <- get_astral_location ;;
  b <- get_self ;;
  if negb initial
     && match location b with
        | Some l => Location_eqb (fst le) l
        | None => false
        end
  then ret tt
  else
    modify_self (set_location (Some (fst le)) (Some (snd le))) ;;
    b <- get_self ;;
    call_listener (_update_events_listener b) ;;
    update_events.

Definition remove_listeners : M unit :=
  b <- get_self ;;
  match _config_listener b with
  | Some l =>
      modify_hass (fun hs =>
        set_bus_listeners
          (filter (fun i => negb (Nat.eqb i l)) (bus_listeners hs)) hs)
  | None => ret tt
  end ;;
  call_listener (_update_events_listener b) ;;
  call_listener (_update_body_position_listener b).

End Program.

(** ** The tracking session: [__init__.py] and the host's event loop *)

(** [bodies] is the heap of entities; an entity's identity is its index. *)
Record System : Type := {
  sys_hass : Hass;
  bodies : list CelestialBody
}.

Fixpoint list_set {A : Type} (i : nat) (x : A) (l : list A) : list A :=
  match l, i with
  | [], _ => []
  | _ :: l', O => x :: l'
  | y :: l', S i' => y :: list_set i' x l'
  end.

(** Run a method of entity [i]; what it did to the entity and to the host
    stays, also when it raised (the host logs the exception). *)
Definition run_on (i : nat) (m : M unit) (s : System) : System :=
  match nth_error (bodies s) i with
  | None => s
  | Some b =>
      let c' := snd (m {| hass := sys_hass s; self_id := i; self := b |}) in
      {| sys_hass := hass c'; bodies := list_set i (self c') (bodies s) |}
  end.

(** [CelestialBody.__init__], lines 96-120: every field unset, and the
    entity subscribed to configuration updates. *)
Definition CelestialBody_init (obj : string) (s : System) : System :=
  let i := length (bodies s) in
  let b := {| object := obj; phase := None; location := None;
              elevation := None; next_rising := None; next_setting := None;
              solar_elevation := None; solar_azimuth := None;
              _next_change := None; _config_listener := Some i;
              _update_events_listener := None;
              _update_body_position_listener := None |} in
  {| sys_hass := set_bus_listeners (bus_listeners (sys_hass s) ++ [i]) (sys_hass s);
     bodies := bodies s ++ [b] |}.

Definition find_timer (h : nat) (ts : list Timer) : option Timer :=
  find (fun t => Nat.eqb (t_handle t) h) ts.

(** What can happen to a session. *)
Inductive Input : Type :=
| In_new_body (obj : string)
    (** [CelestialBody(body, hass)] in [async_setup_entry] *)
| In_update_location_initial (i : nat)
    (** [body.update_location(initial=True)], from [async_setup_entry] or
        [async_added_to_hass] *)
| In_config_update (cfg : Config)
    (** the host changes its configuration and fires
        [EVENT_CORE_CONFIG_UPDATE] *)
| In_timer (h : nat)
    (** the pending timer [h] fires *)
| In_remove_listeners (i : nat)
    (** [obj.remove_listeners], on unload of the entry *).

Section Session.

Variable sky : Sky.

Definition fire (t : Timer) (s : System) : System :=
  let hs := sys_hass s in
  let s' := {| sys_hass := add_log (LogFired t)
                 (set_timers (remove_timer (t_handle t) (timers hs)) hs);
               bodies := bodies s |} in
  match t_action t with
  | Run_update_events => run_on (t_owner t) (update_events sky) s'
  | Run_update_body_position => run_on (t_owner t) (update_body_position sky) s'
  end.

Definition handle (s : System) (i : Input) : System :=
  match i with
  | In_new_body obj => CelestialBody_init obj s
  | In_update_location_initial i => run_on i (update_location sky true) s
  | In_config_update cfg =>
      let s' := {| sys_hass := set_config cfg (sys_hass s); bodies := bodies s |} in
      fold_left (fun s i => run_on i (update_location sky false) s)
        (bus_listeners (sys_hass s)) s'
  | In_timer h =>
      match find_timer h (timers (sys_hass s)) with
      | Some t => fire t s
      | None => s
      end
  | In_remove_listeners i => run_on i remove_listeners s
  end.

Definition initial_system (cfg : Config) : System :=
  {| sys_hass := {| config := cfg; location_cache := []; bus_listeners := [];
                    timers := []; next_handle := O; ticks := O; log := [] |};
     bodies := [] |}.

Definition run_session (cfg : Config) (inputs : list Input) : System :=
  fold_left handle inputs (initial_system cfg).

End Session.

(** ** Replaying the log *)

Definition same_slot (t t' : Timer) : bool :=
  Nat.eqb (t_owner t) (t_owner t') && Action_eqb (t_action t) (t_action t').

(** The pending timers after one more log entry, or [None] when the entry
    arms a timer while its entity still has one of the same kind
    pending. *)
Definition log_step (st : option (list Timer)) (e : LogEntry)
    : option (list Timer) :=
  match st with
  | None => None
  | Some live =>
      match e with
      | LogTrack t =>
          if existsb (same_slot t) live then None else Some (live ++ [t])
      | LogCancel h => Some (remove_timer h live)
      | LogFired t => Some (remove_timer (t_handle t) live)
      | LogDispatch _ _ _ => Some live
      | LogWriteState _ _ _ => Some live
      end
  end.

Definition replay (l : list LogEntry) : option (list Timer) :=
  fold_left log_step l (Some []).

(** The pending timers of entity [i] for callback [k]. *)
Definition pending (i : nat) (k : Action) (ts : list Timer) : list Timer :=
  filter (fun t => Nat.eqb (t_owner t) i && Action_eqb (t_action t) k) ts.

(** ** Vocabulary of the specifications *)

(** The entity has its observer and a body the ephemeris knows. *)
Definition located (b : CelestialBody) (loc : Location) (elev : Z)
    (target : string) : Prop :=
  location b = Some loc /\ elevation b = Some elev /\
  dict_get BODIES_DICT (object b) = Some target.

(** [times[0]], when there is one. *)
Definition first_time (times : list (option datetime)) : option datetime :=
  match times with
  | Some t :: _ => Some t
  | _ => None
  end.

(** What the almanac finds in the two days after [utc]. *)
Definition found (sky : Sky) (rising : bool) (loc : Location) (elev : Z)
    (target : string) (utc : datetime) : option datetime :=
  first_time
    ((if rising then find_risings sky else find_settings sky)
       (latitude loc) (longitude loc) elev target utc (utc + timedelta_days 2)).

Definition event_name (rising : bool) : string :=
  if rising then SUN_EVENT_SUNRISE else SUN_EVENT_SUNSET.

(** The answer of [get_astral_event_next] when the clock has been read
    [n] times, and the number of readings afterwards. *)
Definition event_instant (sky : Sky) (rising : bool) (loc : Location)
    (elev : Z) (target : string) (utc : datetime) (n : nat) : datetime :=
  match found sky rising loc elev target utc with
  | Some t => t
  | None => clock sky n
  end.

Definition event_ticks (sky : Sky) (rising : bool) (loc : Location)
    (elev : Z) (target : string) (utc : datetime) (n : nat) : nat :=
  match found sky rising loc elev target utc with
  | Some _ => n
  | None => S n
  end.

(** The almanac keeps to its search window. *)
Definition within_window (sky : Sky) : Prop :=
  forall (rising : bool) lat lon elev target t0 t1 t,
    In (Some t)
       ((if rising then find_risings sky else find_settings sky)
          lat lon elev target t0 t1) ->
    t0 <= t <= t1.

(** From one reading to the next the clock does not jump 400 days
    ahead. *)
Definition steady_clock (sky : Sky) : Prop :=
  forall n, clock sky (S n) < clock sky n + timedelta_days 400.

(** Every reading of the clock gives the same instant. *)
Definition frozen_clock (sky : Sky) : Prop :=
  forall n m, clock sky n = clock sky m.

(** ** Sample data: Venus seen from latitude 0, longitude 0 *)

Definition timedelta_hours (h : Z) : timedelta := h * 3600000000.

Definition T0 : datetime := 1700000000000000.

Definition cfg_origin : Config :=
  {| cfg_latitude := 0 # 1; cfg_longitude := 0 # 1;
     cfg_time_zone := "UTC"; cfg_elevation := 0 |}.

Definition cfg_north : Config :=
  {| cfg_latitude := 60 # 1; cfg_longitude := 0 # 1;
     cfg_time_zone := "UTC"; cfg_elevation := 0 |}.

Definition loc_origin : Location :=
  {| loc_name := ""; loc_region := ""; loc_timezone := "UTC";
     latitude := 0 # 1; longitude := 0 # 1 |}.

(** An occurrence [after] hours after [t0], when the window reaches it. *)
Definition occurs_after (hours : Z) (t0 t1 : datetime) : list (option datetime) :=
  if t0 + timedelta_hours hours <=? t1 then [Some (t0 + timedelta_hours hours)]
  else [].

(** The clock stands at [T0]; Venus rises three hours and sets fifteen
    hours after any instant; it stands 12.3 degrees high; the Sun is high
    at the equator and far below the horizon in the north. *)
Definition sky_venus : Sky :=
  {| clock := fun _ => T0;
     find_risings := fun _ _ _ _ t0 t1 => occurs_after 3 t0 t1;
     find_settings := fun _ _ _ _ t0 t1 => occurs_after 15 t0 t1;
     altaz := fun _ _ _ _ _ => (123 # 10, 2005 # 10);
     astral_solar_elevation := fun l _ _ =>
       if Qle_bool (latitude l) (30 # 1) then 40 # 1 else -30 # 1 |}.

(** The same sky with a running clock, one second a reading, and an
    altitude that passes half a degree between two readings. *)
Definition sky_running : Sky :=
  {| clock := fun n => T0 + Z.of_nat n * 1000000;
     find_risings := fun _ _ _ _ t0 t1 => occurs_after 3 t0 t1;
     find_settings := fun _ _ _ _ t0 t1 => occurs_after 15 t0 t1;
     altaz := fun _ _ _ _ t =>
       if t <=? T0 then (4 # 10, 2005 # 10) else (6 # 10, 2005 # 10);
     astral_solar_elevation := fun _ _ _ => 40 # 1 |}.

(** A sky in which Venus neither rises nor sets for two days. *)
Definition sky_polar : Sky :=
  {| clock := fun n => T0 + Z.of_nat n;
     find_risings := fun _ _ _ _ _ _ => [];
     find_settings := fun _ _ _ _ _ _ => [];
     altaz := fun _ _ _ _ _ => (123 # 10, 2005 # 10);
     astral_solar_elevation := fun _ _ _ => 40 # 1 |}.

Definition hass_origin : Hass :=
  {| config := cfg_origin; location_cache := []; bus_listeners := [O];
     timers := []; next_handle := O; ticks := O; log := [] |}.

(** Venus with its observer set and nothing computed yet. *)
Definition venus_located : CelestialBody :=
  {| object := "venus"; phase := None; location := Some loc_origin;
     elevation := Some 0; next_rising := None; next_setting := None;
     solar_elevation := None; solar_azimuth := None; _next_change := None;
     _config_listener := Some O; _update_events_listener := None;
     _update_body_position_listener := None |}.

Definition ctx_venus : Ctx :=
  {| hass := hass_origin; self_id := O; self := venus_located |}.

(** Venus by day, three minutes before its next event. *)
Definition venus_by_day : CelestialBody :=
  {| object := "venus"; phase := Some PHASE_DAY; location := Some loc_origin;
     elevation := Some 0;
     next_rising := Some (T0 + timedelta_minutes 3);
     next_setting := Some (T0 + timedelta_hours 12);
     solar_elevation := Some (12 # 1); solar_azimuth := Some (200 # 1);
     _next_change := Some (T0 + timedelta_minutes 3);
     _config_listener := Some O; _update_events_listener := None;
     _update_body_position_listener := None |}.

Definition ctx_venus_by_day : Ctx :=
  {| hass := hass_origin; self_id := O; self := venus_by_day |}.

(** Venus by day, three hours before its next event. *)
Definition venus_in_the_morning : CelestialBody :=
  {| object := "venus"; phase := Some PHASE_DAY; location := Some loc_origin;
     elevation := Some 0;
     next_rising := Some (T0 + timedelta_hours 3);
     next_setting := Some (T0 + timedelta_hours 15);
     solar_elevation := Some (12 # 1); solar_azimuth := Some (200 # 1);
     _next_change := Some (T0 + timedelta_hours 3);
     _config_listener := Some O; _update_events_listener := None;
     _update_body_position_listener := None |}.

Definition ctx_venus_in_the_morning : Ctx :=
  {| hass := hass_origin; self_id := O; self := venus_in_the_morning |}.

(** ** The scheduling view of a running method *)

(** What the scheduling invariants depend on: the identity of the
    entity, its phase and its two listener fields, the pending timers,
    the next free handle and the replayed log. *)
Record View : Type := {
  v_id : nat;
  v_phase : option Phase;
  v_events : option nat;
  v_position : option nat;
  v_timers : list Timer;
  v_next : nat;
  v_replay : option (list Timer)
}.

Definition view (c : Ctx) : View :=
  {| v_id := self_id c;
     v_phase := phase (self c);
     v_events := _update_events_listener (self c);
     v_position := _update_body_position_listener (self c);
     v_timers := timers (hass c);
     v_next := next_handle (hass c);
     v_replay := replay (log (hass c)) |}.

Definition v_listener (k : Action) (v : View) : option nat :=
  match k with
  | Run_update_events => v_events v
  | Run_update_body_position => v_position v
  end.

(** A command that leaves the view as it is. *)
Definition quiet {A : Type} (m : M A) : Prop :=
  forall c, view (snd (m c)) = view c.

(** From a view in [P] the command ends, normally or not, in a view in
    [Q]. *)
Definition vhoare {A : Type} (P : View -> Prop) (m : M A) (Q : View -> Prop) : Prop :=
  forall c, P (view c) -> Q (view (snd (m c))).

(** The log replays to the pending timers, handles are distinct and
    below the next free one, and the timers of the other entities
    satisfy [others]. *)
Definition tidy (others : Timer -> Prop) (v : View) : Prop :=
  v_replay v = Some (v_timers v) /\
  NoDup (map t_handle (v_timers v)) /\
  (forall t, In t (v_timers v) -> (t_handle t < v_next v)%nat) /\
  (forall t, In t (v_timers v) -> t_owner t <> v_id v -> others t).

(** Every pending timer of the entity for callback [k] is the one its
    listener field holds. *)
Definition owns (k : Action) (v : View) : Prop :=
  forall t, In t (v_timers v) -> t_owner t = v_id v -> t_action t = k ->
            v_listener k v = Some (t_handle t).

(** The entity has no pending timer for callback [k]. *)
Definition idle (k : Action) (v : View) : Prop :=
  forall t, In t (v_timers v) -> t_owner t = v_id v -> t_action t <> k.

(** The phase is set to [p]. *)
Definition in_phase (p : Phase) (v : View) : Prop := v_phase v = Some p.

(** ** The invariant of a session *)

Definition held_by (bs : list CelestialBody) (t : Timer) : Prop :=
  exists b, nth_error bs (t_owner t) = Some b /\
            listener (t_action t) b = Some (t_handle t).

Definition session_invariant (s : System) : Prop :=
  replay (log (sys_hass s)) = Some (timers (sys_hass s)) /\
  NoDup (map t_handle (timers (sys_hass s))) /\
  (forall t, In t (timers (sys_hass s)) ->
             (t_handle t < next_handle (sys_hass s))%nat) /\
  (forall t, In t (timers (sys_hass s)) -> held_by (bodies s) t).

(** *** What the commands that schedule do to the view *)

Definition view_cancel (h : nat) (v : View) : View :=
  {| v_id := v_id v; v_phase := v_phase v; v_events := v_events v;
     v_position := v_position v;
     v_timers := remove_timer h (v_timers v);
     v_next := v_next v;
     v_replay := log_step (v_replay v) (LogCancel h) |}.

Definition view_track (k : Action) (p : datetime) (v : View) : Timer :=
  {| t_handle := v_next v; t_owner := v_id v; t_action := k; t_point := p |}.

Definition view_arm (k : Action) (p : datetime) (v : View) : View :=
  {| v_id := v_id v; v_phase := v_phase v;
     v_events := match k with
                 | Run_update_events => Some (v_next v)
                 | Run_update_body_position => v_events v
                 end;
     v_position := match k with
                   | Run_update_events => v_position v
                   | Run_update_body_position => Some (v_next v)
                   end;
     v_timers := v_timers v ++ [view_track k p v];
     v_next := S (v_next v);
     v_replay := log_step (v_replay v) (LogTrack (view_track k p v)) |}.

Definition view_clear_position (v : View) : View :=
  {| v_id := v_id v; v_phase := v_phase v; v_events := v_events v;
     v_position := None; v_timers := v_timers v; v_next := v_next v;
     v_replay := v_replay v |}.

Definition view_phase (ph : option Phase) (v : View) : View :=
  {| v_id := v_id v; v_phase := ph; v_events := v_events v;
     v_position := v_position v; v_timers := v_timers v; v_next := v_next v;
     v_replay := v_replay v |}.

(** The running entity is [i], and its phase, if it was [ph = Some p]
    at the start, still is. *)
Definition keeps (i : nat) (ph : option Phase) (v : View) : Prop :=
  v_id v = i /\
  match ph with
  | Some p => v_phase v = Some p
  | None => True
  end.

(** The scheduling invariant of one entity; a flag set means that the
    entity has no pending timer of that kind at all. *)
Definition sched (others : Timer -> Prop) (i : nat)
    (no_events no_position : bool) (ph : option Phase) (v : View) : Prop :=
  tidy others v /\
  (if no_events then idle Run_update_events v else owns Run_update_events v) /\
  (if no_position then idle Run_update_body_position v
   else owns Run_update_body_position v) /\
  keeps i ph v.

(** Every phase that is set in [s] is still the same in [s']. *)
Definition phases_kept (s s' : System) : Prop :=
  forall j b p, nth_error (bodies s) j = Some b -> phase b = Some p ->
    exists b', nth_error (bodies s') j = Some b' /\ phase b' = Some p.

(** Entity [i] has no pending timer for callback [k]. *)
Definition no_pending (i : nat) (k : Action) (s : System) : Prop :=
  forall t, In t (timers (sys_hass s)) -> t_owner t = i -> t_action t <> k.

(** Venus alone, set up at the origin. *)
Definition inputs_venus : list Input :=
  [In_new_body "venus"; In_update_location_initial O].

(** What the log says about timers: the entries that arm, cancel or
    fire one. *)
Definition scheduling (l : list LogEntry) : list LogEntry :=
  filter (fun e => match e with
                   | LogTrack _ | LogCancel _ | LogFired _ => true
                   | _ => false
                   end) l.

(** A timer of entity 0. *)
Definition timer_of_venus (h : nat) (k : Action) (p : datetime) : Timer :=
  {| t_handle := h; t_owner := O; t_action := k; t_point := p |}.

(** Venus is set up at the origin, then the host moves north. *)
Definition session_moved : System :=
  run_session sky_venus cfg_origin
    [In_new_body "venus"; In_update_location_initial O;
     In_config_update cfg_north].

(** ** Further vocabulary *)

(** The [info] tuple that [get_astral_location] builds from the
    configuration of the host. *)
Definition location_info (cfg : Config) : Location :=
  {| loc_name := ""; loc_region := "";
     loc_timezone := cfg_time_zone cfg;
     latitude := cfg_latitude cfg;
     longitude := cfg_longitude cfg |}.

(** No two entries of the location cache stand for the same place. *)
Fixpoint distinct_locations (cache : list Location) : Prop :=
  match cache with
  | [] => True
  | l :: cache' =>
      (forall l', In l' cache' -> Location_eqb l l' = false) /\
      distinct_locations cache'
  end.

(** The clock never runs backwards from one reading to the next. *)
Definition monotone_clock (sky : Sky) : Prop :=
  forall n, clock sky n <= clock sky (S n).

(** An entity named as in the list [BODIES] of [const.py], which is not
    how [BODIES_DICT] spells its keys. *)
Definition ctx_capitalised : Ctx :=
  {| hass := hass_origin; self_id := O;
     self := {| object := "Venus"; phase := None; location := Some loc_origin;
                elevation := Some 0; next_rising := None; next_setting := None;
                solar_elevation := None; solar_azimuth := None;
                _next_change := None; _config_listener := Some O;
                _update_events_listener := None;
                _update_body_position_listener := None |} |}.

(** ** Entities next to each other *)

(** While entity [i] runs a method from pending timers [T0] and next
    free handle [N0]: every pending timer is an old one or a new one of
    [i], the old timers of the other entities are all still pending, and
    a handle that a listener field of [i] holds is below the next free
    handle and names no timer of another entity. *)
Definition apart (T0 : list Timer) (N0 : nat) (i : nat) (v : View) : Prop :=
  v_id v = i /\
  (N0 <= v_next v)%nat /\
  (forall t, In t (v_timers v) -> (t_handle t < v_next v)%nat) /\
  (forall t, In t (v_timers v) ->
     In t T0 \/ ((N0 <= t_handle t)%nat /\ t_owner t = i)) /\
  (forall t, In t T0 -> t_owner t <> i -> In t (v_timers v)) /\
  (forall k h, v_listener k v = Some h ->
     (h < v_next v)%nat /\
     forall t, In t (v_timers v) -> t_handle t = h -> t_owner t = i).

(** Handles are below the next free one, and a handle held by a
    listener field of an entity names no timer of another entity. *)
Definition handles_owned (s : System) : Prop :=
  (forall t, In t (timers (sys_hass s)) ->
     (t_handle t < next_handle (sys_hass s))%nat) /\
  (forall i b k h, nth_error (bodies s) i = Some b -> listener k b = Some h ->
     (h < next_handle (sys_hass s))%nat /\
     forall t, In t (timers (sys_hass s)) -> t_handle t = h -> t_owner t = i).

(** The entity that an input makes run, if it is a single one. *)
Definition concerns (s : System) (inp : Input) : option nat :=
  match inp with
  | In_new_body _ => None
  | In_update_location_initial i => Some i
  | In_config_update _ => None
  | In_timer h =>
      match find_timer h (timers (sys_hass s)) with
      | Some t => Some (t_owner t)
      | None => None
      end
  | In_remove_listeners i => Some i
  end.

(** ** Entities that track *)

(** The entity has computed its events at least once: it has its
    observer, a body the ephemeris knows, and its events, horizon,
    phase and position are set. *)
Definition ready (b : CelestialBody) : Prop :=
  (exists loc elev target, located b loc elev target) /\
  (exists p, phase b = Some p) /\
  (exists nc, _next_change b = Some nc) /\
  (exists r, next_rising b = Some r) /\
  (exists s, next_setting b = Some s) /\
  (exists e, solar_elevation b = Some e) /\
  (exists a, solar_azimuth b = Some a).

(** An entity is either tracking or has never armed a timer nor
    computed an event. *)
Definition settled (b : CelestialBody) : Prop :=
  ready b \/
  (_update_events_listener b = None /\
   _update_body_position_listener b = None /\
   next_rising b = None).

Definition all_settled (s : System) : Prop :=
  forall i b, nth_error (bodies s) i = Some b -> settled b.

(** What a method has no business changing: the identity and the name
    of the running entity, its subscription to configuration updates
    and the subscriptions of the host. *)
Definition subscription (c : Ctx) : nat * string * option nat * list nat :=
  (self_id c, object (self c), _config_listener (self c),
   bus_listeners (hass c)).

Definition steady {A : Type} (m : M A) : Prop :=
  forall c, subscription (snd (m c)) = subscription c.

(** Every entity holds the subscription that [__init__] made for it. *)
Definition subscribed (s : System) : Prop :=
  forall i b, nth_error (bodies s) i = Some b -> _config_listener b = Some i.

Definition sound (s : System) : Prop :=
  session_invariant s /\ handles_owned s /\ all_settled s /\ subscribed s.

(** The outcome of a method of entity [i], without its effects. *)
Definition run_result (i : nat) (m : M unit) (s : System) : option (Result unit) :=
  match nth_error (bodies s) i with
  | None => None
  | Some b => Some (fst (m {| hass := sys_hass s; self_id := i; self := b |}))
  end.

(** The state in which the callback of the fired timer [t] runs. *)
Definition fired (t : Timer) (s : System) : System :=
  {| sys_hass := add_log (LogFired t)
       (set_timers (remove_timer (t_handle t) (timers (sys_hass s))) (sys_hass s));
     bodies := bodies s |}.

(** The callback that a timer runs. *)
Definition callback (sky : Sky) (k : Action) : M unit :=
  match k with
  | Run_update_events => update_events sky
  | Run_update_body_position => update_body_position sky
  end.

(** The outcome of the callback that runs when timer [t] fires. *)
Definition fire_result (sky : Sky) (t : Timer) (s : System) : option (Result unit) :=
  run_result (t_owner t) (callback sky (t_action t)) (fired t s).

(** A tracking entity [i] has an event timer pending. *)
Definition chained (i : nat) (s : System) : Prop :=
  forall b, nth_error (bodies s) i = Some b -> ready b ->
    exists t, In t (timers (sys_hass s)) /\ t_owner t = i /\
              t_action t = Run_update_events.

(** From [s] to [s'] entity [i] and its timers are as they were. *)
Definition untouched (i : nat) (s s' : System) : Prop :=
  nth_error (bodies s') i = nth_error (bodies s) i /\
  forall t, t_owner t = i ->
    (In t (timers (sys_hass s')) <-> In t (timers (sys_hass s))).

(** From [s] to [s'] no entity was lost and none stopped tracking. *)
Definition carried (s s' : System) : Prop :=
  (length (bodies s) <= length (bodies s'))%nat /\
  forall i b, nth_error (bodies s) i = Some b -> ready b ->
    exists b', nth_error (bodies s') i = Some b' /\ ready b'.

(** Entity [i] has no pending timer and is not told about changes of
    the configuration. *)
Definition silent (i : nat) (s : System) : Prop :=
  (forall t, In t (timers (sys_hass s)) -> t_owner t <> i) /\
  ~ In i (bus_listeners (sys_hass s)).

(** The input is no call of a method of entity [i]. *)
Definition avoids (i : nat) (inp : Input) : Prop :=
  match inp with
  | In_update_location_initial j => j <> i
  | In_remove_listeners j => j <> i
  | _ => True
  end.

(** Two entities, Venus and Mars, set up at the origin. *)
Definition inputs_two : list Input :=
  [In_new_body "venus"; In_new_body "mars";
   In_update_location_initial 0; In_update_location_initial 1].

(** The event timer of Venus after [inputs_venus]. *)
Definition venus_event_timer : Timer :=
  {| t_handle := 1; t_owner := 0; t_action := Run_update_events;
     t_point := T0 + timedelta_hours 3 |}.

(** An entity as [__init__] leaves it. *)
Definition body_created (obj : string) (i : nat) : CelestialBody :=
  {| object := obj; phase := None; location := None;
     elevation := None; next_rising := None; next_setting := None;
     solar_elevation := None; solar_azimuth := None;
     _next_change := None; _config_listener := Some i;
     _update_events_listener := None;
     _update_body_position_listener := None |}.


(** ** Setting up and unloading the entry, [__init__.py] *)



(** [d[k] = v] on a dict: a key keeps the place of its first
    insertion. *)
Fixpoint dict_set (k : string) (v : nat) (d : list (string * nat))
    : list (string * nat) :=
  match d with
  | [] => [(k, v)]
  | (k', v') :: d' =>
      if String.eqb k' k then (k', v) :: d' else (k', v') :: dict_set k v d'
  end.

(** The first loop of [async_setup_entry]: an entity for each selected
    body, entered in [celBodiesDict] under the name of the body. *)
Definition create_bodies (sel : list string) (s : System)
    : System * list (string * nat) :=
  fold_left
    (fun acc body =>
       (CelestialBody_init body (fst acc),
        dict_set body (length (bodies (fst acc))) (snd acc)))
    sel (s, []).



(** Only entities are subscribed to configuration updates. *)
Definition bus_bounded (s : System) : Prop :=
  forall x, In x (bus_listeners (sys_hass s)) -> (x < length (bodies s))%nat.

(** ** The sensor platform, [sensor.py] *)

(** The keys of [SENSOR_TYPES]. *)
Definition SENSOR_KEYS : list string :=
  ["next_rising"; "next_setting"; "solar_elevation"; "solar_azimuth"].

(** [f"{entry_id}-{body}-{key}"], the unique id of a sensor, lines 111
    and 153. *)
Definition sensor_unique_id (entry_id body key : string) : string :=
  (entry_id ++ "-" ++ body ++ "-" ++ key)%string.

(** [ENTITY_ID_SENSOR_FORMAT.format(f"{body}-{key}")], line 150. *)
Definition sensor_entity_id (body key : string) : string :=
  ("sensor.sky_" ++ body ++ "-" ++ key)%string.

(** What [cleanup_removed_bodies] reads of an entry of the entity
    registry and of the device registry. *)
Record RegistryEntry : Type := {
  reg_entity_id : string;
  reg_unique_id : string;
  reg_config_entry_id : option string;
  reg_domain : string;
  reg_device_id : option string
}.

Record DeviceEntry : Type := {
  dev_id : string;
  dev_config_entries : list string
}.

(** The two registries, each a dict in the order of insertion, keyed by
    [entity_id] and by the id of the device. *)
Record Registries : Type := {
  reg_entities : list RegistryEntry;
  reg_devices : list DeviceEntry
}.

Definition option_is (o : option string) (s : string) : bool :=
  match o with
  | Some x => String.eqb x s
  | None => false
  end.

(** [entity_registry.async_remove(entity_id)] *)
Definition entity_async_remove (entity_id : string) (es : list RegistryEntry)
    : list RegistryEntry :=
  filter (fun e => negb (String.eqb (reg_entity_id e) entity_id)) es.

(** [device_registry.async_remove_device(device_id)] *)
Definition async_remove_device (device_id : string) (ds : list DeviceEntry)
    : list DeviceEntry :=
  filter (fun d => negb (String.eqb (dev_id d) device_id)) ds.

Definition valid_unique_ids (entry_id : string) (current_bodies : list string)
    : list string :=
  flat_map (fun body => map (sensor_unique_id entry_id body) SENSOR_KEYS)
           current_bodies.

(** The test of the first loop, lines 117-121. *)
Definition to_be_removed (entry_id : string) (valid : list string)
    (entity : RegistryEntry) : bool :=
  option_is (reg_config_entry_id entity) entry_id
  && String.eqb (reg_domain entity) "sensor"
  && negb (existsb (String.eqb (reg_unique_id entity)) valid).

(** The test of the second loop, lines 125-130, against the entities
    that are left. *)
Definition deserted (entry_id : string) (es : list RegistryEntry)
    (device : DeviceEntry) : bool :=
  existsb (String.eqb entry_id) (dev_config_entries device)
  && match filter (fun e => option_is (reg_device_id e) (dev_id device)) es with
     | [] => true
     | _ :: _ => false
     end.

(** [cleanup_removed_bodies], lines 106-131: both loops run over a copy
    of the registry taken before the loop. *)
Definition cleanup_removed_bodies (entry_id : string)
    (current_bodies : list string) (r : Registries) : Registries :=
  let valid := valid_unique_ids entry_id current_bodies in
  let es :=
    fold_left
      (fun es entity =>
         if to_be_removed entry_id valid entity
         then entity_async_remove (reg_entity_id entity) es
         else es)
      (reg_entities r) (reg_entities r) in
  let ds :=
    fold_left
      (fun ds device =>
         if deserted entry_id es device
         then async_remove_device (dev_id device) ds
         else ds)
      (reg_devices r) (reg_devices r) in
  {| reg_entities := es; reg_devices := ds |}.

(** What [SunSensor.__init__] sets, lines 142-159. *)
Record SunSensor : Type := {
  sensor_id : string;
  sensor_unique : string;
  sensor_body : nat;
  sensor_key : string;
  sensor_device : string
}.

Definition SunSensor_init (body : string) (i : nat) (key entry_id : string)
    : SunSensor :=
  {| sensor_id := sensor_entity_id body key;
     sensor_unique := sensor_unique_id entry_id body key;
     sensor_body := i;
     sensor_key := key;
     sensor_device := (entry_id ++ "-" ++ body)%string |}.

(** The sensors that [async_setup_entry] of the platform makes, lines
    95-102: one of each type for every entity of [runtime_data], named
    after the [object] of the entity. *)
Definition sensors_of_entry (entry_id : string)
    (runtime_data : list (string * nat)) (s : System) : list SunSensor :=
  flat_map
    (fun item =>
       match nth_error (bodies s) (snd item) with
       | Some b =>
           map (fun key => SunSensor_init (object b) (snd item) key entry_id)
               SENSOR_KEYS
       | None => []
       end)
    runtime_data.

(** [async_setup_entry] of the platform, lines 84-103: the registries
    after the cleanup, and the sensors handed to the host. *)
Definition sensor_async_setup_entry (entry_id : string)
    (runtime_data : list (string * nat)) (s : System) (r : Registries)
    : Registries * list SunSensor :=
  (cleanup_removed_bodies entry_id (map fst runtime_data) r,
   sensors_of_entry entry_id runtime_data s).

(** The string holds no hyphen. *)
Fixpoint hyphen_free (s : string) : bool :=
  match s with
  | EmptyString => true
  | String c s' => negb (Ascii.eqb c "-"%char) && hyphen_free s'
  end.

(** A registry with the sensors of Venus and of Mars, one device each,
    and a light of another integration. *)
Definition registry_entry (entity_id unique_id entry_id domain device : string)
    : RegistryEntry :=
  {| reg_entity_id := entity_id; reg_unique_id := unique_id;
     reg_config_entry_id := Some entry_id; reg_domain := domain;
     reg_device_id := Some device |}.

Definition venus_rising_entry : RegistryEntry :=
  registry_entry "sensor.sky_venus-next_rising" "e1-venus-next_rising" "e1"
                 "sensor" "d-venus".

Definition mars_rising_entry : RegistryEntry :=
  registry_entry "sensor.sky_mars-next_rising" "e1-mars-next_rising" "e1"
                 "sensor" "d-mars".

Definition registries_sample : Registries :=
  {| reg_entities :=
       [venus_rising_entry; mars_rising_entry;
        registry_entry "light.kitchen" "k1" "e2" "light" "d-kitchen"];
     reg_devices :=
       [{| dev_id := "d-venus"; dev_config_entries := ["e1"] |};
        {| dev_id := "d-mars"; dev_config_entries := ["e1"] |};
        {| dev_id := "d-kitchen"; dev_config_entries := ["e2"] |}] |}.

(** ** What the sensors show *)

(** The data that the sensors of entity [i] listening to [signal] read
    when the signal was last sent, if it ever was. *)
Fixpoint last_seen (signal : string) (i : nat) (l : list LogEntry)
    : option Observed :=
  match l with
  | [] => None
  | e :: l' =>
      match last_seen signal i l' with
      | Some o => Some o
      | None =>
          match e with
          | LogDispatch sig j o =>
              if String.eqb sig signal && Nat.eqb j i then Some o else None
          | _ => None
          end
      end
  end.

(** The sensors of the events show the events of the entity, those of
    the position its position. *)
Definition shows_events (o : Observed) (b : CelestialBody) : Prop :=
  seen_next_rising o = next_rising b /\ seen_next_setting o = next_setting b.

Definition shows_position (o : Observed) (b : CelestialBody) : Prop :=
  seen_solar_elevation o = solar_elevation b /\
  seen_solar_azimuth o = solar_azimuth b.

(** The log entry is none of another entity than [j]. *)
Definition entry_of (j : nat) (e : LogEntry) : Prop :=
  match e with
  | LogDispatch _ k _ => k = j
  | _ => True
  end.

(** What a method of entity [j] that took the entity from [b] to [b']
    has published in the entries [suffix]: for each of the two signals,
    either it sent the signal last with the data of [b'], or it did not
    send it and left the data as they were. *)
Definition published (j : nat) (b b' : CelestialBody) (suffix : list LogEntry)
    : Prop :=
  Forall (entry_of j) suffix /\
  match last_seen SIGNAL_EVENTS_CHANGED j suffix with
  | Some o => shows_events o b'
  | None => (ready b' -> ready b) /\
            next_rising b' = next_rising b /\ next_setting b' = next_setting b
  end /\
  match last_seen SIGNAL_POSITION_CHANGED j suffix with
  | Some o => shows_position o b'
  | None => (ready b' -> ready b) /\
            solar_elevation b' = solar_elevation b /\
            solar_azimuth b' = solar_azimuth b
  end.

(** Every tracking entity was last published as it is. *)
Definition shown (s : System) : Prop :=
  forall i b, nth_error (bodies s) i = Some b -> ready b ->
    (exists o, last_seen SIGNAL_EVENTS_CHANGED i (log (sys_hass s)) = Some o /\
               shows_events o b) /\
    (exists o, last_seen SIGNAL_POSITION_CHANGED i (log (sys_hass s)) = Some o /\
               shows_position o b).

(** * Verification *)

Arguments Qle_bool : simpl never.
Arguments py_round : simpl never.
Arguments classify_phase : simpl never.
Arguments timedelta_mul_1_25 : simpl never.
Arguments timedelta_days : simpl never.
Arguments _PHASE_UPDATES : simpl never.
Arguments dict_get : simpl never.
Arguments state : simpl never.
Arguments extra_state_attributes : simpl never.
Arguments get_astral_location : simpl never.
Arguments get_astral_position : simpl never.
Arguments get_astral_event_next : simpl never.
Arguments _check_event : simpl never.
Arguments update_body_position : simpl never.
Arguments update_events : simpl never.
Arguments update_location : simpl never.
Arguments event_instant : simpl never.
Arguments event_ticks : simpl never.

(** Unfold the monad and reduce the field accesses. *)
Ltac mstep :=
  cbv beta iota delta
    [bind ret raise lift get_self get_hass get_id modify_self modify_hass
     attr_of operand elevation_m call_listener unsub
     async_track_point_in_utc_time
     async_dispatcher_send async_write_ha_state utcnow bodies_dict_item];
  cbn [hass self self_id fst snd
       config location_cache bus_listeners timers next_handle ticks log
       set_config set_location_cache set_bus_listeners set_timers
       set_next_handle set_ticks add_log
       object phase location elevation next_rising next_setting
       solar_elevation solar_azimuth _next_change _config_listener
       _update_events_listener _update_body_position_listener
       set_phase set_location set_next_rising set_next_setting
       set_solar_position set_next_change listener set_listener observe
       seen_next_rising seen_next_setting seen_solar_elevation
       seen_solar_azimuth].

(** ** Comparisons of angles *)

Lemma Qge_bool_true (x y : Q) : Qge_bool x y = true <-> (y <= x)%Q.
Proof. unfold Qge_bool. apply Qle_bool_iff. Qed.

Lemma Qge_bool_false (x y : Q) : Qge_bool x y = false <-> (x < y)%Q.
Proof.
  unfold Qge_bool. split; intro H.
  - apply Qnot_le_lt. intro Hle. apply Qle_bool_iff in Hle. congruence.
  - destruct (Qle_bool y x) eqn:E; [|reflexivity].
    apply Qle_bool_iff in E. lra.
Qed.

Lemma Qgt_bool_true (x y : Q) : Qgt_bool x y = true <-> (y < x)%Q.
Proof.
  unfold Qgt_bool. rewrite negb_true_iff. apply (Qge_bool_false y x).
Qed.

Lemma Qgt_bool_false (x y : Q) : Qgt_bool x y = false <-> (x <= y)%Q.
Proof.
  unfold Qgt_bool. rewrite negb_false_iff. apply (Qge_bool_true y x).
Qed.

(** ** The phase classifier *)

Ltac split_Qge e k :=
  let E := fresh "E" in
  destruct (Qge_bool e k) eqn:E;
  [apply Qge_bool_true in E | apply Qge_bool_false in E].

(** C3. The classifier has inclusive lower bounds 10, 0, -6, -12 and -18
    degrees for day, small_day, twilight, nautical_twilight and
    astronomical_twilight, and night below; -6 degrees exactly is
    twilight; the recomputation intervals are 4, 2, 2, 4, 8 and 20
    minutes. *)
Theorem classify_phase_thresholds (e : Q) :
  (classify_phase e = PHASE_DAY <-> (10 # 1 <= e)%Q) /\
  (classify_phase e = PHASE_SMALL_DAY <-> (0 # 1 <= e < 10 # 1)%Q) /\
  (classify_phase e = PHASE_TWILIGHT <-> (-6 # 1 <= e < 0 # 1)%Q) /\
  (classify_phase e = PHASE_NAUTICAL_TWILIGHT <-> (-12 # 1 <= e < -6 # 1)%Q) /\
  (classify_phase e = PHASE_ASTRONOMICAL_TWILIGHT <-> (-18 # 1 <= e < -12 # 1)%Q) /\
  (classify_phase e = PHASE_NIGHT <-> (e < -18 # 1)%Q) /\
  classify_phase (-6 # 1) = PHASE_TWILIGHT /\
  _PHASE_UPDATES PHASE_DAY = timedelta_minutes 4 /\
  _PHASE_UPDATES PHASE_SMALL_DAY = timedelta_minutes 2 /\
  _PHASE_UPDATES PHASE_TWILIGHT = timedelta_minutes 2 /\
  _PHASE_UPDATES PHASE_NAUTICAL_TWILIGHT = timedelta_minutes 4 /\
  _PHASE_UPDATES PHASE_ASTRONOMICAL_TWILIGHT = timedelta_minutes 8 /\
  _PHASE_UPDATES PHASE_NIGHT = timedelta_minutes 20.
Proof.
  unfold classify_phase.
  split_Qge e (10 # 1); split_Qge e (0 # 1); split_Qge e (-6 # 1);
    split_Qge e (-12 # 1); split_Qge e (-18 # 1);
    repeat split; intros; try discriminate; try lra; reflexivity.
Qed.

(** ** What one run of each method does *)

Lemma state_computed b e :
  solar_elevation b = Some e ->
  state b = Ok (if Qgt_bool e (-833 # 1000) then STATE_ABOVE_HORIZON else STATE_BELOW_HORIZON).
Proof. intros H. unfold state. rewrite H. destruct (Qgt_bool _ _); reflexivity. Qed.

Lemma set_ticks_same h : set_ticks (ticks h) h = h.
Proof. destruct h; reflexivity. Qed.

Lemma set_next_change_same b nc : _next_change b = Some nc -> set_next_change (Some nc) b = b.
Proof. destruct b; cbn; intros ->; reflexivity. Qed.

Lemma ctx_eta c : {| hass := hass c; self_id := self_id c; self := self c |} = c.
Proof. destruct c; reflexivity. Qed.

Lemma get_astral_position_run sky loc elev obj target utc c :
  dict_get BODIES_DICT obj = Some target ->
  get_astral_position sky (Some loc) (Some elev) obj utc c =
  (Ok (py_round (fst (altaz sky (latitude loc) (longitude loc) elev target (clock sky (ticks (hass c))))),
       py_round (snd (altaz sky (latitude loc) (longitude loc) elev target (clock sky (ticks (hass c)))))),
   {| hass := set_ticks (S (ticks (hass c))) (hass c); self_id := self_id c; self := self c |}).
Proof.
  intros Hd. unfold get_astral_position. mstep. rewrite Hd. reflexivity.
Qed.

Lemma get_astral_event_next_run sky rising loc elev obj target utc c :
  dict_get BODIES_DICT obj = Some target ->
  get_astral_event_next sky (Some loc) (Some elev) obj (event_name rising) utc c =
  (Ok (event_instant sky rising loc elev target utc (ticks (hass c))),
   {| hass := set_ticks (event_ticks sky rising loc elev target utc (ticks (hass c))) (hass c);
      self_id := self_id c; self := self c |}).
Proof.
  intros Hd. unfold get_astral_event_next, event_instant, event_ticks, found.
  destruct rising; cbn [event_name]; mstep; rewrite Hd; mstep.
  - destruct (find_risings sky _ _ _ _ _ _) as [|[t|] ?]; cbn [first_time]; mstep;
      rewrite ?set_ticks_same, ?ctx_eta; reflexivity.
  - destruct (find_settings sky _ _ _ _ _ _) as [|[t|] ?]; cbn [first_time]; mstep;
      rewrite ?set_ticks_same, ?ctx_eta; reflexivity.
Qed.

Lemma _check_event_run sky rising loc elev target utc nc c :
  located (self c) loc elev target ->
  _next_change (self c) = Some nc ->
  _check_event sky utc (event_name rising) c =
  (Ok (event_instant sky rising loc elev target utc (ticks (hass c))),
   {| hass := set_ticks (event_ticks sky rising loc elev target utc (ticks (hass c))) (hass c);
      self_id := self_id c;
      self := set_next_change
                (Some (Z.min (event_instant sky rising loc elev target utc (ticks (hass c))) nc))
                (self c) |}).
Proof.
  intros (Hloc & Hel & Hd) Hnc. unfold _check_event. mstep.
  rewrite Hloc, Hel. rewrite (get_astral_event_next_run _ _ _ _ _ target) by assumption.
  mstep. rewrite Hnc. mstep.
  destruct (Z.ltb_spec (event_instant sky rising loc elev target utc (ticks (hass c))) nc); mstep.
  - rewrite Z.min_l by lia. reflexivity.
  - rewrite Z.min_r by lia. rewrite set_next_change_same by assumption. reflexivity.
Qed.

Lemma update_body_position_run sky c loc elev target p nc r s :
  located (self c) loc elev target ->
  phase (self c) = Some p ->
  _next_change (self c) = Some nc ->
  next_rising (self c) = Some r ->
  next_setting (self c) = Some s ->
  let n := ticks (hass c) in
  let now := clock sky n in
  let apparent :=
    altaz sky (latitude loc) (longitude loc) elev target (clock sky (S n)) in
  let b1 := set_solar_position (Some (py_round (fst apparent)))
              (Some (py_round (snd apparent))) (self c) in
  let st := if Qgt_bool (py_round (fst apparent)) (-833 # 1000)
            then STATE_ABOVE_HORIZON else STATE_BELOW_HORIZON in
  let h1 := add_log (LogDispatch SIGNAL_POSITION_CHANGED (self_id c) (observe b1))
              (add_log (LogWriteState (self_id c) st (observe b1))
                 (set_ticks (S (S n)) (hass c))) in
  let t := {| t_handle := next_handle (hass c); t_owner := self_id c;
              t_action := Run_update_body_position;
              t_point := now + _PHASE_UPDATES p |} in
  update_body_position sky c =
  (Ok tt,
   if now + timedelta_mul_1_25 (_PHASE_UPDATES p) >? nc then
     {| hass := h1; self_id := self_id c;
        self := set_listener Run_update_body_position None b1 |}
   else
     {| hass := add_log (LogTrack t)
                  (set_next_handle (S (next_handle (hass c)))
                     (set_timers (timers (hass c) ++ [t]) h1));
        self_id := self_id c;
        self := set_listener Run_update_body_position
                  (Some (next_handle (hass c))) b1 |}).
Proof.
  intros (Hloc & Hel & Hd) Hp Hnc Hr Hs n now apparent b1 st h1 t.
  unfold update_body_position. mstep.
  rewrite Hloc, Hel.
  rewrite (get_astral_position_run _ _ _ _ target) by assumption. mstep.
  erewrite state_computed by reflexivity.
  unfold extra_state_attributes. mstep. rewrite Hr, Hs. mstep. rewrite Hp. mstep.
  rewrite Hnc. mstep. fold n now.
  destruct (now + timedelta_mul_1_25 (_PHASE_UPDATES p) >? nc); reflexivity.
Qed.

Lemma update_events_run sky c loc elev target :
  located (self c) loc elev target ->
  let n := ticks (hass c) in
  let now := clock sky n in
  let r := event_instant sky true loc elev target now (S n) in
  let n1 := event_ticks sky true loc elev target now (S n) in
  let s := event_instant sky false loc elev target now n1 in
  let n2 := event_ticks sky false loc elev target now n1 in
  let nc := Z.min s (Z.min r (now + timedelta_days 400)) in
  let ph := match phase (self c) with
            | Some p => p
            | None => classify_phase (astral_solar_elevation sky loc nc elev)
            end in
  let apparent :=
    altaz sky (latitude loc) (longitude loc) elev target (clock sky (S n2)) in
  let seen := {| seen_next_rising := Some r; seen_next_setting := Some s;
                 seen_solar_elevation := Some (py_round (fst apparent));
                 seen_solar_azimuth := Some (py_round (snd apparent)) |} in
  let st := if Qgt_bool (py_round (fst apparent)) (-833 # 1000)
            then STATE_ABOVE_HORIZON else STATE_BELOW_HORIZON in
  let old := _update_body_position_listener (self c) in
  let dormant := clock sky n2 + timedelta_mul_1_25 (_PHASE_UPDATES ph) >? nc in
  let tpos := {| t_handle := next_handle (hass c); t_owner := self_id c;
                 t_action := Run_update_body_position;
                 t_point := clock sky n2 + _PHASE_UPDATES ph |} in
  let hev := if dormant then next_handle (hass c) else S (next_handle (hass c)) in
  let tev := {| t_handle := hev; t_owner := self_id c;
                t_action := Run_update_events; t_point := nc |} in
  exists c',
    update_events sky c = (Ok tt, c') /\
    self_id c' = self_id c /\
    object (self c') = object (self c) /\
    location (self c') = Some loc /\
    elevation (self c') = Some elev /\
    next_rising (self c') = Some r /\
    next_setting (self c') = Some s /\
    _next_change (self c') = Some nc /\
    phase (self c') = Some ph /\
    solar_elevation (self c') = Some (py_round (fst apparent)) /\
    solar_azimuth (self c') = Some (py_round (snd apparent)) /\
    _update_events_listener (self c') = Some hev /\
    _update_body_position_listener (self c') =
      (if dormant then None else Some (next_handle (hass c))) /\
    ticks (hass c') = S (S n2) /\
    config (hass c') = config (hass c) /\
    log (hass c') =
      log (hass c)
      ++ match old with Some h => [LogCancel h] | None => [] end
      ++ [LogWriteState (self_id c) st seen;
          LogDispatch SIGNAL_POSITION_CHANGED (self_id c) seen]
      ++ (if dormant then [] else [LogTrack tpos])
      ++ [LogDispatch SIGNAL_EVENTS_CHANGED (self_id c) seen; LogTrack tev] /\
    timers (hass c') =
      match old with
      | Some h => remove_timer h (timers (hass c))
      | None => timers (hass c)
      end
      ++ (if dormant then [] else [tpos]) ++ [tev].
Proof.
  intros Hl n now r n1 s n2 nc ph apparent seen st old dormant tpos hev tev.
  pose proof Hl as (Hloc & Hel & Hd).
  unfold update_events. mstep.
  erewrite (_check_event_run sky true) by (mstep; first [exact Hl | reflexivity]).
  mstep.
  erewrite (_check_event_run sky false) by (mstep; first [exact Hl | reflexivity]).
  mstep. fold n now r n1 s n2 nc.
  subst old.
  destruct (phase (self c)) as [p|] eqn:Hp; mstep; rewrite ?Hloc; mstep; rewrite ?Hel; mstep;
  (destruct (_update_body_position_listener (self c)) as [h|] eqn:Hold; mstep;
   (erewrite update_body_position_run;
    [ | split; [|split]; mstep; eassumption
      | mstep; first [reflexivity | eassumption] | mstep; reflexivity
      | mstep; reflexivity | mstep; reflexivity ];
    mstep; fold apparent; fold ph; fold dormant;
    destruct dormant eqn:Hdorm; mstep;
    eexists; (split; [reflexivity|]); mstep;
    repeat split;
    first [assumption | reflexivity | rewrite <- ?app_assoc; reflexivity])).
Qed.

(** ** Bounds on the answers of the ephemeris *)

Lemma first_time_In (times : list (option datetime)) (t : datetime) :
  first_time times = Some t -> In (Some t) times.
Proof.
  destruct times as [|[t'|] ?]; cbn; intros H; try discriminate.
  injection H as ->. left. reflexivity.
Qed.

Lemma event_instant_cases sky rising loc elev target utc n :
  (found sky rising loc elev target utc =
     Some (event_instant sky rising loc elev target utc n) /\
   event_ticks sky rising loc elev target utc n = n) \/
  (found sky rising loc elev target utc = None /\
   event_instant sky rising loc elev target utc n = clock sky n /\
   event_ticks sky rising loc elev target utc n = S n).
Proof.
  unfold event_instant, event_ticks.
  destruct (found sky rising loc elev target utc); auto.
Qed.

Lemma found_within_window sky rising loc elev target utc t :
  within_window sky ->
  found sky rising loc elev target utc = Some t ->
  utc <= t <= utc + timedelta_days 2.
Proof.
  intros Hw Hf. unfold found in Hf. apply first_time_In in Hf.
  exact (Hw rising _ _ _ _ _ _ _ Hf).
Qed.

(** ** The event horizon *)

(** C1. After an event recomputation of a tracked body, [_next_change] is
    the minimum of [next_rising] and [next_setting], when the almanac
    keeps to its two-day search window and the clock does not jump. *)
Theorem next_change_is_min sky c loc elev target :
  located (self c) loc elev target ->
  within_window sky ->
  steady_clock sky ->
  exists c' r s,
    update_events sky c = (Ok tt, c') /\
    next_rising (self c') = Some r /\
    next_setting (self c') = Some s /\
    _next_change (self c') = Some (Z.min r s).
Proof.
  intros Hl Hw Hc.
  destruct (update_events_run sky c loc elev target Hl)
    as (c' & Hrun & _ & _ & _ & _ & Hr & Hs & Hnc & _).
  exists c'. do 2 eexists. repeat split; [exact Hrun | exact Hr | exact Hs |].
  rewrite Hnc. f_equal.
  set (n := ticks (hass c)) in *. set (now := clock sky n) in *.
  assert (Hlt : event_instant sky true loc elev target now (S n)
                < now + timedelta_days 400).
  { destruct (event_instant_cases sky true loc elev target now (S n))
      as [[Hf _] | (_ & -> & _)].
    - apply (found_within_window _ _ _ _ _ _ _ Hw) in Hf.
      unfold timedelta_days in *. lia.
    - specialize (Hc n). fold now in Hc. unfold timedelta_days in *. lia. }
  lia.
Qed.

Lemma sky_venus_within_window : within_window sky_venus.
Proof.
  intros rising lat lon elev target t0 t1 t H.
  destruct rising; cbn in H; unfold occurs_after in H;
    match type of H with
    | In _ (if ?b then _ else _) => destruct b eqn:E
    end;
    cbn in H; try tauto;
    destruct H as [H | []]; injection H as <-;
    apply Z.leb_le in E; unfold timedelta_hours in *; lia.
Qed.

Lemma sky_venus_steady : steady_clock sky_venus.
Proof. intros n. unfold sky_venus, timedelta_days. cbn [clock]. lia. Qed.

Lemma ctx_venus_located :
  located (self ctx_venus) loc_origin 0 "Venus BARYCENTER".
Proof. repeat split. Qed.

Lemma next_change_is_min_witness :
  exists c' r s,
    update_events sky_venus ctx_venus = (Ok tt, c') /\
    next_rising (self c') = Some r /\
    next_setting (self c') = Some s /\
    _next_change (self c') = Some (Z.min r s).
Proof.
  exact (next_change_is_min sky_venus ctx_venus loc_origin 0
           "Venus BARYCENTER" ctx_venus_located sky_venus_within_window
           sky_venus_steady).
Defined.

(** ** The horizon-collision rule *)

Lemma timedelta_mul_1_25_exact (p : Phase) :
  4 * timedelta_mul_1_25 (_PHASE_UPDATES p) = 5 * _PHASE_UPDATES p.
Proof. destruct p; reflexivity. Qed.

(** C2. A position recomputation arms no new position timer exactly when
    [now + delta * 1.25 > _next_change], [delta] being the interval of
    the current phase (multiplied exactly); otherwise it arms its next
    run at [now + delta].  By day, three minutes before the horizon, no
    timer is armed. *)
Theorem position_timer_horizon_rule sky c loc elev target p nc r s :
  located (self c) loc elev target ->
  phase (self c) = Some p ->
  _next_change (self c) = Some nc ->
  next_rising (self c) = Some r ->
  next_setting (self c) = Some s ->
  let now := clock sky (ticks (hass c)) in
  let delta := _PHASE_UPDATES p in
  let t := {| t_handle := next_handle (hass c); t_owner := self_id c;
              t_action := Run_update_body_position; t_point := now + delta |} in
  exists c',
    update_body_position sky c = (Ok tt, c') /\
    4 * timedelta_mul_1_25 delta = 5 * delta /\
    (now + timedelta_mul_1_25 delta > nc ->
       _update_body_position_listener (self c') = None /\
       timers (hass c') = timers (hass c)) /\
    (now + timedelta_mul_1_25 delta <= nc ->
       _update_body_position_listener (self c') = Some (next_handle (hass c)) /\
       timers (hass c') = timers (hass c) ++ [t]) /\
    (p = PHASE_DAY -> nc = now + timedelta_minutes 3 ->
       _update_body_position_listener (self c') = None /\
       timers (hass c') = timers (hass c)).
Proof.
  intros Hl Hp Hnc Hr Hs now delta t.
  pose proof (timedelta_mul_1_25_exact p) as Hexact. fold delta in Hexact.
  eexists. split.
  { exact (update_body_position_run sky c loc elev target p nc r s Hl Hp Hnc Hr Hs). }
  cbv zeta. fold now delta.
  split; [exact Hexact|].
  destruct (Z.gtb_spec (now + timedelta_mul_1_25 delta) nc) as [Hgt | Hle]; mstep.
  - repeat split; intros; try reflexivity; lia.
  - repeat split; intros; try reflexivity; try lia.
    all: subst p nc; unfold delta, _PHASE_UPDATES, timedelta_minutes in *; lia.
Qed.

Lemma position_timer_horizon_rule_witness :
  exists c',
    update_body_position sky_venus ctx_venus_by_day = (Ok tt, c') /\
    _update_body_position_listener (self c') = None /\
    timers (hass c') = timers (hass ctx_venus_by_day).
Proof.
  destruct (position_timer_horizon_rule sky_venus ctx_venus_by_day loc_origin 0
              "Venus BARYCENTER" PHASE_DAY (T0 + timedelta_minutes 3)
              (T0 + timedelta_minutes 3) (T0 + timedelta_hours 12))
    as (c' & Hrun & _ & _ & _ & Hday).
  - repeat split.
  - reflexivity.
  - reflexivity.
  - reflexivity.
  - reflexivity.
  - exists c'. split; [exact Hrun|]. apply Hday; reflexivity.
Defined.

(** ** The public state *)

(** C10. With a computed position, the state of the entity is
    [above_horizon] if and only if [solar_elevation > -0.833], and
    [below_horizon] otherwise. *)
Theorem state_threshold (b : CelestialBody) (e : Q) :
  solar_elevation b = Some e ->
  (state b = Ok STATE_ABOVE_HORIZON <-> (-833 # 1000 < e)%Q) /\
  (state b = Ok STATE_BELOW_HORIZON <-> ~ (-833 # 1000 < e)%Q).
Proof.
  intros H. rewrite (state_computed b e H).
  destruct (Qgt_bool e (-833 # 1000)) eqn:E.
  - apply Qgt_bool_true in E. repeat split; intros; try discriminate; try reflexivity; try assumption.
    contradiction.
  - apply Qgt_bool_false in E. repeat split; intros; try discriminate; try reflexivity.
    + lra.
    + lra.
Qed.

Lemma state_threshold_witness :
  (state venus_by_day = Ok STATE_ABOVE_HORIZON <-> (-833 # 1000 < 12 # 1)%Q) /\
  (state venus_by_day = Ok STATE_BELOW_HORIZON <-> ~ (-833 # 1000 < 12 # 1)%Q).
Proof. apply (state_threshold venus_by_day (12 # 1)). reflexivity. Defined.

(** ** The fallback of the ephemeris gateway *)

(** C4. When the almanac finds no occurrence in its two-day window,
    [get_astral_event_next] returns a reading of the clock instead of
    raising, and the event recomputation completes with that instant as
    [next_rising] (or [next_setting]). *)
Theorem no_event_found_defaults_to_now sky c loc elev target (rising : bool) :
  located (self c) loc elev target ->
  found sky rising loc elev target (clock sky (ticks (hass c))) = None ->
  (forall utc c0,
     found sky rising loc elev target utc = None ->
     get_astral_event_next sky (Some loc) (Some elev) (object (self c))
       (event_name rising) utc c0 =
     (Ok (clock sky (ticks (hass c0))),
      {| hass := set_ticks (S (ticks (hass c0))) (hass c0);
         self_id := self_id c0; self := self c0 |})) /\
  exists c' k,
    update_events sky c = (Ok tt, c') /\
    (ticks (hass c) < k < ticks (hass c'))%nat /\
    (if rising then next_rising (self c') else next_setting (self c'))
      = Some (clock sky k).
Proof.
  intros Hl Hnone. pose proof Hl as (_ & _ & Hd). split.
  - intros utc c0 Hf.
    rewrite (get_astral_event_next_run sky rising loc elev _ target utc c0 Hd).
    unfold event_instant, event_ticks. rewrite Hf. reflexivity.
  - destruct (update_events_run sky c loc elev target Hl)
      as (c' & Hrun & _ & _ & _ & _ & Hr & Hs & _ & _ & _ & _ & _ & _ & Hticks & _).
    set (n := ticks (hass c)) in *. set (now := clock sky n) in *.
    destruct rising.
    + exists c', (S n). split; [exact Hrun|].
      destruct (event_instant_cases sky true loc elev target now (S n))
        as [[Hf _] | (_ & Hi & Ht)]; [congruence|].
      rewrite Hticks, Hr, Hi. split; [|reflexivity].
      destruct (event_instant_cases sky false loc elev target now
                  (event_ticks sky true loc elev target now (S n)))
        as [[_ Ht'] | (_ & _ & Ht')]; rewrite Ht'; lia.
    + exists c', (event_ticks sky true loc elev target now (S n)).
      split; [exact Hrun|].
      destruct (event_instant_cases sky false loc elev target now
                  (event_ticks sky true loc elev target now (S n)))
        as [[Hf _] | (_ & Hi & Ht)]; [congruence|].
      rewrite Hticks, Hs, Hi, Ht. split; [|reflexivity].
      destruct (event_instant_cases sky true loc elev target now (S n))
        as [[_ Ht'] | (_ & _ & Ht')]; rewrite Ht'; lia.
Qed.

Lemma no_event_found_defaults_to_now_witness :
  exists c' k,
    update_events sky_polar ctx_venus = (Ok tt, c') /\
    (ticks (hass ctx_venus) < k < ticks (hass c'))%nat /\
    next_rising (self c') = Some (clock sky_polar k).
Proof.
  exact (proj2 (no_event_found_defaults_to_now sky_polar ctx_venus loc_origin 0
                  "Venus BARYCENTER" true ctx_venus_located eq_refl)).
Defined.

(** ** Recomputing twice at the same instant *)

Lemma event_instant_frozen sky rising loc elev target a b a' b' :
  frozen_clock sky ->
  event_instant sky rising loc elev target (clock sky a) b =
  event_instant sky rising loc elev target (clock sky a') b'.
Proof.
  intros Hf. rewrite (Hf a a'). unfold event_instant.
  destruct (found sky rising loc elev target (clock sky a')); [reflexivity|].
  apply Hf.
Qed.

(** C8. Two event recomputations in a row, at the same instant and with
    the location unchanged, leave the same [next_rising], [next_setting]
    and [phase] as the first alone. *)
Theorem update_events_idempotent sky c loc elev target :
  frozen_clock sky ->
  located (self c) loc elev target ->
  exists c1 c2,
    update_events sky c = (Ok tt, c1) /\
    update_events sky c1 = (Ok tt, c2) /\
    location (self c1) = location (self c) /\
    elevation (self c1) = elevation (self c) /\
    clock sky (ticks (hass c1)) = clock sky (ticks (hass c)) /\
    next_rising (self c2) = next_rising (self c1) /\
    next_setting (self c2) = next_setting (self c1) /\
    phase (self c2) = phase (self c1).
Proof.
  intros Hf Hl. pose proof Hl as (Hloc & Hel & Hd).
  destruct (update_events_run sky c loc elev target Hl)
    as (c1 & Hrun1 & _ & Hobj1 & Hloc1 & Hel1 & Hr1 & Hs1 & _ & Hp1 & _).
  assert (Hl1 : located (self c1) loc elev target).
  { repeat split; [exact Hloc1 | exact Hel1 | rewrite Hobj1; exact Hd]. }
  destruct (update_events_run sky c1 loc elev target Hl1)
    as (c2 & Hrun2 & _ & _ & _ & _ & Hr2 & Hs2 & _ & Hp2 & _).
  exists c1, c2. repeat split; try assumption.
  - congruence.
  - congruence.
  - apply Hf.
  - rewrite Hr2, Hr1. f_equal. apply event_instant_frozen, Hf.
  - rewrite Hs2, Hs1. f_equal. apply event_instant_frozen, Hf.
  - rewrite Hp2, Hp1. reflexivity.
Qed.

Lemma sky_venus_frozen : frozen_clock sky_venus.
Proof. intros n m. reflexivity. Qed.

Lemma update_events_idempotent_witness :
  exists c1 c2,
    update_events sky_venus ctx_venus = (Ok tt, c1) /\
    update_events sky_venus c1 = (Ok tt, c2) /\
    location (self c1) = location (self ctx_venus) /\
    elevation (self c1) = elevation (self ctx_venus) /\
    clock sky_venus (ticks (hass c1)) = clock sky_venus (ticks (hass ctx_venus)) /\
    next_rising (self c2) = next_rising (self c1) /\
    next_setting (self c2) = next_setting (self c1) /\
    phase (self c2) = phase (self c1).
Proof.
  exact (update_events_idempotent sky_venus ctx_venus loc_origin 0
           "Venus BARYCENTER" sky_venus_frozen ctx_venus_located).
Defined.

(** ** Commands that leave the scheduling view alone *)

Lemma replay_snoc (l : list LogEntry) (e : LogEntry) :
  replay (l ++ [e]) = log_step (replay l) e.
Proof. unfold replay. rewrite fold_left_app. reflexivity. Qed.

Lemma replay_dispatch l sig i seen :
  replay (l ++ [LogDispatch sig i seen]) = replay l.
Proof. rewrite replay_snoc. destruct (replay l); reflexivity. Qed.

Lemma replay_write_state l i st attrs :
  replay (l ++ [LogWriteState i st attrs]) = replay l.
Proof. rewrite replay_snoc. destruct (replay l); reflexivity. Qed.

Lemma quiet_ret {A} (a : A) : quiet (ret a).
Proof. intros c. reflexivity. Qed.

Lemma quiet_raise {A} (e : Exc) : quiet (@raise A e).
Proof. intros c. reflexivity. Qed.

Lemma quiet_lift {A} (r : Result A) : quiet (lift r).
Proof. intros c. reflexivity. Qed.

Lemma quiet_get_self : quiet get_self.
Proof. intros c. reflexivity. Qed.

Lemma quiet_get_hass : quiet get_hass.
Proof. intros c. reflexivity. Qed.

Lemma quiet_get_id : quiet get_id.
Proof. intros c. reflexivity. Qed.

Lemma quiet_attr_of {A} (o : option A) : quiet (attr_of o).
Proof. destruct o; intros c; reflexivity. Qed.

Lemma quiet_operand {A} (o : option A) : quiet (operand o).
Proof. destruct o; intros c; reflexivity. Qed.

Lemma quiet_elevation_m (o : option Z) : quiet (elevation_m o).
Proof. destruct o; intros c; reflexivity. Qed.

Lemma quiet_bind {A B} (m : M A) (k : A -> M B) :
  quiet m -> (forall a, quiet (k a)) -> quiet (bind m k).
Proof.
  intros Hm Hk c. unfold bind. specialize (Hm c).
  destruct (m c) as [[a | e] c1]; cbn [snd] in *.
  - rewrite (Hk a c1). exact Hm.
  - exact Hm.
Qed.

Lemma quiet_modify_self (f : CelestialBody -> CelestialBody) :
  (forall b, phase (f b) = phase b /\
             _update_events_listener (f b) = _update_events_listener b /\
             _update_body_position_listener (f b) = _update_body_position_listener b) ->
  quiet (modify_self f).
Proof.
  intros Hf c. destruct (Hf (self c)) as (H1 & H2 & H3).
  unfold view, modify_self. cbn [snd self hass self_id].
  rewrite H1, H2, H3. reflexivity.
Qed.

Lemma quiet_modify_hass (f : Hass -> Hass) :
  (forall h, timers (f h) = timers h /\ next_handle (f h) = next_handle h /\
             replay (log (f h)) = replay (log h)) ->
  quiet (modify_hass f).
Proof.
  intros Hf c. destruct (Hf (hass c)) as (H1 & H2 & H3).
  unfold view, modify_hass. cbn [snd self hass self_id].
  rewrite H1, H2, H3. reflexivity.
Qed.

Ltac quiet_step :=
  first
    [ apply quiet_ret | apply quiet_raise | apply quiet_lift
    | apply quiet_get_self | apply quiet_get_hass | apply quiet_get_id
    | apply quiet_attr_of | apply quiet_operand | apply quiet_elevation_m
    | apply quiet_bind; [ | intros ? ]
    | apply quiet_modify_self; intros ?; repeat split
    | apply quiet_modify_hass; intros ?; cbn [timers next_handle log set_ticks set_location_cache add_log];
      repeat split; first [reflexivity | apply replay_dispatch | apply replay_write_state]
    | match goal with
      | |- quiet (match ?x with _ => _ end) => destruct x
      | |- quiet (if ?x then _ else _) => destruct x
      end ].

Lemma quiet_utcnow sky : quiet (utcnow sky).
Proof. unfold utcnow. repeat quiet_step. Qed.

Lemma quiet_async_dispatcher_send sig : quiet (async_dispatcher_send sig).
Proof. unfold async_dispatcher_send. repeat quiet_step. Qed.

Lemma quiet_async_write_ha_state : quiet async_write_ha_state.
Proof. unfold async_write_ha_state. repeat quiet_step. Qed.

Lemma quiet_bodies_dict_item obj : quiet (bodies_dict_item obj).
Proof. unfold bodies_dict_item. repeat quiet_step. Qed.

Lemma quiet_get_astral_location : quiet get_astral_location.
Proof. unfold get_astral_location. repeat quiet_step. Qed.

Lemma quiet_get_astral_position sky l e obj utc :
  quiet (get_astral_position sky l e obj utc).
Proof.
  unfold get_astral_position.
  repeat first [apply quiet_utcnow | apply quiet_bodies_dict_item | quiet_step].
Qed.

Lemma quiet_get_astral_event_next sky l e obj ev utc :
  quiet (get_astral_event_next sky l e obj ev utc).
Proof.
  unfold get_astral_event_next.
  repeat first [apply quiet_utcnow | apply quiet_bodies_dict_item | quiet_step].
Qed.

Lemma quiet_check_event sky utc ev : quiet (_check_event sky utc ev).
Proof.
  unfold _check_event.
  repeat first [apply quiet_get_astral_event_next | quiet_step].
Qed.

(** ** The scheduling invariant on views *)

Lemma In_remove_timer h t ts :
  In t (remove_timer h ts) <-> In t ts /\ t_handle t <> h.
Proof.
  unfold remove_timer. rewrite filter_In, negb_true_iff, Nat.eqb_neq. tauto.
Qed.

Lemma NoDup_remove_timer h ts :
  NoDup (map t_handle ts) -> NoDup (map t_handle (remove_timer h ts)).
Proof.
  induction ts as [|t ts IH]; cbn; intros H; [constructor|].
  inversion H as [|? ? Hnotin Hnd]; subst.
  destruct (negb (t_handle t =? h)%nat); [|auto].
  cbn. constructor; [|auto].
  intros Hin. apply Hnotin. apply in_map_iff in Hin as (t' & Ht' & Hin).
  apply In_remove_timer in Hin as [Hin _]. apply in_map_iff. eauto.
Qed.

Lemma NoDup_track ts t :
  NoDup (map t_handle ts) ->
  (forall t', In t' ts -> (t_handle t' < t_handle t)%nat) ->
  NoDup (map t_handle (ts ++ [t])).
Proof.
  intros Hnd Hlt. rewrite map_app. cbn.
  apply NoDup_app; [exact Hnd | repeat constructor; intros [] | ].
  intros h Hin [<- | []]. apply in_map_iff in Hin as (t' & Heq & Hin).
  specialize (Hlt t' Hin). lia.
Qed.

Lemma Action_eqb_eq a b : Action_eqb a b = true <-> a = b.
Proof. destruct a, b; cbn; split; intros; congruence. Qed.

Lemma idle_no_same_slot k p v :
  idle k v -> existsb (same_slot (view_track k p v)) (v_timers v) = false.
Proof.
  intros Hidle. destruct (existsb _ _) eqn:E; [|reflexivity].
  apply existsb_exists in E as (t & Hin & Hs). unfold same_slot in Hs.
  apply andb_true_iff in Hs as [Ho Ha]. cbn in Ho, Ha.
  apply Nat.eqb_eq in Ho. apply Action_eqb_eq in Ha.
  exfalso. exact (Hidle t Hin (eq_sym Ho) (eq_sym Ha)).
Qed.

Lemma idle_owns k v : idle k v -> owns k v.
Proof. intros H t Hin Ho Ha. exfalso. exact (H t Hin Ho Ha). Qed.

Lemma tidy_cancel O h v : tidy O v -> tidy O (view_cancel h v).
Proof.
  intros (Hr & Hnd & Hlt & Ho). unfold tidy, view_cancel; cbn.
  rewrite Hr. split; [|split; [|split]].
  - reflexivity.
  - apply NoDup_remove_timer, Hnd.
  - intros t Hin. apply In_remove_timer in Hin as [Hin _]. auto.
  - intros t Hin. apply In_remove_timer in Hin as [Hin _]. auto.
Qed.

Lemma owns_cancel k h v : owns k v -> owns k (view_cancel h v).
Proof.
  intros H t Hin. apply In_remove_timer in Hin as [Hin _].
  destruct k; exact (H t Hin).
Qed.

Lemma idle_cancel k h v : idle k v -> idle k (view_cancel h v).
Proof.
  intros H t Hin. apply In_remove_timer in Hin as [Hin _]. exact (H t Hin).
Qed.

Lemma owns_cancel_idle k h v :
  owns k v -> v_listener k v = Some h -> idle k (view_cancel h v).
Proof.
  intros H Hl t Hin Ho Ha. apply In_remove_timer in Hin as [Hin Hne].
  specialize (H t Hin Ho Ha). rewrite Hl in H. injection H as ->.
  congruence.
Qed.

Lemma owns_none_idle k v : owns k v -> v_listener k v = None -> idle k v.
Proof.
  intros H Hl t Hin Ho Ha. specialize (H t Hin Ho Ha). congruence.
Qed.

Ltac split_sched := split; [|split; [|split]].

Lemma sched_cancel O i fe fp ph h v :
  sched O i fe fp ph v -> sched O i fe fp ph (view_cancel h v).
Proof.
  intros (Ht & He & Hp & Hk). split_sched.
  - apply tidy_cancel, Ht.
  - destruct fe; [apply idle_cancel | apply owns_cancel]; exact He.
  - destruct fp; [apply idle_cancel | apply owns_cancel]; exact Hp.
  - exact Hk.
Qed.

Lemma sched_relax O i fe fp ph v : sched O i fe fp ph v -> sched O i false false ph v.
Proof.
  intros (Ht & He & Hp & Hk). split_sched; [exact Ht | | | exact Hk].
  - destruct fe; [apply idle_owns|]; exact He.
  - destruct fp; [apply idle_owns|]; exact Hp.
Qed.

Lemma sched_relax_position O i fe fp ph v :
  sched O i fe fp ph v -> sched O i fe false ph v.
Proof.
  intros (Ht & He & Hp & Hk). split_sched; [exact Ht | exact He | | exact Hk].
  destruct fp; [apply idle_owns|]; exact Hp.
Qed.

Lemma sched_cancel_events O i fp ph o v :
  sched O i false fp ph v -> v_events v = o ->
  sched O i true fp ph (match o with Some h => view_cancel h v | None => v end).
Proof.
  intros Hs Hl. destruct o as [h|].
  - destruct (sched_cancel O i false fp ph h v Hs) as (Ht & _ & Hp & Hk).
    split_sched; [exact Ht | | exact Hp | exact Hk].
    destruct Hs as (_ & He & _).
    exact (owns_cancel_idle Run_update_events h v He Hl).
  - destruct Hs as (Ht & He & Hp & Hk).
    split_sched; [exact Ht | | exact Hp | exact Hk].
    exact (owns_none_idle Run_update_events v He Hl).
Qed.

Lemma sched_cancel_position O i fe ph o v :
  sched O i fe false ph v -> v_position v = o ->
  sched O i fe true ph (match o with Some h => view_cancel h v | None => v end).
Proof.
  intros Hs Hl. destruct o as [h|].
  - destruct (sched_cancel O i fe false ph h v Hs) as (Ht & He & _ & Hk).
    split_sched; [exact Ht | exact He | | exact Hk].
    destruct Hs as (_ & _ & Hp & _).
    exact (owns_cancel_idle Run_update_body_position h v Hp Hl).
  - destruct Hs as (Ht & He & Hp & Hk).
    split_sched; [exact Ht | exact He | | exact Hk].
    exact (owns_none_idle Run_update_body_position v Hp Hl).
Qed.

Lemma tidy_arm O k p v : tidy O v -> idle k v -> tidy O (view_arm k p v).
Proof.
  intros (Hr & Hnd & Hlt & Ho) Hidle. unfold tidy, view_arm; cbn [v_replay v_timers v_next v_id].
  rewrite Hr. cbn [log_step]. rewrite (idle_no_same_slot k p v Hidle).
  split; [|split; [|split]].
  - reflexivity.
  - apply NoDup_track; [exact Hnd|]. intros t' Hin. cbn. auto.
  - intros t Hin. apply in_app_iff in Hin as [Hin | [<- | []]].
    + specialize (Hlt t Hin). lia.
    + cbn. lia.
  - intros t Hin Hne. apply in_app_iff in Hin as [Hin | [<- | []]].
    + auto.
    + cbn in Hne. congruence.
Qed.

Lemma owns_arm_same k p v : idle k v -> owns k (view_arm k p v).
Proof.
  intros Hidle t Hin Ho Ha. cbn in Hin, Ho.
  apply in_app_iff in Hin as [Hin | [<- | []]].
  - exfalso. exact (Hidle t Hin Ho Ha).
  - destruct k; reflexivity.
Qed.

Lemma owns_arm_other k k' p v :
  k' <> k -> owns k' v -> owns k' (view_arm k p v).
Proof.
  intros Hne H t Hin Ho Ha. cbn in Hin, Ho.
  apply in_app_iff in Hin as [Hin | [<- | []]].
  - specialize (H t Hin Ho Ha). destruct k, k'; try congruence; exact H.
  - cbn in Ha. congruence.
Qed.

Lemma idle_arm_other k k' p v :
  k' <> k -> idle k' v -> idle k' (view_arm k p v).
Proof.
  intros Hne H t Hin Ho. cbn in Hin, Ho.
  apply in_app_iff in Hin as [Hin | [<- | []]].
  - exact (H t Hin Ho).
  - cbn. congruence.
Qed.

Lemma sched_arm_events O i fp ph p v :
  sched O i true fp ph v -> sched O i false fp ph (view_arm Run_update_events p v).
Proof.
  intros (Ht & He & Hp & Hk). split_sched.
  - apply tidy_arm; assumption.
  - apply owns_arm_same, He.
  - destruct fp; [apply idle_arm_other | apply owns_arm_other];
      try discriminate; exact Hp.
  - exact Hk.
Qed.

Lemma sched_arm_position O i fe ph p v :
  sched O i fe true ph v ->
  sched O i fe false ph (view_arm Run_update_body_position p v).
Proof.
  intros (Ht & He & Hp & Hk). split_sched.
  - apply tidy_arm; assumption.
  - destruct fe; [apply idle_arm_other | apply owns_arm_other];
      try discriminate; exact He.
  - apply owns_arm_same, Hp.
  - exact Hk.
Qed.

Lemma sched_clear_position O i fe ph v :
  sched O i fe true ph v -> sched O i fe false ph (view_clear_position v).
Proof.
  intros (Ht & He & Hp & Hk). split_sched.
  - exact Ht.
  - destruct fe; exact He.
  - intros t Hin Ho Ha. exfalso. exact (Hp t Hin Ho Ha).
  - exact Hk.
Qed.

Lemma sched_phase O i fe fp ph x v :
  sched O i fe fp ph v -> v_phase v = None ->
  sched O i fe fp ph (view_phase x v).
Proof.
  intros (Ht & He & Hp & Hk) Hnone. split_sched; [exact Ht | | |].
  - destruct fe; exact He.
  - destruct fp; exact Hp.
  - destruct Hk as [Hi Hk]. split; [exact Hi|].
    destruct ph as [p|]; [|exact I]. cbn in Hk. congruence.
Qed.

(** ** Triples on views *)

Lemma vhoare_quiet {A} (P : View -> Prop) (m : M A) : quiet m -> vhoare P m P.
Proof. intros Hq c H. rewrite (Hq c). exact H. Qed.

Lemma vhoare_bind {A B} (P R Q : View -> Prop) (m : M A) (k : A -> M B) :
  vhoare P m R -> (forall v, R v -> Q v) -> (forall a, vhoare R (k a) Q) ->
  vhoare P (bind m k) Q.
Proof.
  intros Hm Himp Hk c H. unfold bind. specialize (Hm c H).
  destruct (m c) as [[a | e] c1]; cbn [snd] in *.
  - exact (Hk a c1 Hm).
  - exact (Himp _ Hm).
Qed.

Lemma vhoare_bind_quiet {A B} (P Q : View -> Prop) (m : M A) (k : A -> M B) :
  quiet m -> (forall v, P v -> Q v) -> (forall a, vhoare P (k a) Q) ->
  vhoare P (bind m k) Q.
Proof.
  intros Hq Himp Hk. apply (vhoare_bind P P Q); [|exact Himp|exact Hk].
  apply vhoare_quiet, Hq.
Qed.

(** Reading [self] tells the fields the view shows. *)
Lemma vhoare_get_self {B} (P Q : View -> Prop) (k : CelestialBody -> M B) :
  (forall b,
     vhoare (fun v => P v /\ v_phase v = phase b /\
                      v_events v = _update_events_listener b /\
                      v_position v = _update_body_position_listener b)
            (k b) Q) ->
  vhoare P (bind get_self k) Q.
Proof.
  intros Hk c H. unfold bind, get_self.
  apply (Hk (self c) c). repeat split; try reflexivity. exact H.
Qed.

Lemma vhoare_weaken {A} (P P' Q : View -> Prop) (m : M A) :
  (forall v, P v -> P' v) -> vhoare P' m Q -> vhoare P m Q.
Proof. intros Himp H c Hc. apply H, Himp, Hc. Qed.

Lemma view_unsub h c : view (snd (unsub h c)) = view_cancel h (view c).
Proof.
  unfold unsub, view, view_cancel. mstep. rewrite replay_snoc. reflexivity.
Qed.

Lemma view_arm_listener k p c :
  view (snd (bind (async_track_point_in_utc_time k p)
               (fun h => modify_self (set_listener k (Some h))) c)) =
  view_arm k p (view c).
Proof.
  unfold view, view_arm, view_track. mstep. rewrite replay_snoc.
  destruct k; reflexivity.
Qed.

Lemma view_clear_listener c :
  view (snd (modify_self (set_listener Run_update_body_position None) c)) =
  view_clear_position (view c).
Proof. reflexivity. Qed.

Lemma view_set_phase ph c :
  view (snd (modify_self (set_phase ph) c)) = view_phase ph (view c).
Proof. reflexivity. Qed.

Ltac quiet_auto :=
  repeat first
    [ apply quiet_utcnow | apply quiet_async_dispatcher_send
    | apply quiet_async_write_ha_state | apply quiet_bodies_dict_item
    | apply quiet_get_astral_location | apply quiet_get_astral_position
    | apply quiet_get_astral_event_next | apply quiet_check_event
    | quiet_step ].

(** Walk over the commands that leave the view alone; [imp] shows that
    an early exit is fine. *)
Ltac vh_prefix imp :=
  repeat (apply vhoare_bind_quiet; [ solve [quiet_auto] | exact imp | intros ? ]).

Lemma vhoare_call_listener_position O i fe ph o :
  vhoare (fun v => sched O i fe false ph v /\ v_position v = o)
         (call_listener o) (sched O i fe true ph).
Proof.
  intros c [Hs Hl]. unfold call_listener. destruct o as [h|].
  - rewrite view_unsub. exact (sched_cancel_position O i fe ph (Some h) _ Hs Hl).
  - exact (sched_cancel_position O i fe ph None _ Hs Hl).
Qed.

Lemma vhoare_call_listener_events O i fp ph o :
  vhoare (fun v => sched O i false fp ph v /\ v_events v = o)
         (call_listener o) (sched O i true fp ph).
Proof.
  intros c [Hs Hl]. unfold call_listener. destruct o as [h|].
  - rewrite view_unsub. exact (sched_cancel_events O i fp ph (Some h) _ Hs Hl).
  - exact (sched_cancel_events O i fp ph None _ Hs Hl).
Qed.

Lemma vhoare_call_listener_any O i fe fp ph o :
  vhoare (sched O i fe fp ph) (call_listener o) (sched O i fe fp ph).
Proof.
  intros c Hs. unfold call_listener. destruct o as [h|].
  - rewrite view_unsub. apply sched_cancel, Hs.
  - exact Hs.
Qed.

(** A position recomputation that starts without a pending position
    timer ends with at most the one it armed. *)
Lemma vhoare_update_body_position sky O i fe ph :
  vhoare (sched O i fe true ph) (update_body_position sky) (sched O i fe false ph).
Proof.
  unfold update_body_position.
  vh_prefix (sched_relax_position O i fe true ph).
  match goal with |- vhoare _ (if ?b then _ else _) _ => destruct b end.
  - intros c Hs. rewrite view_clear_listener. apply sched_clear_position, Hs.
  - intros c Hs. rewrite view_arm_listener. apply sched_arm_position, Hs.
Qed.

Ltac vh_quiet imp :=
  apply vhoare_bind_quiet; [ solve [quiet_auto] | exact imp | intros ? ].

(** An event recomputation that starts without a pending event timer
    ends with the one it armed, and with at most one position timer. *)
Lemma vhoare_update_events sky O i ph :
  vhoare (sched O i true false ph) (update_events sky) (sched O i false false ph).
Proof.
  unfold update_events.
  do 6 vh_quiet (sched_relax O i true false ph).
  apply vhoare_get_self; intros b.
  apply (vhoare_bind _ (sched O i true false ph)).
  { destruct (phase b) eqn:Hb.
    - intros c (Hs & _). exact Hs.
    - apply (vhoare_weaken _ (fun v => sched O i true false ph v /\ v_phase v = None)).
      { intros v (Hs & Hp & _). split; [exact Hs | congruence]. }
      do 3 (apply vhoare_bind_quiet;
            [ solve [quiet_auto] | intros v [Hs _]; exact Hs | intros ? ]).
      intros c [Hs Hp]. rewrite view_set_phase. apply sched_phase; assumption. }
  { apply sched_relax. }
  intros _. apply vhoare_get_self; intros b'.
  apply (vhoare_bind _ (sched O i true true ph)).
  { apply (vhoare_weaken _
             (fun v => sched O i true false ph v /\
                       v_position v = _update_body_position_listener b')).
    - intros v (Hs & _ & _ & Hp). split; assumption.
    - apply vhoare_call_listener_position. }
  { apply sched_relax. }
  intros _.
  apply (vhoare_bind _ (sched O i true false ph));
    [ apply vhoare_update_body_position | apply sched_relax | intros _ ].
  do 3 vh_quiet (sched_relax O i true false ph).
  intros c Hs. rewrite view_arm_listener. apply sched_arm_events, Hs.
Qed.

(** A change of location keeps the invariant: the pending event timer is
    cancelled before the events are recomputed. *)
Lemma vhoare_update_location sky O i ph initial :
  vhoare (sched O i false false ph) (update_location sky initial)
         (sched O i false false ph).
Proof.
  unfold update_location.
  vh_quiet (fun v (H : sched O i false false ph v) => H).
  apply vhoare_get_self; intros b.
  match goal with |- vhoare _ (if ?x then _ else _) _ => destruct x end.
  { intros c (Hs & _). exact Hs. }
  apply (vhoare_weaken _ (sched O i false false ph)); [intros v (Hs & _); exact Hs|].
  vh_quiet (fun v (H : sched O i false false ph v) => H).
  apply vhoare_get_self; intros b'.
  apply (vhoare_bind _ (sched O i true false ph)).
  { apply (vhoare_weaken _
             (fun v => sched O i false false ph v /\
                       v_events v = _update_events_listener b')).
    - intros v (Hs & _ & He & _). split; assumption.
    - apply vhoare_call_listener_events. }
  { apply sched_relax. }
  intros _. apply vhoare_update_events.
Qed.

Lemma quiet_remove_bus_listener l :
  quiet (modify_hass (fun hs =>
           set_bus_listeners
             (filter (fun i => negb (Nat.eqb i l)) (bus_listeners hs)) hs)).
Proof. intros c. reflexivity. Qed.

Lemma vhoare_remove_listeners O i ph :
  vhoare (sched O i false false ph) remove_listeners (sched O i false false ph).
Proof.
  unfold remove_listeners.
  apply vhoare_get_self; intros b.
  apply (vhoare_weaken _ (sched O i false false ph)); [intros v (Hs & _); exact Hs|].
  apply (vhoare_bind _ (sched O i false false ph)).
  { destruct (_config_listener b).
    - apply vhoare_quiet, quiet_remove_bus_listener.
    - apply vhoare_quiet, quiet_ret. }
  { auto. }
  intros _.
  apply (vhoare_bind _ (sched O i false false ph));
    [ apply vhoare_call_listener_any | auto | intros _ ].
  apply vhoare_call_listener_any.
Qed.

(** ** The invariant of a session *)

Lemma nth_error_list_set_eq {A} (l : list A) i x y :
  nth_error l i = Some y -> nth_error (list_set i x l) i = Some x.
Proof.
  revert i. induction l as [|a l IH]; intros [|i]; cbn; intros H;
    try discriminate; auto.
Qed.

Lemma nth_error_list_set_neq {A} (l : list A) i j x :
  j <> i -> nth_error (list_set i x l) j = nth_error l j.
Proof.
  revert i j. induction l as [|a l IH]; intros [|i] [|j] H; cbn;
    try reflexivity; try congruence.
  apply IH. congruence.
Qed.

Lemma phases_kept_refl s : phases_kept s s.
Proof. intros j b p Hb Hp. eauto. Qed.

Lemma phases_kept_trans s1 s2 s3 :
  phases_kept s1 s2 -> phases_kept s2 s3 -> phases_kept s1 s3.
Proof.
  intros H12 H23 j b p Hb Hp.
  destruct (H12 j b p Hb Hp) as (b' & Hb' & Hp'). eauto.
Qed.

(** The invariant of the session, seen from entity [i]. *)
Lemma session_sched s i b (fe fp : bool) :
  session_invariant s ->
  nth_error (bodies s) i = Some b ->
  (fe = true -> no_pending i Run_update_events s) ->
  (fp = true -> no_pending i Run_update_body_position s) ->
  sched (held_by (bodies s)) i fe fp (phase b)
    (view {| hass := sys_hass s; self_id := i; self := b |}).
Proof.
  intros (Hr & Hnd & Hlt & Hheld) Hb He Hp.
  assert (Hown : forall k, owns k (view {| hass := sys_hass s; self_id := i; self := b |})).
  { intros k t Hin Ho Ha. cbn in Hin, Ho.
    destruct (Hheld t Hin) as (b' & Hb' & Hl).
    rewrite Ho, Hb in Hb'. injection Hb' as <-. rewrite Ha in Hl.
    destruct k; exact Hl. }
  split_sched.
  - split; [exact Hr|]. split; [exact Hnd|]. split; [exact Hlt|].
    intros t Hin _. exact (Hheld t Hin).
  - destruct fe; [|apply Hown]. intros t Hin Ho. exact (He eq_refl t Hin Ho).
  - destruct fp; [|apply Hown]. intros t Hin Ho. exact (Hp eq_refl t Hin Ho).
  - split; [reflexivity|]. cbn. destruct (phase b); [reflexivity | exact I].
Qed.

(** And back, once the method of entity [i] has run. *)
Lemma sched_session s i b ph c' :
  nth_error (bodies s) i = Some b ->
  sched (held_by (bodies s)) i false false ph (view c') ->
  session_invariant
    {| sys_hass := hass c'; bodies := list_set i (self c') (bodies s) |}.
Proof.
  intros Hb ((Hr & Hnd & Hlt & Hothers) & He & Hp & (Hid & _)).
  cbn in Hid. split; [exact Hr|]. split; [exact Hnd|]. split; [exact Hlt|].
  intros t Hin. cbn [sys_hass bodies] in *.
  destruct (Nat.eq_dec (t_owner t) i) as [Ho | Ho].
  - exists (self c'). split.
    + rewrite Ho. exact (nth_error_list_set_eq _ _ _ _ Hb).
    + destruct (t_action t) eqn:Ha.
      * apply (He t Hin); [cbn; congruence | exact Ha].
      * apply (Hp t Hin); [cbn; congruence | exact Ha].
  - destruct (Hothers t Hin) as (b' & Hb' & Hl); [cbn; congruence|].
    exists b'. split; [|exact Hl].
    rewrite nth_error_list_set_neq by exact Ho. exact Hb'.
Qed.

Lemma run_on_invariant i (m : M unit) s (fe fp : bool) :
  session_invariant s ->
  (fe = true -> no_pending i Run_update_events s) ->
  (fp = true -> no_pending i Run_update_body_position s) ->
  (forall O ph, vhoare (sched O i fe fp ph) m (sched O i false false ph)) ->
  session_invariant (run_on i m s) /\ phases_kept s (run_on i m s).
Proof.
  intros Hinv He Hp Hm. unfold run_on.
  destruct (nth_error (bodies s) i) as [b|] eqn:Hb;
    [|split; [exact Hinv | apply phases_kept_refl]].
  pose proof (Hm _ _ _ (session_sched s i b fe fp Hinv Hb He Hp)) as Hs.
  cbv zeta. split.
  - exact (sched_session s i b _ _ Hb Hs).
  - intros j b0 p Hb0 Hp0. cbn [bodies].
    destruct (Nat.eq_dec j i) as [-> | Hne].
    + eexists. split; [exact (nth_error_list_set_eq _ _ _ _ Hb)|].
      rewrite Hb in Hb0. injection Hb0 as ->.
      destruct Hs as (_ & _ & _ & (_ & Hk)). rewrite Hp0 in Hk. exact Hk.
    + exists b0. split; [|exact Hp0].
      rewrite nth_error_list_set_neq by exact Hne. exact Hb0.
Qed.

Lemma initial_invariant cfg : session_invariant (initial_system cfg).
Proof.
  split; [reflexivity|]. split; [constructor|]. split; intros t [].
Qed.

Lemma new_body_invariant obj s :
  session_invariant s ->
  session_invariant (CelestialBody_init obj s) /\
  phases_kept s (CelestialBody_init obj s).
Proof.
  intros (Hr & Hnd & Hlt & Hheld). split.
  - split; [exact Hr|]. split; [exact Hnd|]. split; [exact Hlt|].
    intros t Hin. destruct (Hheld t Hin) as (b & Hb & Hl).
    exists b. split; [|exact Hl]. cbn.
    rewrite nth_error_app1; [exact Hb|].
    apply nth_error_Some. congruence.
  - intros j b p Hb Hp. exists b. split; [|exact Hp]. cbn.
    rewrite nth_error_app1; [exact Hb|].
    apply nth_error_Some. congruence.
Qed.

Lemma find_timer_some h ts t :
  find_timer h ts = Some t -> In t ts /\ t_handle t = h.
Proof.
  unfold find_timer. intros H. apply find_some in H as [Hin Heq].
  apply Nat.eqb_eq in Heq. auto.
Qed.

Lemma fire_invariant sky t s :
  session_invariant s -> In t (timers (sys_hass s)) ->
  session_invariant (fire sky t s) /\ phases_kept s (fire sky t s).
Proof.
  intros (Hr & Hnd & Hlt & Hheld) Hin. unfold fire.
  set (s1 := {| sys_hass := _; bodies := bodies s |}).
  assert (Hinv1 : session_invariant s1).
  { split; [|split; [|split]]; subst s1;
      cbn [sys_hass bodies timers log next_handle add_log set_timers].
    - rewrite replay_snoc, Hr. reflexivity.
    - apply NoDup_remove_timer, Hnd.
    - intros t' Hin'. apply In_remove_timer in Hin' as [Hin' _]. auto.
    - intros t' Hin'. apply In_remove_timer in Hin' as [Hin' _]. auto. }
  assert (Hidle : no_pending (t_owner t) (t_action t) s1).
  { intros t' Hin' Ho Ha. cbn in Hin'.
    apply In_remove_timer in Hin' as [Hin' Hne]. apply Hne.
    destruct (Hheld t Hin) as (b & Hb & Hl).
    destruct (Hheld t' Hin') as (b' & Hb' & Hl').
    rewrite Ho, Hb in Hb'. injection Hb' as <-.
    rewrite Ha, Hl in Hl'. congruence. }
  assert (Hk : phases_kept s s1) by (intros j b p Hb Hp; eauto).
  destruct (t_action t) eqn:Ha.
  - destruct (run_on_invariant (t_owner t) (update_events sky) s1 true false Hinv1)
      as [H1 H2]; [intros _; exact Hidle | discriminate | |].
    + intros O ph. apply vhoare_update_events.
    + split; [exact H1 | exact (phases_kept_trans _ _ _ Hk H2)].
  - destruct (run_on_invariant (t_owner t) (update_body_position sky) s1 false true Hinv1)
      as [H1 H2]; [discriminate | intros _; exact Hidle | |].
    + intros O ph. apply vhoare_update_body_position.
    + split; [exact H1 | exact (phases_kept_trans _ _ _ Hk H2)].
Qed.

Lemma config_update_invariant sky (l : list nat) s :
  session_invariant s ->
  session_invariant
    (fold_left (fun s i => run_on i (update_location sky false) s) l s) /\
  phases_kept s
    (fold_left (fun s i => run_on i (update_location sky false) s) l s).
Proof.
  revert s. induction l as [|i l IH]; intros s Hinv; cbn.
  - split; [exact Hinv | apply phases_kept_refl].
  - destruct (run_on_invariant i (update_location sky false) s false false Hinv)
      as [H1 H2]; try discriminate.
    { intros O ph. apply vhoare_update_location. }
    destruct (IH _ H1) as [H3 H4].
    split; [exact H3 | exact (phases_kept_trans _ _ _ H2 H4)].
Qed.

Lemma handle_invariant sky s (i : Input) :
  session_invariant s ->
  session_invariant (handle sky s i) /\ phases_kept s (handle sky s i).
Proof.
  intros Hinv. destruct i as [obj | i | cfg | h | i]; cbn [handle].
  - apply new_body_invariant, Hinv.
  - apply (run_on_invariant i _ s false false Hinv); try discriminate.
    intros O ph. apply vhoare_update_location.
  - set (s' := {| sys_hass := set_config cfg (sys_hass s); bodies := bodies s |}).
    assert (Hinv' : session_invariant s') by exact Hinv.
    destruct (config_update_invariant sky (bus_listeners (sys_hass s)) s' Hinv')
      as [H1 H2].
    split; [exact H1|]. intros j b p Hb Hp. exact (H2 j b p Hb Hp).
  - destruct (find_timer h (timers (sys_hass s))) as [t|] eqn:Hf.
    + apply find_timer_some in Hf as [Hin _]. apply fire_invariant; assumption.
    + split; [exact Hinv | apply phases_kept_refl].
  - apply (run_on_invariant i _ s false false Hinv); try discriminate.
    intros O ph. apply vhoare_remove_listeners.
Qed.

Lemma fold_handle_invariant sky inputs s :
  session_invariant s ->
  session_invariant (fold_left (handle sky) inputs s) /\
  phases_kept s (fold_left (handle sky) inputs s).
Proof.
  revert s. induction inputs as [|i inputs IH]; intros s Hinv; cbn.
  - split; [exact Hinv | apply phases_kept_refl].
  - destruct (handle_invariant sky s i Hinv) as [H1 H2].
    destruct (IH _ H1) as [H3 H4].
    split; [exact H3 | exact (phases_kept_trans _ _ _ H2 H4)].
Qed.

Lemma same_handles_short (l : list Timer) :
  NoDup (map t_handle l) ->
  (forall t t', In t l -> In t' l -> t_handle t = t_handle t') ->
  (length l <= 1)%nat.
Proof.
  destruct l as [|t [|t' l]]; cbn; intros Hnd Hsame; try lia.
  exfalso. inversion Hnd as [|? ? Hnotin _]; subst. apply Hnotin.
  left. apply Hsame; auto.
Qed.

Lemma NoDup_pending i k ts :
  NoDup (map t_handle ts) -> NoDup (map t_handle (pending i k ts)).
Proof.
  unfold pending. induction ts as [|t ts IH]; cbn; intros H; [constructor|].
  inversion H as [|? ? Hnotin Hnd]; subst.
  destruct (_ && _); [|auto]. cbn. constructor; [|auto].
  intros Hin. apply Hnotin. apply in_map_iff in Hin as (t' & Ht' & Hin).
  apply filter_In in Hin as [Hin _]. apply in_map_iff. eauto.
Qed.

(** C6 fails as stated: a re-arm does not cancel the previous handle of
    its kind. After the set-up Venus holds the position timer 0 and the
    event timer 1. When the event timer fires, the recomputation cancels
    the position handle 0, but arms the event timer 3 without cancelling
    the event handle 1; when the position timer fires, the recomputation
    arms the position timer 2 without cancelling anything; and an event
    recomputation run twice in a row leaves two event timers pending. *)
Lemma rearm_does_not_cancel :
  let s := run_session sky_venus cfg_origin inputs_venus in
  let position := timer_of_venus O Run_update_body_position
                    (T0 + timedelta_minutes 4) in
  let events := timer_of_venus 1 Run_update_events (T0 + timedelta_hours 3) in
  scheduling (log (sys_hass s)) = [LogTrack position; LogTrack events] /\
  scheduling (log (sys_hass (handle sky_venus s (In_timer 1)))) =
    [LogTrack position; LogTrack events;
     LogFired events; LogCancel 0;
     LogTrack (timer_of_venus 2 Run_update_body_position
                 (T0 + timedelta_minutes 4));
     LogTrack (timer_of_venus 3 Run_update_events (T0 + timedelta_hours 3))] /\
  scheduling (log (sys_hass (handle sky_venus s (In_timer 0)))) =
    [LogTrack position; LogTrack events;
     LogFired position;
     LogTrack (timer_of_venus 2 Run_update_body_position
                 (T0 + timedelta_minutes 4))] /\
  pending 0 Run_update_events
    (timers (hass (snd (update_events sky_venus
                          (snd (update_events sky_venus ctx_venus)))))) =
    [timer_of_venus 1 Run_update_events (T0 + timedelta_hours 3);
     timer_of_venus 3 Run_update_events (T0 + timedelta_hours 3)].
Proof.
  vm_compute. repeat split.
Qed.

(** C6, amended. In every state a session can reach, each entity has at
    most one pending event-recomputation timer and at most one pending
    position-recomputation timer, and the log replays: whenever a timer
    was armed, the entity had no pending timer of that kind any more,
    its previous handle having been cancelled or having fired. *)
Theorem one_timer_of_each_kind sky cfg (inputs : list Input) :
  let s := run_session sky cfg inputs in
  replay (log (sys_hass s)) = Some (timers (sys_hass s)) /\
  forall i k, (length (pending i k (timers (sys_hass s))) <= 1)%nat.
Proof.
  cbv zeta. unfold run_session.
  destruct (fold_handle_invariant sky inputs _ (initial_invariant cfg))
    as [(Hr & Hnd & _ & Hheld) _].
  split; [exact Hr|]. intros i k.
  apply same_handles_short; [apply NoDup_pending, Hnd|].
  intros t t' Hin Hin'. unfold pending in Hin, Hin'.
  apply filter_In in Hin as [Hin Hs]. apply filter_In in Hin' as [Hin' Hs'].
  apply andb_true_iff in Hs as [Ho Ha]. apply andb_true_iff in Hs' as [Ho' Ha'].
  apply Nat.eqb_eq in Ho, Ho'. apply Action_eqb_eq in Ha, Ha'.
  destruct (Hheld t Hin) as (b & Hb & Hl).
  destruct (Hheld t' Hin') as (b' & Hb' & Hl').
  rewrite Ho in Hb. rewrite Ho', Hb in Hb'. injection Hb' as <-.
  rewrite Ha in Hl. rewrite Ha', Hl in Hl'. congruence.
Qed.

(** ** The order of the notifications *)

(** C7. An event recomputation first runs the chained position update,
    which stores the state and publishes [position_changed], then
    publishes [events_changed], and only then arms its own next timer at
    [_next_change]; what a subscriber reads at [events_changed] are the
    events and the position computed in this very run. *)
Theorem events_changed_after_position sky c loc elev target :
  located (self c) loc elev target ->
  exists c' pre st seen mid h nc,
    update_events sky c = (Ok tt, c') /\
    log (hass c') =
      log (hass c) ++ pre
      ++ [LogWriteState (self_id c) st seen;
          LogDispatch SIGNAL_POSITION_CHANGED (self_id c) seen]
      ++ mid
      ++ [LogDispatch SIGNAL_EVENTS_CHANGED (self_id c) seen;
          LogTrack {| t_handle := h; t_owner := self_id c;
                      t_action := Run_update_events; t_point := nc |}] /\
    (pre = [] \/ exists h', pre = [LogCancel h']) /\
    (mid = [] \/ exists t, mid = [LogTrack t] /\
                           t_action t = Run_update_body_position) /\
    seen = observe (self c') /\
    _next_change (self c') = Some nc /\
    _update_events_listener (self c') = Some h.
Proof.
  intros Hl.
  destruct (update_events_run sky c loc elev target Hl)
    as (c' & Hrun & _ & _ & _ & _ & Hr & Hs & Hnc & _ & Hse & Hsa & Hev & _ & _ & _
        & Hlog & _).
  exists c'. do 6 eexists.
  split; [exact Hrun|]. split; [exact Hlog|].
  split; [destruct (_update_body_position_listener (self c)); eauto|].
  split.
  { match goal with |- (if ?b then _ else _) = _ \/ _ => destruct b end;
      [left; reflexivity | right; eexists; split; reflexivity]. }
  split; [unfold observe; rewrite Hr, Hs, Hse, Hsa; reflexivity|].
  split; [exact Hnc | exact Hev].
Qed.

Lemma events_changed_after_position_witness :
  exists c' pre st seen mid h nc,
    update_events sky_venus ctx_venus = (Ok tt, c') /\
    log (hass c') =
      log (hass ctx_venus) ++ pre
      ++ [LogWriteState (self_id ctx_venus) st seen;
          LogDispatch SIGNAL_POSITION_CHANGED (self_id ctx_venus) seen]
      ++ mid
      ++ [LogDispatch SIGNAL_EVENTS_CHANGED (self_id ctx_venus) seen;
          LogTrack {| t_handle := h; t_owner := self_id ctx_venus;
                      t_action := Run_update_events; t_point := nc |}] /\
    (pre = [] \/ exists h', pre = [LogCancel h']) /\
    (mid = [] \/ exists t, mid = [LogTrack t] /\
                           t_action t = Run_update_body_position) /\
    seen = observe (self c') /\
    _next_change (self c') = Some nc /\
    _update_events_listener (self c') = Some h.
Proof.
  exact (events_changed_after_position sky_venus ctx_venus loc_origin 0
           "Venus BARYCENTER" ctx_venus_located).
Defined.

(** ** The instant of the position *)

Lemma py_round_nearest (x : Q) :
  (py_round x - (1 # 2) <= x /\ x <= py_round x + (1 # 2))%Q.
Proof.
  unfold py_round, round_half_even.
  pose proof (Qfloor_le x) as Hlo. pose proof (Qlt_floor x) as Hhi.
  rewrite inject_Z_plus in Hhi. change (inject_Z 1) with (1 # 1)%Q in Hhi.
  destruct (Qcompare_spec (x - inject_Z (Qfloor x)) (1 # 2)) as [He | Hlt | Hgt].
  - destruct (Z.even (Qfloor x));
      [|rewrite inject_Z_plus; change (inject_Z 1) with (1 # 1)%Q]; split; lra.
  - split; lra.
  - rewrite inject_Z_plus. change (inject_Z 1) with (1 # 1)%Q. split; lra.
Qed.

(** C9 (the code departs from it). A position recomputation rounds the
    apparent altitude and azimuth to whole degrees and stores them, but
    it evaluates them at a later reading of the clock, not at the instant
    handed to [get_astral_position]: here the altitude at the instant
    passed rounds to 0 degrees and the stored elevation is 1 degree. *)
Theorem position_not_taken_at_the_instant_passed :
  let utc_point_in_time := clock sky_running (ticks (hass ctx_venus_by_day)) in
  let c' := snd (update_body_position sky_running ctx_venus_by_day) in
  fst (update_body_position sky_running ctx_venus_by_day) = Ok tt /\
  py_round (fst (altaz sky_running (0 # 1) (0 # 1) 0 "Venus BARYCENTER"
                   utc_point_in_time)) = inject_Z 0 /\
  solar_elevation (self c') = Some (inject_Z 1) /\
  (forall utc c,
     get_astral_position sky_running (Some loc_origin) (Some 0) "venus" utc c =
     get_astral_position sky_running (Some loc_origin) (Some 0) "venus"
       (utc + timedelta_days 1) c).
Proof.
  cbv zeta. split; [vm_compute; reflexivity|].
  split; [vm_compute; reflexivity|].
  split; [vm_compute; reflexivity|].
  intros utc c. reflexivity.
Qed.

Lemma update_body_position_stores_rounded sky c loc elev target p nc r s :
  located (self c) loc elev target ->
  phase (self c) = Some p ->
  _next_change (self c) = Some nc ->
  next_rising (self c) = Some r ->
  next_setting (self c) = Some s ->
  let apparent :=
    altaz sky (latitude loc) (longitude loc) elev target
      (clock sky (S (ticks (hass c)))) in
  exists c',
    update_body_position sky c = (Ok tt, c') /\
    solar_elevation (self c') = Some (py_round (fst apparent)) /\
    solar_azimuth (self c') = Some (py_round (snd apparent)).
Proof.
  intros Hl Hp Hnc Hr Hs apparent. eexists. split.
  { exact (update_body_position_run sky c loc elev target p nc r s Hl Hp Hnc Hr Hs). }
  cbv zeta. destruct (_ >? _); split; reflexivity.
Qed.

(** ** The phase is classified once *)

(** C5 fails as stated: after a change of location has forced an event
    recomputation, the phase is still the one classified at the old
    location, not the one of the elevation predicted at the new
    [_next_change]. *)
Lemma location_change_does_not_reclassify :
  exists b loc elev nc,
    nth_error (bodies session_moved) 0 = Some b /\
    location b = Some loc /\ latitude loc = 60 # 1 /\
    elevation b = Some elev /\ _next_change b = Some nc /\
    phase b = Some PHASE_DAY /\
    classify_phase (astral_solar_elevation sky_venus loc nc elev) = PHASE_NIGHT.
Proof.
  vm_compute. do 4 eexists. repeat split.
Qed.

(** C5, amended. An event recomputation that finds the phase unset
    classifies it from the elevation predicted at the new [_next_change];
    one that finds it set leaves it; and nothing in a session unsets or
    changes a phase once it is set, a change of location included. *)
Theorem phase_classified_once sky :
  (forall c loc elev target,
     located (self c) loc elev target ->
     exists c' nc,
       update_events sky c = (Ok tt, c') /\
       _next_change (self c') = Some nc /\
       phase (self c') =
         Some (match phase (self c) with
               | Some p => p
               | None => classify_phase (astral_solar_elevation sky loc nc elev)
               end)) /\
  (forall cfg inputs more i b p,
     nth_error (bodies (run_session sky cfg inputs)) i = Some b ->
     phase b = Some p ->
     exists b',
       nth_error (bodies (run_session sky cfg (inputs ++ more))) i = Some b' /\
       phase b' = Some p).
Proof.
  split.
  - intros c loc elev target Hl.
    destruct (update_events_run sky c loc elev target Hl)
      as (c' & Hrun & _ & _ & _ & _ & _ & _ & Hnc & Hp & _).
    exists c'. eexists. split; [exact Hrun|]. split; [exact Hnc | exact Hp].
  - intros cfg inputs more i b p Hb Hp. unfold run_session in *.
    rewrite fold_left_app.
    destruct (fold_handle_invariant sky inputs _ (initial_invariant cfg)) as [Hinv _].
    destruct (fold_handle_invariant sky more _ Hinv) as [_ Hkept].
    exact (Hkept i b p Hb Hp).
Qed.

Lemma phase_classified_once_witness :
  (exists c' nc,
     update_events sky_venus ctx_venus = (Ok tt, c') /\
     _next_change (self c') = Some nc /\
     phase (self c') =
       Some (classify_phase (astral_solar_elevation sky_venus loc_origin nc 0))) /\
  (exists b',
     nth_error (bodies session_moved) 0 = Some b' /\ phase b' = Some PHASE_DAY).
Proof.
  destruct (phase_classified_once sky_venus) as [H1 H2]. split.
  - exact (H1 ctx_venus loc_origin 0 "Venus BARYCENTER" ctx_venus_located).
  - apply (H2 cfg_origin [In_new_body "venus"; In_update_location_initial O]
              [In_config_update cfg_north] O
              {| object := "venus"; phase := Some PHASE_DAY;
                 location := Some loc_origin; elevation := Some 0;
                 next_rising := Some (T0 + timedelta_hours 3);
                 next_setting := Some (T0 + timedelta_hours 15);
                 solar_elevation := Some (inject_Z 12);
                 solar_azimuth := Some (inject_Z 200);
                 _next_change := Some (T0 + timedelta_hours 3);
                 _config_listener := Some O;
                 _update_events_listener := Some 1%nat;
                 _update_body_position_listener := Some O |} PHASE_DAY).
    + vm_compute. reflexivity.
    + reflexivity.
Defined.

(** * Further properties of the code *)

(** ** The location cache, [skyfield_helper.py] lines 27-49 *)

Lemma Location_eqb_refl (l : Location) : Location_eqb l l = true.
Proof.
  unfold Location_eqb. rewrite !String.eqb_refl.
  rewrite !(proj2 (Qeq_bool_iff _ _) (Qeq_refl _)). reflexivity.
Qed.

Lemma Location_eqb_spec (a b : Location) :
  Location_eqb a b = true <->
  loc_name a = loc_name b /\ loc_region a = loc_region b /\
  loc_timezone a = loc_timezone b /\
  (latitude a == latitude b)%Q /\ (longitude a == longitude b)%Q.
Proof.
  unfold Location_eqb. rewrite !andb_true_iff, !String.eqb_eq, !Qeq_bool_iff.
  tauto.
Qed.

Lemma Location_eqb_sym (a b : Location) :
  Location_eqb a b = true -> Location_eqb b a = true.
Proof.
  rewrite !Location_eqb_spec. intros (H1 & H2 & H3 & H4 & H5).
  repeat split; try congruence; symmetry; assumption.
Qed.

Lemma Location_eqb_trans (a b c : Location) :
  Location_eqb a b = true -> Location_eqb b c = true -> Location_eqb a c = true.
Proof.
  rewrite !Location_eqb_spec.
  intros (H1 & H2 & H3 & H4 & H5) (G1 & G2 & G3 & G4 & G5).
  repeat split; try congruence.
  - rewrite H4. exact G4.
  - rewrite H5. exact G5.
Qed.

Lemma find_existsb_true {A} (f : A -> bool) (l : list A) :
  existsb f l = true -> exists x, find f l = Some x /\ In x l /\ f x = true.
Proof.
  induction l as [|a l IH]; cbn; [discriminate|].
  destruct (f a) eqn:E; cbn.
  - intros _. exists a. auto.
  - intros H. destruct (IH H) as (x & Hf & Hin & Hx). exists x. auto.
Qed.

Lemma existsb_false_forall {A} (f : A -> bool) (l : list A) :
  existsb f l = false -> forall x, In x l -> f x = false.
Proof.
  intros H x Hin. destruct (f x) eqn:E; [|reflexivity].
  assert (existsb f l = true) by (apply existsb_exists; eauto). congruence.
Qed.

(** What [get_astral_location] returns and what it does to the cache. *)
Lemma get_astral_location_run (c : Ctx) :
  let info := location_info (config (hass c)) in
  exists l cache',
    get_astral_location c =
      (Ok (l, cfg_elevation (config (hass c))),
       {| hass := set_location_cache cache' (hass c);
          self_id := self_id c; self := self c |}) /\
    find (Location_eqb info) cache' = Some l /\
    Location_eqb info l = true /\
    ((existsb (Location_eqb info) (location_cache (hass c)) = true /\
      cache' = location_cache (hass c)) \/
     (existsb (Location_eqb info) (location_cache (hass c)) = false /\
      cache' = info :: location_cache (hass c) /\ l = info)).
Proof.
  cbv zeta. unfold get_astral_location, location_info. mstep.
  destruct (existsb _ (location_cache (hass c))) eqn:E; mstep.
  - destruct (find_existsb_true _ _ E) as (l & Hf & Hin & Hl).
    rewrite Hf. exists l, (location_cache (hass c)). mstep.
    split; [|split; [exact Hf | split; [exact Hl | left; auto]]].
    f_equal. destruct c as [[] ? ?]; reflexivity.
  - cbn [find]. rewrite Location_eqb_refl. mstep.
    eexists. exists (location_info (config (hass c)) :: location_cache (hass c)).
    split; [reflexivity|].
    split; [unfold location_info; cbn [find]; rewrite Location_eqb_refl; reflexivity|].
    split; [apply Location_eqb_refl|]. right. auto.
Qed.

(** X1. [get_astral_location] never fails: it returns the elevation of
    the configuration and a location that stands for the configured
    place, found in the cache afterwards; it touches nothing but the
    cache, which stays free of duplicates, and a second call returns the
    same location and leaves the cache as it is. *)
Theorem get_astral_location_cached (c : Ctx) :
  distinct_locations (location_cache (hass c)) ->
  exists l c',
    get_astral_location c = (Ok (l, cfg_elevation (config (hass c))), c') /\
    Location_eqb (location_info (config (hass c))) l = true /\
    In l (location_cache (hass c')) /\
    distinct_locations (location_cache (hass c')) /\
    self c' = self c /\ timers (hass c') = timers (hass c) /\
    log (hass c') = log (hass c) /\ ticks (hass c') = ticks (hass c) /\
    config (hass c') = config (hass c) /\
    get_astral_location c' = (Ok (l, cfg_elevation (config (hass c))), c').
Proof.
  intros Hd.
  destruct (get_astral_location_run c) as (l & cache' & Hrun & Hf & Hl & Hcase).
  eexists l, _. split; [exact Hrun|]. cbn [hass self set_location_cache
    location_cache timers log ticks config].
  split; [exact Hl|].
  split; [exact (proj1 (find_some _ _ Hf))|].
  split.
  { destruct Hcase as [[_ ->] | (E & -> & _)]; [exact Hd|].
    split; [|exact Hd]. exact (existsb_false_forall _ _ E). }
  do 5 (split; [reflexivity|]).
  match goal with |- get_astral_location ?c1 = _ => set (c' := c1) end.
  destruct (get_astral_location_run c') as (l2 & cache2 & Hrun2 & Hf2 & _ & Hcase2).
  subst c'. cbn [hass config set_location_cache location_cache] in *.
  assert (E : existsb (Location_eqb (location_info (config (hass c)))) cache' = true).
  { apply existsb_exists. exists l. split; [exact (proj1 (find_some _ _ Hf)) | exact Hl]. }
  destruct Hcase2 as [[_ ->] | (E2 & _)]; [|congruence].
  rewrite Hrun2. rewrite Hf in Hf2. injection Hf2 as <-.
  f_equal. 
Qed.

Lemma get_astral_location_cached_witness :
  exists l c',
    get_astral_location ctx_venus =
      (Ok (l, cfg_elevation (config (hass ctx_venus))), c') /\
    Location_eqb (location_info (config (hass ctx_venus))) l = true /\
    In l (location_cache (hass c')) /\
    distinct_locations (location_cache (hass c')) /\
    self c' = self ctx_venus /\ timers (hass c') = timers (hass ctx_venus) /\
    log (hass c') = log (hass ctx_venus) /\
    ticks (hass c') = ticks (hass ctx_venus) /\
    config (hass c') = config (hass ctx_venus) /\
    get_astral_location c' =
      (Ok (l, cfg_elevation (config (hass ctx_venus))), c').
Proof. exact (get_astral_location_cached ctx_venus I). Defined.

(** ** Changes of location, [entity.py] lines 127-137 *)

(** X2. A configuration update that leaves latitude, longitude and time
    zone where the entity has them does nothing to the entity: no event
    is recomputed, no timer is touched, nothing is published and the
    clock is not read.  The elevation of the configuration is not
    compared, so a change of elevation alone is not taken over. *)
Theorem update_location_same_place sky (c : Ctx) (l : Location) :
  location (self c) = Some l ->
  Location_eqb (location_info (config (hass c))) l = true ->
  exists c',
    update_location sky false c = (Ok tt, c') /\
    self c' = self c /\
    timers (hass c') = timers (hass c) /\
    next_handle (hass c') = next_handle (hass c) /\
    log (hass c') = log (hass c) /\
    ticks (hass c') = ticks (hass c).
Proof.
  intros Hloc Heq.
  destruct (get_astral_location_run c) as (l' & cache' & Hrun & _ & Hl' & _).
  cbv zeta in Hl'.
  assert (Hsame : Location_eqb l' l = true).
  { apply (Location_eqb_trans _ (location_info (config (hass c)))); [|exact Heq].
    apply Location_eqb_sym, Hl'. }
  unfold update_location. mstep. rewrite Hrun. mstep.
  rewrite Hloc, Hsame. cbn [negb andb].
  eexists. split; [reflexivity|]. repeat split.
Qed.

Lemma update_location_same_place_witness :
  exists c',
    update_location sky_venus false ctx_venus = (Ok tt, c') /\
    self c' = self ctx_venus /\
    timers (hass c') = timers (hass ctx_venus) /\
    next_handle (hass c') = next_handle (hass ctx_venus) /\
    log (hass c') = log (hass ctx_venus) /\
    ticks (hass c') = ticks (hass ctx_venus).
Proof.
  exact (update_location_same_place sky_venus ctx_venus loc_origin
           eq_refl eq_refl).
Defined.

(** ** When an event recomputation fails *)

(** X3. An event recomputation of an entity that has no location, no
    elevation, or a body that [BODIES_DICT] does not know raises at its
    first query, in this order of precedence: [AttributeError] for the
    location, the [ValueError] of the observer's [Distance] for the
    elevation, [KeyError] for the body. By then it has read the clock
    once and put [_next_change] 400 days ahead, and that is all; no
    timer is cancelled or armed and nothing is published. *)
Theorem update_events_not_located sky (c : Ctx) :
  (forall loc elev target, ~ located (self c) loc elev target) ->
  let e := match location (self c), elevation (self c) with
           | None, _ => AttributeError
           | Some _, None =>
               ValueError "to construct a Distance provide au, km, or m"
           | Some _, Some _ => KeyError (object (self c))
           end in
  update_events sky c =
    (Raise e,
     {| hass := set_ticks (S (ticks (hass c))) (hass c);
        self_id := self_id c;
        self := set_next_change
                  (Some (clock sky (ticks (hass c)) + timedelta_days 400))
                  (self c) |}).
Proof.
  intros Hnot. cbv zeta. unfold update_events, _check_event. mstep.
  unfold get_astral_event_next. mstep.
  destruct (location (self c)) as [loc|] eqn:Hloc; mstep; [|reflexivity].
  destruct (elevation (self c)) as [elev|] eqn:Hel; mstep; [|reflexivity].
  cbn [String.eqb SUN_EVENT_SUNRISE Ascii.eqb Bool.eqb]. mstep.
  destruct (dict_get BODIES_DICT (object (self c))) as [target|] eqn:Hd; mstep;
    [|reflexivity].
  exfalso. apply (Hnot loc elev target). repeat split; assumption.
Qed.

Lemma update_events_not_located_witness :
  update_events sky_venus ctx_capitalised =
    (Raise (KeyError "Venus"),
     {| hass := set_ticks 1 (hass ctx_capitalised);
        self_id := O;
        self := set_next_change (Some (T0 + timedelta_days 400))
                  (self ctx_capitalised) |}).
Proof.
  apply (update_events_not_located sky_venus ctx_capitalised).
  intros loc elev target (_ & _ & H). vm_compute in H. discriminate.
Defined.

(** X4. [get_astral_event_next] rejects every event name other than
    sunrise and sunset with [ValueError], before it looks the body up or
    reads the clock, and leaves everything as it was. *)
Theorem get_astral_event_next_unsupported sky loc elev obj event utc (c : Ctx) :
  event <> SUN_EVENT_SUNRISE -> event <> SUN_EVENT_SUNSET ->
  get_astral_event_next sky (Some loc) (Some elev) obj event utc c =
    (Raise (ValueError "Unsupported event type"), c).
Proof.
  intros H1 H2. unfold get_astral_event_next. mstep.
  rewrite (proj2 (String.eqb_neq _ _) H1), (proj2 (String.eqb_neq _ _) H2).
  reflexivity.
Qed.

Lemma get_astral_event_next_unsupported_witness :
  get_astral_event_next sky_venus (Some loc_origin) (Some 0) "nowhere" "noon" T0
    ctx_venus =
    (Raise (ValueError "Unsupported event type"), ctx_venus).
Proof.
  apply get_astral_event_next_unsupported; discriminate.
Defined.

(** ** The event horizon without assumptions *)

Lemma timedelta_positive (p : Phase) :
  0 < _PHASE_UPDATES p /\ 0 < timedelta_mul_1_25 (_PHASE_UPDATES p).
Proof. destruct p; split; reflexivity. Qed.

(** X5. Whatever the ephemeris answers, an event recomputation of a
    located entity ends with [_next_change] the least of [next_rising],
    [next_setting] and the instant 400 days after the clock reading it
    started with, and with its own timer pending at exactly that
    instant: the next event recomputation is never more than 400 days
    away and never later than either event. *)
Theorem event_horizon_ceiling sky (c : Ctx) loc elev target :
  located (self c) loc elev target ->
  let now := clock sky (ticks (hass c)) in
  exists c' r s nc h,
    update_events sky c = (Ok tt, c') /\
    next_rising (self c') = Some r /\
    next_setting (self c') = Some s /\
    _next_change (self c') = Some nc /\
    nc = Z.min (now + timedelta_days 400) (Z.min r s) /\
    _update_events_listener (self c') = Some h /\
    In {| t_handle := h; t_owner := self_id c;
          t_action := Run_update_events; t_point := nc |}
       (timers (hass c')).
Proof.
  intros Hl now.
  destruct (update_events_run sky c loc elev target Hl)
    as (c' & Hrun & _ & _ & _ & _ & Hr & Hs & Hnc & _ & _ & _ & Hev & _ & _ & _
        & _ & Htimers).
  exists c'. do 4 eexists.
  split; [exact Hrun|]. split; [exact Hr|]. split; [exact Hs|].
  split; [exact Hnc|]. split; [fold now; lia|]. split; [exact Hev|].
  rewrite Htimers. rewrite !in_app_iff. right. right. left. reflexivity.
Qed.

Lemma event_horizon_ceiling_witness :
  exists c' r s nc h,
    update_events sky_venus ctx_venus = (Ok tt, c') /\
    next_rising (self c') = Some r /\
    next_setting (self c') = Some s /\
    _next_change (self c') = Some nc /\
    nc = Z.min (clock sky_venus (ticks (hass ctx_venus)) + timedelta_days 400)
           (Z.min r s) /\
    _update_events_listener (self c') = Some h /\
    In {| t_handle := h; t_owner := self_id ctx_venus;
          t_action := Run_update_events; t_point := nc |}
       (timers (hass c')).
Proof.
  exact (event_horizon_ceiling sky_venus ctx_venus loc_origin 0
           "Venus BARYCENTER" ctx_venus_located).
Defined.

(** X6. A position timer that a position recomputation arms is due after
    the instant of the recomputation and strictly before the event
    horizon, with a quarter of the interval to spare. *)
Theorem position_timer_before_horizon sky (c : Ctx) loc elev target p nc r s :
  located (self c) loc elev target ->
  phase (self c) = Some p ->
  _next_change (self c) = Some nc ->
  next_rising (self c) = Some r ->
  next_setting (self c) = Some s ->
  let now := clock sky (ticks (hass c)) in
  exists c',
    update_body_position sky c = (Ok tt, c') /\
    forall t, In t (timers (hass c')) -> ~ In t (timers (hass c)) ->
      t_owner t = self_id c /\ t_action t = Run_update_body_position /\
      t_point t = now + _PHASE_UPDATES p /\
      now < t_point t < nc /\
      4 * (nc - t_point t) >= _PHASE_UPDATES p.
Proof.
  intros Hl Hp Hnc Hr Hs now. eexists. split.
  { exact (update_body_position_run sky c loc elev target p nc r s Hl Hp Hnc Hr Hs). }
  cbv zeta. fold now.
  pose proof (timedelta_positive p) as [Hpos _].
  pose proof (timedelta_mul_1_25_exact p) as Hexact.
  destruct (Z.gtb_spec (now + timedelta_mul_1_25 (_PHASE_UPDATES p)) nc)
    as [Hgt | Hle]; cbn [hass timers add_log set_next_handle set_timers].
  - intros t Hin Hnot. contradiction.
  - intros t Hin Hnot. apply in_app_iff in Hin as [Hin | [<- | []]];
      [contradiction|]. cbn [t_owner t_action t_point].
    repeat split; try reflexivity; lia.
Qed.

Lemma position_timer_before_horizon_witness :
  exists c',
    update_body_position sky_venus ctx_venus_in_the_morning = (Ok tt, c') /\
    (forall t, In t (timers (hass c')) ->
       ~ In t (timers (hass ctx_venus_in_the_morning)) ->
       t_owner t = self_id ctx_venus_in_the_morning /\
       t_action t = Run_update_body_position /\
       t_point t = clock sky_venus (ticks (hass ctx_venus_in_the_morning))
                   + _PHASE_UPDATES PHASE_DAY /\
       clock sky_venus (ticks (hass ctx_venus_in_the_morning)) < t_point t
         < T0 + timedelta_hours 3 /\
       4 * (T0 + timedelta_hours 3 - t_point t) >= _PHASE_UPDATES PHASE_DAY) /\
    timers (hass ctx_venus_in_the_morning) = [] /\
    timers (hass c') =
      [timer_of_venus O Run_update_body_position (T0 + timedelta_minutes 4)].
Proof.
  destruct (position_timer_before_horizon sky_venus ctx_venus_in_the_morning
              loc_origin 0 "Venus BARYCENTER" PHASE_DAY (T0 + timedelta_hours 3)
              (T0 + timedelta_hours 3) (T0 + timedelta_hours 15))
    as (c' & Hrun & Hall).
  - repeat split.
  - reflexivity.
  - reflexivity.
  - reflexivity.
  - reflexivity.
  - exists c'. split; [exact Hrun|]. split; [exact Hall|].
    split; [reflexivity|].
    replace c' with (snd (update_body_position sky_venus ctx_venus_in_the_morning))
      by (rewrite Hrun; reflexivity).
    vm_compute. reflexivity.
Defined.

(** ** Whole degrees *)

(** X7. [get_astral_position] reads the clock once and returns two whole
    numbers of degrees, each within half a degree of the apparent
    altitude and azimuth at that reading; it changes nothing else. *)
Theorem get_astral_position_whole_degrees sky loc elev obj target utc (c : Ctx) :
  dict_get BODIES_DICT obj = Some target ->
  let apparent :=
    altaz sky (latitude loc) (longitude loc) elev target
      (clock sky (ticks (hass c))) in
  exists ze za c',
    get_astral_position sky (Some loc) (Some elev) obj utc c =
      (Ok (inject_Z ze, inject_Z za), c') /\
    (inject_Z ze - (1 # 2) <= fst apparent /\
     fst apparent <= inject_Z ze + (1 # 2))%Q /\
    (inject_Z za - (1 # 2) <= snd apparent /\
     snd apparent <= inject_Z za + (1 # 2))%Q /\
    ticks (hass c') = S (ticks (hass c)) /\
    self c' = self c /\ timers (hass c') = timers (hass c) /\
    log (hass c') = log (hass c).
Proof.
  intros Hd apparent.
  exists (round_half_even (fst apparent)), (round_half_even (snd apparent)).
  eexists. split.
  { exact (get_astral_position_run sky loc elev obj target utc c Hd). }
  split; [exact (py_round_nearest (fst apparent))|].
  split; [exact (py_round_nearest (snd apparent))|].
  repeat split.
Qed.

Lemma get_astral_position_whole_degrees_witness :
  exists ze za c',
    get_astral_position sky_venus (Some loc_origin) (Some 0) "venus" T0
      ctx_venus = (Ok (inject_Z ze, inject_Z za), c') /\
    (inject_Z ze - (1 # 2) <= 123 # 10 /\ 123 # 10 <= inject_Z ze + (1 # 2))%Q /\
    (inject_Z za - (1 # 2) <= 2005 # 10 /\
     2005 # 10 <= inject_Z za + (1 # 2))%Q /\
    ticks (hass c') = S (ticks (hass ctx_venus)) /\
    self c' = self ctx_venus /\ timers (hass c') = timers (hass ctx_venus) /\
    log (hass c') = log (hass ctx_venus).
Proof.
  exact (get_astral_position_whole_degrees sky_venus loc_origin 0 "venus"
           "Venus BARYCENTER" T0 ctx_venus eq_refl).
Defined.

Lemma round_half_even_nonneg (x : Q) :
  0 <= round_half_even x <-> (- (1 # 2) <= x)%Q.
Proof.
  unfold round_half_even.
  pose proof (Qfloor_le x) as Hlo. pose proof (Qlt_floor x) as Hhi.
  rewrite inject_Z_plus in Hhi. change (inject_Z 1) with (1 # 1)%Q in Hhi.
  assert (Hz : forall z : Z, (inject_Z z < 0)%Q -> (inject_Z z <= - (1 # 1))%Q).
  { intros z Hzlt. change (- (1 # 1))%Q with (inject_Z (-1)).
    rewrite <- Zle_Qle. change 0%Q with (inject_Z 0) in Hzlt.
    rewrite <- Zlt_Qlt in Hzlt. lia. }
  assert (Hpos : forall z : Z, 0 <= z <-> (0 <= inject_Z z)%Q).
  { intros z. change 0%Q with (inject_Z 0). rewrite <- Zle_Qle. tauto. }
  destruct (Qcompare_spec (x - inject_Z (Qfloor x)) (1 # 2)) as [He | Hlt | Hgt].
  - destruct (Z.even (Qfloor x)) eqn:Ev.
    + rewrite Hpos. split; intros H; [lra|].
      destruct (Qlt_le_dec (inject_Z (Qfloor x)) 0) as [Hneg | Hge]; [|exact Hge].
      exfalso. pose proof (Hz _ Hneg) as Hle.
      assert (Hf1 : Qfloor x <= -1).
      { rewrite Zle_Qle. change (inject_Z (-1)) with (- (1 # 1))%Q. exact Hle. }
      assert (Hf2 : -1 <= Qfloor x).
      { rewrite Zle_Qle. change (inject_Z (-1)) with (- (1 # 1))%Q. lra. }
      assert (Hf : Qfloor x = -1) by lia.
      rewrite Hf in Ev. discriminate.
    + rewrite Hpos, inject_Z_plus. change (inject_Z 1) with (1 # 1)%Q.
      split; intros H; [lra|].
      destruct (Qlt_le_dec (inject_Z (Qfloor x) + 1) 0) as [Hneg | Hge]; [|exact Hge].
      exfalso.
      assert (Hn : (inject_Z (Qfloor x) < 0)%Q) by lra.
      pose proof (Hz _ Hn). 
      assert (Hn2 : (inject_Z (Qfloor x + 1) < 0)%Q).
      { rewrite inject_Z_plus. change (inject_Z 1) with (1 # 1)%Q. exact Hneg. }
      pose proof (Hz _ Hn2) as H2. rewrite inject_Z_plus in H2.
      change (inject_Z 1) with (1 # 1)%Q in H2. lra.
  - rewrite Hpos. split; intros H; [lra|].
    destruct (Qlt_le_dec (inject_Z (Qfloor x)) 0) as [Hneg | Hge]; [|exact Hge].
    exfalso. pose proof (Hz _ Hneg). lra.
  - rewrite Hpos, inject_Z_plus. change (inject_Z 1) with (1 # 1)%Q.
    split; intros H; [lra|].
    destruct (Qlt_le_dec (inject_Z (Qfloor x) + 1) 0) as [Hneg | Hge]; [|exact Hge].
    exfalso.
    assert (Hn2 : (inject_Z (Qfloor x + 1) < 0)%Q).
    { rewrite inject_Z_plus. change (inject_Z 1) with (1 # 1)%Q. exact Hneg. }
    pose proof (Hz _ Hn2) as H2. rewrite inject_Z_plus in H2.
    change (inject_Z 1) with (1 # 1)%Q in H2. lra.
Qed.

Lemma Qgt_bool_whole (z : Z) :
  Qgt_bool (inject_Z z) (-833 # 1000) = true <-> 0 <= z.
Proof.
  rewrite Qgt_bool_true. split; intros H.
  - destruct (Z_lt_le_dec z 0) as [Hneg | Hge]; [|exact Hge]. exfalso.
    assert (Hle : (inject_Z z <= inject_Z (-1))%Q) by (rewrite <- Zle_Qle; lia).
    change (inject_Z (-1)) with (- (1 # 1))%Q in Hle. lra.
  - assert (Hle : (inject_Z 0 <= inject_Z z)%Q) by (rewrite <- Zle_Qle; lia).
    change (inject_Z 0) with 0%Q in Hle. lra.
Qed.

(** X8. Because the stored elevation is a whole number of degrees, the
    state that a position recomputation writes is [above_horizon] exactly
    when the apparent altitude at its reading of the clock is at least
    half a degree below zero; the constant -0.833 decides nothing
    finer. *)
Theorem above_horizon_from_minus_half sky (c : Ctx) loc elev target p nc r s :
  located (self c) loc elev target ->
  phase (self c) = Some p ->
  _next_change (self c) = Some nc ->
  next_rising (self c) = Some r ->
  next_setting (self c) = Some s ->
  let alt :=
    fst (altaz sky (latitude loc) (longitude loc) elev target
           (clock sky (S (ticks (hass c))))) in
  exists c' st attrs,
    update_body_position sky c = (Ok tt, c') /\
    state (self c') = Ok st /\
    In (LogWriteState (self_id c) st attrs) (log (hass c')) /\
    (st = STATE_ABOVE_HORIZON <-> (- (1 # 2) <= alt)%Q) /\
    (st = STATE_BELOW_HORIZON <-> (alt < - (1 # 2))%Q).
Proof.
  intros Hl Hp Hnc Hr Hs alt.
  pose proof (update_body_position_run sky c loc elev target p nc r s Hl Hp Hnc Hr Hs)
    as Hrun. cbv zeta in Hrun. fold alt in Hrun.
  set (st := if Qgt_bool (py_round alt) (-833 # 1000)
             then STATE_ABOVE_HORIZON else STATE_BELOW_HORIZON) in *.
  eexists. exists st. eexists. split; [exact Hrun|].
  split.
  { destruct (_ >? _); cbn [self];
      (erewrite state_computed by reflexivity); reflexivity. }
  split.
  { destruct (_ >? _); cbn [hass log add_log set_next_handle set_timers set_ticks];
      rewrite ?in_app_iff; cbn [In]; auto 7. }
  subst st. unfold py_round.
  pose proof (Qgt_bool_whole (round_half_even alt)) as Hw.
  pose proof (round_half_even_nonneg alt) as Hn.
  destruct (Qgt_bool (inject_Z (round_half_even alt)) (-833 # 1000)).
  - assert (- (1 # 2) <= alt)%Q by (apply Hn, Hw; reflexivity).
    split; split; intros; try reflexivity; try discriminate; try assumption. lra.
  - assert (Hlt : (alt < - (1 # 2))%Q).
    { apply Qnot_le_lt. intros Hle. apply Hn, Hw in Hle. discriminate. }
    split; split; intros; try reflexivity; try discriminate; try assumption. lra.
Qed.

Lemma above_horizon_from_minus_half_witness :
  exists c' st attrs,
    update_body_position sky_venus ctx_venus_by_day = (Ok tt, c') /\
    state (self c') = Ok st /\
    In (LogWriteState (self_id ctx_venus_by_day) st attrs) (log (hass c')) /\
    (st = STATE_ABOVE_HORIZON <-> (- (1 # 2) <= 123 # 10)%Q) /\
    (st = STATE_BELOW_HORIZON <-> (123 # 10 < - (1 # 2))%Q).
Proof.
  apply (above_horizon_from_minus_half sky_venus ctx_venus_by_day loc_origin 0
           "Venus BARYCENTER" PHASE_DAY (T0 + timedelta_minutes 3)
           (T0 + timedelta_minutes 3) (T0 + timedelta_hours 12)).
  - repeat split.
  - reflexivity.
  - reflexivity.
  - reflexivity.
  - reflexivity.
Defined.

(** ** When nothing rises or sets *)

(** X9. When the almanac finds neither a rising nor a setting and the
    clock does not run backwards, an event recomputation arms no
    position timer and arms its own timer at an instant that the clock
    had already reached during the run: the timer is due at once, and
    every firing recomputes the events again. *)
Theorem no_events_rearms_at_once sky (c : Ctx) loc elev target :
  located (self c) loc elev target ->
  monotone_clock sky ->
  found sky true loc elev target (clock sky (ticks (hass c))) = None ->
  found sky false loc elev target (clock sky (ticks (hass c))) = None ->
  exists c' nc h k,
    update_events sky c = (Ok tt, c') /\
    _next_change (self c') = Some nc /\
    _update_body_position_listener (self c') = None /\
    _update_events_listener (self c') = Some h /\
    timers (hass c') =
      match _update_body_position_listener (self c) with
      | Some h' => remove_timer h' (timers (hass c))
      | None => timers (hass c)
      end
      ++ [{| t_handle := h; t_owner := self_id c;
             t_action := Run_update_events; t_point := nc |}] /\
    (k < ticks (hass c'))%nat /\ nc <= clock sky k.
Proof.
  intros Hl Hmono Hr Hs.
  destruct (update_events_run sky c loc elev target Hl)
    as (c' & Hrun & _ & _ & _ & _ & _ & _ & Hnc & _ & _ & _ & Hev & Hpos & Hticks
        & _ & _ & Htimers).
  set (n := ticks (hass c)) in *. set (now := clock sky n) in *.
  destruct (event_instant_cases sky true loc elev target now (S n))
    as [[Hf _] | (_ & Hri & Hrt)]; [congruence|].
  rewrite Hrt, Hri in *.
  destruct (event_instant_cases sky false loc elev target now (S (S n)))
    as [[Hf _] | (_ & Hsi & Hst)]; [congruence|].
  rewrite Hst, Hsi in *.
  match type of Hpos with
  | _ = (if ?d then _ else _) => assert (Hd : d = true)
  end.
  { apply Z.gtb_lt.
    match goal with |- _ < _ + timedelta_mul_1_25 (_PHASE_UPDATES ?p) =>
      pose proof (timedelta_positive p) as [_ Hpos']
    end.
    pose proof (Hmono (S n)). pose proof (Hmono (S (S n))). lia. }
  rewrite Hd in *.
  exists c'. eexists. eexists. exists (S n).
  split; [exact Hrun|]. split; [exact Hnc|]. split; [exact Hpos|].
  split; [exact Hev|]. split; [exact Htimers|]. split; lia.
Qed.

Lemma sky_polar_monotone : monotone_clock sky_polar.
Proof. intros n. unfold sky_polar. cbn [clock]. lia. Qed.

Lemma no_events_rearms_at_once_witness :
  exists c' nc h k,
    update_events sky_polar ctx_venus = (Ok tt, c') /\
    _next_change (self c') = Some nc /\
    _update_body_position_listener (self c') = None /\
    _update_events_listener (self c') = Some h /\
    timers (hass c') =
      match _update_body_position_listener (self ctx_venus) with
      | Some h' => remove_timer h' (timers (hass ctx_venus))
      | None => timers (hass ctx_venus)
      end
      ++ [{| t_handle := h; t_owner := self_id ctx_venus;
             t_action := Run_update_events; t_point := nc |}] /\
    (k < ticks (hass c'))%nat /\ nc <= clock sky_polar k.
Proof.
  exact (no_events_rearms_at_once sky_polar ctx_venus loc_origin 0
           "Venus BARYCENTER" ctx_venus_located sky_polar_monotone
           eq_refl eq_refl).
Defined.

(** ** The first update *)

(** X10. [update_location(initial=True)] on an entity whose body
    [BODIES_DICT] knows always succeeds, whatever the entity held
    before: it takes location and elevation from the configuration,
    computes both events, the horizon, the phase and the position, and
    leaves its event timer pending at the horizon. *)
Theorem first_update_tracks sky (c : Ctx) target :
  dict_get BODIES_DICT (object (self c)) = Some target ->
  exists c' l r s nc ph e a h,
    update_location sky true c = (Ok tt, c') /\
    Location_eqb (location_info (config (hass c))) l = true /\
    located (self c') l (cfg_elevation (config (hass c))) target /\
    next_rising (self c') = Some r /\
    next_setting (self c') = Some s /\
    _next_change (self c') = Some nc /\
    phase (self c') = Some ph /\
    solar_elevation (self c') = Some e /\
    solar_azimuth (self c') = Some a /\
    _update_events_listener (self c') = Some h /\
    In {| t_handle := h; t_owner := self_id c;
          t_action := Run_update_events; t_point := nc |}
       (timers (hass c')).
Proof.
  intros Hd.
  destruct (get_astral_location_run c) as (l & cache' & Hloc & _ & Hl & _).
  cbv zeta in Hl.
  unfold update_location. mstep. rewrite Hloc. mstep. cbn [negb andb]. mstep.
  destruct (_update_events_listener (self c)) as [h0|] eqn:Hold; mstep;
    match goal with
    | |- context [update_events sky ?c2] =>
        assert (Hlocd : located (self c2) l (cfg_elevation (config (hass c))) target)
          by (repeat split; exact Hd);
        destruct (update_events_run sky c2 _ _ _ Hlocd)
          as (c' & Hrun & Hid & Hobj & Hl' & He' & Hr & Hs & Hnc & Hp & Hse & Hsa
              & Hev & _ & _ & _ & _ & Htimers)
    end;
    (exists c'; exists l; do 7 eexists;
     split; [exact Hrun|];
     split; [exact Hl|];
     split; [repeat split; [exact Hl' | exact He' | rewrite Hobj; exact Hd]|];
     split; [exact Hr|]; split; [exact Hs|]; split; [exact Hnc|];
     split; [exact Hp|]; split; [exact Hse|]; split; [exact Hsa|];
     split; [exact Hev|];
     rewrite Htimers, !in_app_iff; right; right; left; reflexivity).
Qed.

Lemma first_update_tracks_witness :
  exists c' l r s nc ph e a h,
    update_location sky_venus true ctx_venus = (Ok tt, c') /\
    Location_eqb (location_info (config (hass ctx_venus))) l = true /\
    located (self c') l (cfg_elevation (config (hass ctx_venus)))
      "Venus BARYCENTER" /\
    next_rising (self c') = Some r /\
    next_setting (self c') = Some s /\
    _next_change (self c') = Some nc /\
    phase (self c') = Some ph /\
    solar_elevation (self c') = Some e /\
    solar_azimuth (self c') = Some a /\
    _update_events_listener (self c') = Some h /\
    In {| t_handle := h; t_owner := self_id ctx_venus;
          t_action := Run_update_events; t_point := nc |}
       (timers (hass c')).
Proof.
  exact (first_update_tracks sky_venus ctx_venus "Venus BARYCENTER" eq_refl).
Defined.

(** * Entities in a session *)

(** ** Entities do not touch each other's timers *)

Lemma apart_cancel T0 N0 i k h v :
  apart T0 N0 i v -> v_listener k v = Some h -> apart T0 N0 i (view_cancel h v).
Proof.
  intros (Hid & Hn & Hlt & Hold & Hkeep & Hl) Hk.
  split; [exact Hid|]. split; [exact Hn|].
  split; [intros t Hin; apply In_remove_timer in Hin as [Hin _]; auto|].
  split; [intros t Hin; apply In_remove_timer in Hin as [Hin _]; auto|].
  split.
  - intros t Hin Ho. apply In_remove_timer. split; [auto|].
    intros Hh. apply Ho. exact (proj2 (Hl k h Hk) t (Hkeep t Hin Ho) Hh).
  - intros k' h' Hk'. destruct (Hl k' h') as [Hlt' Hown].
    { destruct k'; exact Hk'. }
    split; [exact Hlt'|].
    intros t Hin. apply In_remove_timer in Hin as [Hin _]. auto.
Qed.

Lemma apart_arm T0 N0 i k p v :
  apart T0 N0 i v -> apart T0 N0 i (view_arm k p v).
Proof.
  intros (Hid & Hn & Hlt & Hold & Hkeep & Hl).
  split; [exact Hid|]. split; [cbn; lia|].
  split.
  { intros t Hin. cbn in Hin. apply in_app_iff in Hin as [Hin | [<- | []]];
      [specialize (Hlt t Hin) | ]; cbn; lia. }
  split.
  { intros t Hin. cbn in Hin. apply in_app_iff in Hin as [Hin | [<- | []]];
      [auto|]. right. cbn. split; [exact Hn | exact Hid]. }
  split.
  { intros t Hin Ho. cbn. apply in_app_iff. left. auto. }
  intros k' h' Hk'.
  assert (Hcase : (h' = v_next v /\ k' = k) \/ v_listener k' v = Some h').
  { destruct k, k'; cbn in Hk'; auto; left; split; congruence. }
  destruct Hcase as [[-> ->] | Hk0].
  - split; [cbn; lia|]. intros t Hin Hh. cbn in Hin.
    apply in_app_iff in Hin as [Hin | [<- | []]]; [|exact Hid].
    specialize (Hlt t Hin). lia.
  - destruct (Hl k' h' Hk0) as [Hlt' Hown]. split; [cbn; lia|].
    intros t Hin Hh. cbn in Hin.
    apply in_app_iff in Hin as [Hin | [<- | []]]; [auto | exact Hid].
Qed.

Lemma apart_clear_position T0 N0 i v :
  apart T0 N0 i v -> apart T0 N0 i (view_clear_position v).
Proof.
  intros (Hid & Hn & Hlt & Hold & Hkeep & Hl).
  split; [exact Hid|]. split; [exact Hn|]. split; [exact Hlt|].
  split; [exact Hold|]. split; [exact Hkeep|].
  intros k h Hk. destruct k; cbn in Hk; [|discriminate].
  exact (Hl Run_update_events h Hk).
Qed.

Lemma apart_phase T0 N0 i x v :
  apart T0 N0 i v -> apart T0 N0 i (view_phase x v).
Proof.
  intros (Hid & Hn & Hlt & Hold & Hkeep & Hl).
  split; [exact Hid|]. split; [exact Hn|]. split; [exact Hlt|].
  split; [exact Hold|]. split; [exact Hkeep|].
  intros k h Hk. apply (Hl k h). destruct k; exact Hk.
Qed.

(** Calling a listener that the view shows keeps the entities apart and
    leaves the listener fields as they are. *)
Lemma vhoare_call_listener_apart T0 N0 i k o (F : option nat -> option nat -> Prop) :
  vhoare (fun v => apart T0 N0 i v /\ v_listener k v = o /\
                   F (v_events v) (v_position v))
         (call_listener o)
         (fun v => apart T0 N0 i v /\ F (v_events v) (v_position v)).
Proof.
  intros c (Ha & Hk & HF). unfold call_listener. destruct o as [h|].
  - rewrite view_unsub. split; [|exact HF]. exact (apart_cancel _ _ _ k h _ Ha Hk).
  - split; assumption.
Qed.

Ltac vh_same := vh_quiet (fun v (H : _ v) => H).

Lemma vhoare_update_body_position_apart sky T0 N0 i :
  vhoare (apart T0 N0 i) (update_body_position sky) (apart T0 N0 i).
Proof.
  unfold update_body_position.
  repeat (apply vhoare_bind_quiet; [solve [quiet_auto] | auto | intros ?]).
  match goal with |- vhoare _ (if ?b then _ else _) _ => destruct b end.
  - intros c Ha. rewrite view_clear_listener. apply apart_clear_position, Ha.
  - intros c Ha. rewrite view_arm_listener. apply apart_arm, Ha.
Qed.

Lemma vhoare_update_events_apart sky T0 N0 i :
  vhoare (apart T0 N0 i) (update_events sky) (apart T0 N0 i).
Proof.
  unfold update_events.
  do 6 (apply vhoare_bind_quiet; [solve [quiet_auto] | auto | intros ?]).
  apply vhoare_get_self; intros b.
  apply (vhoare_bind _ (apart T0 N0 i)).
  { destruct (phase b) eqn:Hb.
    - intros c (Ha & _). exact Ha.
    - apply (vhoare_weaken _ (apart T0 N0 i)); [intros v (Ha & _); exact Ha|].
      do 3 (apply vhoare_bind_quiet; [solve [quiet_auto] | auto | intros ?]).
      intros c Ha. rewrite view_set_phase. apply apart_phase, Ha. }
  { auto. }
  intros _. apply vhoare_get_self; intros b'.
  apply (vhoare_bind _ (apart T0 N0 i)).
  { apply (vhoare_weaken _
             (fun v => apart T0 N0 i v /\
                       v_listener Run_update_body_position v =
                         _update_body_position_listener b' /\ True)).
    - intros v (Ha & _ & _ & Hp). auto.
    - intros c H.
      exact (proj1 (vhoare_call_listener_apart T0 N0 i Run_update_body_position
                      _ (fun _ _ => True) c H)). }
  { auto. }
  intros _.
  apply (vhoare_bind _ (apart T0 N0 i));
    [ apply vhoare_update_body_position_apart | auto | intros _ ].
  do 3 (apply vhoare_bind_quiet; [solve [quiet_auto] | auto | intros ?]).
  intros c Ha. rewrite view_arm_listener. apply apart_arm, Ha.
Qed.

Lemma vhoare_update_location_apart sky T0 N0 i initial :
  vhoare (apart T0 N0 i) (update_location sky initial) (apart T0 N0 i).
Proof.
  unfold update_location.
  apply vhoare_bind_quiet; [solve [quiet_auto] | auto | intros ?].
  apply vhoare_get_self; intros b.
  match goal with |- vhoare _ (if ?x then _ else _) _ => destruct x end.
  { intros c (Ha & _). exact Ha. }
  apply (vhoare_weaken _ (apart T0 N0 i)); [intros v (Ha & _); exact Ha|].
  apply vhoare_bind_quiet; [solve [quiet_auto] | auto | intros ?].
  apply vhoare_get_self; intros b'.
  apply (vhoare_bind _ (apart T0 N0 i)).
  { apply (vhoare_weaken _
             (fun v => apart T0 N0 i v /\
                       v_listener Run_update_events v =
                         _update_events_listener b' /\ True)).
    - intros v (Ha & _ & He & _). auto.
    - intros c H.
      exact (proj1 (vhoare_call_listener_apart T0 N0 i Run_update_events
                      _ (fun _ _ => True) c H)). }
  { auto. }
  intros _. apply vhoare_update_events_apart.
Qed.

Lemma vhoare_remove_listeners_apart T0 N0 i :
  vhoare (apart T0 N0 i) remove_listeners (apart T0 N0 i).
Proof.
  unfold remove_listeners.
  apply vhoare_get_self; intros b.
  apply (vhoare_bind _
           (fun v => apart T0 N0 i v /\
                     v_events v = _update_events_listener b /\
                     v_position v = _update_body_position_listener b)).
  { destruct (_config_listener b).
    - intros c (Ha & _ & He & Hp). rewrite (quiet_remove_bus_listener _ c). auto.
    - intros c (Ha & _ & He & Hp). auto. }
  { intros v (Ha & _). exact Ha. }
  intros _.
  apply (vhoare_bind _
           (fun v => apart T0 N0 i v /\
                     v_position v = _update_body_position_listener b)).
  { intros c (Ha & He & Hp).
    apply (vhoare_call_listener_apart T0 N0 i Run_update_events _
             (fun _ p => p = _update_body_position_listener b) c).
    auto. }
  { intros v (Ha & _). exact Ha. }
  intros _. intros c (Ha & Hp).
  exact (proj1 (vhoare_call_listener_apart T0 N0 i Run_update_body_position
                  _ (fun _ _ => True) c (conj Ha (conj Hp I)))).
Qed.

Lemma session_apart s i b :
  handles_owned s -> nth_error (bodies s) i = Some b ->
  apart (timers (sys_hass s)) (next_handle (sys_hass s)) i
    (view {| hass := sys_hass s; self_id := i; self := b |}).
Proof.
  intros [Hlt Hown] Hb.
  split; [reflexivity|]. split; [cbn; lia|]. split; [exact Hlt|].
  split; [intros t Hin; left; exact Hin|]. split; [intros t Hin _; exact Hin|].
  intros k h Hk. apply (Hown i b k h Hb). destruct k; exact Hk.
Qed.

Lemma apart_session s i b c' :
  handles_owned s -> nth_error (bodies s) i = Some b ->
  apart (timers (sys_hass s)) (next_handle (sys_hass s)) i (view c') ->
  handles_owned {| sys_hass := hass c'; bodies := list_set i (self c') (bodies s) |} /\
  (forall t, t_owner t <> i ->
     (In t (timers (hass c')) <-> In t (timers (sys_hass s)))).
Proof.
  intros [Hlt Hown] Hb (Hid & Hn & Hlt' & Hold & Hkeep & Hl).
  cbn [view v_id v_next v_timers] in *. split; [split|].
  - exact Hlt'.
  - cbn [sys_hass bodies]. intros j bj k h Hbj Hk.
    destruct (Nat.eq_dec j i) as [-> | Hne].
    + rewrite (nth_error_list_set_eq _ _ _ _ Hb) in Hbj. injection Hbj as <-.
      apply (Hl k h). destruct k; exact Hk.
    + rewrite nth_error_list_set_neq in Hbj by exact Hne.
      destruct (Hown j bj k h Hbj Hk) as [Hh Ho]. split; [lia|].
      intros t Hin Heq. destruct (Hold t Hin) as [Hin0 | [Hge _]]; [auto | lia].
  - intros t Ho. split; intros Hin.
    + destruct (Hold t Hin) as [Hin0 | [_ Hoi]]; [exact Hin0 | contradiction].
    + exact (Hkeep t Hin Ho).
Qed.

Lemma run_on_apart i (m : M unit) s :
  handles_owned s ->
  (forall T0 N0, vhoare (apart T0 N0 i) m (apart T0 N0 i)) ->
  handles_owned (run_on i m s) /\
  (forall t, t_owner t <> i ->
     (In t (timers (sys_hass (run_on i m s))) <-> In t (timers (sys_hass s)))) /\
  (forall j, j <> i -> nth_error (bodies (run_on i m s)) j = nth_error (bodies s) j).
Proof.
  intros Ho Hm. unfold run_on.
  destruct (nth_error (bodies s) i) as [b|] eqn:Hb.
  - pose proof (Hm _ _ _ (session_apart s i b Ho Hb)) as Ha.
    destruct (apart_session s i b _ Ho Hb Ha) as [H1 H2]. cbv zeta.
    split; [exact H1|]. split; [exact H2|].
    intros j Hne. cbn [bodies]. apply nth_error_list_set_neq, Hne.
  - split; [exact Ho|]. split; [tauto | reflexivity].
Qed.

Lemma NoDup_map_inj {A B} (f : A -> B) (l : list A) x y :
  NoDup (map f l) -> In x l -> In y l -> f x = f y -> x = y.
Proof.
  induction l as [|a l IH]; cbn; intros Hnd Hx Hy Hf; [contradiction|].
  inversion Hnd as [|? ? Hnotin Hnd']; subst.
  destruct Hx as [-> | Hx], Hy as [-> | Hy]; auto.
  - exfalso. apply Hnotin. rewrite Hf. apply in_map, Hy.
  - exfalso. apply Hnotin. rewrite <- Hf. apply in_map, Hx.
Qed.

Lemma initial_handles_owned cfg : handles_owned (initial_system cfg).
Proof.
  split; [intros t []|]. intros i b k h Hb. destruct i; discriminate.
Qed.

Lemma new_body_handles_owned obj s :
  handles_owned s -> handles_owned (CelestialBody_init obj s).
Proof.
  intros [Hlt Hown]. split; [exact Hlt|].
  intros i b k h Hb Hk. cbn [CelestialBody_init bodies sys_hass] in *.
  destruct (Nat.lt_ge_cases i (length (bodies s))) as [Hi | Hi].
  - rewrite nth_error_app1 in Hb by exact Hi. exact (Hown i b k h Hb Hk).
  - rewrite nth_error_app2 in Hb by exact Hi.
    destruct (i - length (bodies s))%nat as [|n]; cbn in Hb.
    + injection Hb as <-. destruct k; discriminate.
    + destruct n; discriminate.
Qed.

(** Dropping the timer that fires. *)
Lemma fired_handles_owned t s :
  handles_owned s ->
  handles_owned
    {| sys_hass := add_log (LogFired t)
         (set_timers (remove_timer (t_handle t) (timers (sys_hass s))) (sys_hass s));
       bodies := bodies s |}.
Proof.
  intros [Hlt Hown]. split; cbn [sys_hass timers next_handle add_log set_timers bodies].
  - intros t' Hin. apply In_remove_timer in Hin as [Hin _]. auto.
  - intros i b k h Hb Hk. destruct (Hown i b k h Hb Hk) as [Hh Ho].
    split; [exact Hh|]. intros t' Hin. apply In_remove_timer in Hin as [Hin _]. auto.
Qed.

Lemma fire_apart sky t s :
  session_invariant s -> handles_owned s -> In t (timers (sys_hass s)) ->
  handles_owned (fire sky t s) /\
  (forall t', t_owner t' <> t_owner t ->
     (In t' (timers (sys_hass (fire sky t s))) <-> In t' (timers (sys_hass s)))) /\
  (forall j, j <> t_owner t ->
     nth_error (bodies (fire sky t s)) j = nth_error (bodies s) j).
Proof.
  intros (_ & Hnd & _) Ho Hin. unfold fire.
  set (s1 := {| sys_hass := _; bodies := bodies s |}).
  pose proof (fired_handles_owned t s Ho) as Ho1. fold s1 in Ho1.
  assert (Hsame : forall t', t_owner t' <> t_owner t ->
            (In t' (timers (sys_hass s1)) <-> In t' (timers (sys_hass s)))).
  { intros t' Hne. subst s1. cbn [sys_hass timers add_log set_timers].
    rewrite In_remove_timer. split; [tauto|]. intros Hin'. split; [exact Hin'|].
    intros Hh. apply Hne.
    rewrite (NoDup_map_inj t_handle _ t' t Hnd Hin' Hin Hh). reflexivity. }
  destruct (t_action t).
  - destruct (run_on_apart (t_owner t) (update_events sky) s1 Ho1) as (H1 & H2 & H3).
    { intros T0 N0. apply vhoare_update_events_apart. }
    split; [exact H1|]. split; [|exact H3].
    intros t' Hne. rewrite (H2 t' Hne). exact (Hsame t' Hne).
  - destruct (run_on_apart (t_owner t) (update_body_position sky) s1 Ho1)
      as (H1 & H2 & H3).
    { intros T0 N0. apply vhoare_update_body_position_apart. }
    split; [exact H1|]. split; [|exact H3].
    intros t' Hne. rewrite (H2 t' Hne). exact (Hsame t' Hne).
Qed.

Lemma config_update_handles_owned sky (l : list nat) s :
  handles_owned s ->
  handles_owned (fold_left (fun s i => run_on i (update_location sky false) s) l s).
Proof.
  revert s. induction l as [|i l IH]; intros s Ho; cbn; [exact Ho|].
  apply IH. apply run_on_apart; [exact Ho|].
  intros T0 N0. apply vhoare_update_location_apart.
Qed.

Lemma handle_handles_owned sky s (inp : Input) :
  session_invariant s -> handles_owned s -> handles_owned (handle sky s inp).
Proof.
  intros Hinv Ho. destruct inp as [obj | i | cfg | h | i]; cbn [handle].
  - apply new_body_handles_owned, Ho.
  - apply run_on_apart; [exact Ho|].
    intros T0 N0. apply vhoare_update_location_apart.
  - apply config_update_handles_owned. exact Ho.
  - destruct (find_timer h (timers (sys_hass s))) as [t|] eqn:Hf; [|exact Ho].
    apply find_timer_some in Hf as [Hin _].
    exact (proj1 (fire_apart sky t s Hinv Ho Hin)).
  - apply run_on_apart; [exact Ho|].
    intros T0 N0. apply vhoare_remove_listeners_apart.
Qed.

Lemma session_handles_owned sky cfg inputs :
  session_invariant (run_session sky cfg inputs) /\
  handles_owned (run_session sky cfg inputs).
Proof.
  unfold run_session.
  assert (H : session_invariant (initial_system cfg) /\
              handles_owned (initial_system cfg)).
  { split; [apply initial_invariant | apply initial_handles_owned]. }
  revert H. generalize (initial_system cfg).
  induction inputs as [|inp inputs IH]; intros s [Hinv Ho]; cbn; [auto|].
  apply IH. split.
  - exact (proj1 (handle_invariant sky s inp Hinv)).
  - exact (handle_handles_owned sky s inp Hinv Ho).
Qed.

(** X11. In every state a session can reach, an input that makes one
    entity run (its initial update, one of its timers firing, its
    removal) leaves every other entity as it is and leaves the pending
    timers of every other entity pending, unchanged: entities are
    scheduled independently of each other. *)
Theorem entities_do_not_interfere sky cfg (inputs : list Input) (inp : Input) i :
  let s := run_session sky cfg inputs in
  let s' := handle sky s inp in
  concerns s inp = Some i ->
  forall j, j <> i ->
    nth_error (bodies s') j = nth_error (bodies s) j /\
    forall t, t_owner t = j ->
      (In t (timers (sys_hass s')) <-> In t (timers (sys_hass s))).
Proof.
  cbv zeta. intros Hc j Hne.
  destruct (session_handles_owned sky cfg inputs) as [Hinv Ho].
  set (s := run_session sky cfg inputs) in *.
  assert (Hgoal : forall m,
            (forall T0 N0, vhoare (apart T0 N0 i) m (apart T0 N0 i)) ->
            nth_error (bodies (run_on i m s)) j = nth_error (bodies s) j /\
            forall t, t_owner t = j ->
              (In t (timers (sys_hass (run_on i m s))) <-> In t (timers (sys_hass s)))).
  { intros m Hm. destruct (run_on_apart i m s Ho Hm) as (_ & H2 & H3).
    split; [exact (H3 j Hne)|]. intros t Ht. apply H2. congruence. }
  destruct inp as [obj | i' | cfg' | h | i']; cbn [concerns handle] in *;
    try discriminate.
  - injection Hc as ->. apply Hgoal. intros T0 N0. apply vhoare_update_location_apart.
  - destruct (find_timer h (timers (sys_hass s))) as [t|] eqn:Hf; [|discriminate].
    injection Hc as <-. apply find_timer_some in Hf as [Hin _].
    destruct (fire_apart sky t s Hinv Ho Hin) as (_ & H2 & H3).
    split; [exact (H3 j Hne)|]. intros t' Ht'. apply H2. congruence.
  - injection Hc as ->. apply Hgoal. intros T0 N0. apply vhoare_remove_listeners_apart.
Qed.

Lemma entities_do_not_interfere_witness :
  let s := run_session sky_venus cfg_origin inputs_two in
  let s' := handle sky_venus s (In_remove_listeners 0) in
  nth_error (bodies s') 1 = nth_error (bodies s) 1 /\
  forall t, t_owner t = 1%nat ->
    (In t (timers (sys_hass s')) <-> In t (timers (sys_hass s))).
Proof.
  apply (entities_do_not_interfere sky_venus cfg_origin inputs_two
           (In_remove_listeners 0) 0%nat eq_refl 1%nat).
  discriminate.
Defined.

(** ** Commands that keep the subscriptions *)

Lemma steady_ret {A} (a : A) : steady (ret a).
Proof. intros c. reflexivity. Qed.

Lemma steady_raise {A} (e : Exc) : steady (@raise A e).
Proof. intros c. reflexivity. Qed.

Lemma steady_lift {A} (r : Result A) : steady (lift r).
Proof. intros c. reflexivity. Qed.

Lemma steady_get_self : steady get_self.
Proof. intros c. reflexivity. Qed.

Lemma steady_get_hass : steady get_hass.
Proof. intros c. reflexivity. Qed.

Lemma steady_get_id : steady get_id.
Proof. intros c. reflexivity. Qed.

Lemma steady_attr_of {A} (o : option A) : steady (attr_of o).
Proof. destruct o; intros c; reflexivity. Qed.

Lemma steady_operand {A} (o : option A) : steady (operand o).
Proof. destruct o; intros c; reflexivity. Qed.

Lemma steady_elevation_m (o : option Z) : steady (elevation_m o).
Proof. destruct o; intros c; reflexivity. Qed.

Lemma steady_bind {A B} (m : M A) (k : A -> M B) :
  steady m -> (forall a, steady (k a)) -> steady (bind m k).
Proof.
  intros Hm Hk c. unfold bind. specialize (Hm c).
  destruct (m c) as [[a | e] c1]; cbn [snd] in *.
  - rewrite (Hk a c1). exact Hm.
  - exact Hm.
Qed.

Lemma steady_modify_self (f : CelestialBody -> CelestialBody) :
  (forall b, object (f b) = object b /\
             _config_listener (f b) = _config_listener b) ->
  steady (modify_self f).
Proof.
  intros Hf c. destruct (Hf (self c)) as (H1 & H2).
  unfold subscription, modify_self. cbn [snd self hass self_id].
  rewrite H1, H2. reflexivity.
Qed.

Lemma steady_modify_hass (f : Hass -> Hass) :
  (forall h, bus_listeners (f h) = bus_listeners h) ->
  steady (modify_hass f).
Proof.
  intros Hf c. unfold subscription, modify_hass. cbn [snd self hass self_id].
  rewrite Hf. reflexivity.
Qed.

Ltac steady_step :=
  first
    [ apply steady_ret | apply steady_raise | apply steady_lift
    | apply steady_get_self | apply steady_get_hass | apply steady_get_id
    | apply steady_attr_of | apply steady_operand | apply steady_elevation_m
    | apply steady_bind; [ | intros ? ]
    | apply steady_modify_self; intros b; destruct b; split; reflexivity
    | apply steady_modify_self; intros b; split; reflexivity
    | apply steady_modify_hass; intros ?; reflexivity
    | match goal with
      | |- steady (match ?x with _ => _ end) => destruct x
      | |- steady (if ?x then _ else _) => destruct x
      end ].

Lemma steady_utcnow sky : steady (utcnow sky).
Proof. unfold utcnow. repeat steady_step. Qed.

Lemma steady_call_listener o : steady (call_listener o).
Proof. unfold call_listener, unsub. repeat steady_step. Qed.

Lemma steady_track k p : steady (async_track_point_in_utc_time k p).
Proof. unfold async_track_point_in_utc_time. repeat steady_step. Qed.

Lemma steady_async_dispatcher_send sig : steady (async_dispatcher_send sig).
Proof. unfold async_dispatcher_send. repeat steady_step. Qed.

Lemma steady_async_write_ha_state : steady async_write_ha_state.
Proof. unfold async_write_ha_state. repeat steady_step. Qed.

Lemma steady_bodies_dict_item obj : steady (bodies_dict_item obj).
Proof. unfold bodies_dict_item. repeat steady_step. Qed.

Lemma steady_get_astral_location : steady get_astral_location.
Proof. unfold get_astral_location. repeat steady_step. Qed.

Lemma steady_get_astral_position sky l e obj utc :
  steady (get_astral_position sky l e obj utc).
Proof.
  unfold get_astral_position.
  repeat first [apply steady_utcnow | apply steady_bodies_dict_item | steady_step].
Qed.

Lemma steady_get_astral_event_next sky l e obj ev utc :
  steady (get_astral_event_next sky l e obj ev utc).
Proof.
  unfold get_astral_event_next.
  repeat first [apply steady_utcnow | apply steady_bodies_dict_item | steady_step].
Qed.

Lemma steady_check_event sky utc ev : steady (_check_event sky utc ev).
Proof.
  unfold _check_event.
  repeat first [apply steady_get_astral_event_next | steady_step].
Qed.

Lemma steady_update_body_position sky : steady (update_body_position sky).
Proof.
  unfold update_body_position.
  repeat first [apply steady_utcnow | apply steady_get_astral_position
               | apply steady_async_write_ha_state
               | apply steady_async_dispatcher_send | apply steady_track
               | steady_step].
Qed.

Lemma steady_update_events sky : steady (update_events sky).
Proof.
  unfold update_events.
  repeat first [apply steady_utcnow | apply steady_check_event
               | apply steady_call_listener | apply steady_update_body_position
               | apply steady_async_dispatcher_send | apply steady_track
               | steady_step].
Qed.

Lemma steady_update_location sky initial : steady (update_location sky initial).
Proof.
  unfold update_location.
  repeat first [apply steady_get_astral_location | apply steady_call_listener
               | apply steady_update_events | steady_step].
Qed.

Lemma steady_callback sky k : steady (callback sky k).
Proof.
  destruct k; [apply steady_update_events | apply steady_update_body_position].
Qed.

(** ** Tracking entities keep tracking *)

Lemma run_on_some i (m : M unit) s b :
  nth_error (bodies s) i = Some b ->
  run_on i m s =
    {| sys_hass := hass (snd (m {| hass := sys_hass s; self_id := i; self := b |}));
       bodies := list_set i
                   (self (snd (m {| hass := sys_hass s; self_id := i; self := b |})))
                   (bodies s) |}.
Proof. intros Hb. unfold run_on. rewrite Hb. reflexivity. Qed.

Lemma run_session_app sky cfg inputs rest :
  run_session sky cfg (inputs ++ rest) =
  fold_left (handle sky) rest (run_session sky cfg inputs).
Proof. unfold run_session. apply fold_left_app. Qed.

Lemma length_list_set {A} i (x : A) l : length (list_set i x l) = length l.
Proof.
  revert i. induction l as [|a l IH]; intros [|i]; cbn; auto.
Qed.

Lemma fire_callback sky t s :
  fire sky t s = run_on (t_owner t) (callback sky (t_action t)) (fired t s).
Proof. unfold fire, fired, callback. destruct (t_action t); reflexivity. Qed.

(** An event recomputation of a tracking entity succeeds and leaves it
    tracking, with its event timer pending. *)
Lemma update_events_ready sky (c : Ctx) :
  ready (self c) ->
  exists c' h nc,
    update_events sky c = (Ok tt, c') /\ ready (self c') /\
    _update_events_listener (self c') = Some h /\
    In {| t_handle := h; t_owner := self_id c;
          t_action := Run_update_events; t_point := nc |} (timers (hass c')).
Proof.
  intros ((loc & elev & target & Hl) & _).
  destruct (update_events_run sky c loc elev target Hl)
    as (c' & Hrun & _ & Hobj & Hl' & He' & Hr & Hs & Hnc & Hp & Hse & Hsa & Hev & _
        & _ & _ & _ & Htimers).
  exists c'. do 2 eexists. split; [exact Hrun|]. split.
  { split; [|repeat split; eexists; eassumption]. exists loc, elev, target.
    destruct Hl as (_ & _ & Hd). repeat split; [exact Hl' | exact He' |].
    rewrite Hobj. exact Hd. }
  split; [exact Hev|]. rewrite Htimers, !in_app_iff. right. right. left. reflexivity.
Qed.

(** A position recomputation of a tracking entity succeeds, leaves it
    tracking and removes no timer. *)
Lemma update_body_position_ready sky (c : Ctx) :
  ready (self c) ->
  exists c',
    update_body_position sky c = (Ok tt, c') /\ ready (self c') /\
    forall t, In t (timers (hass c)) -> In t (timers (hass c')).
Proof.
  intros ((loc & elev & target & Hl) & (p & Hp) & (nc & Hnc) & (r & Hr) & (s & Hs) & _).
  eexists. split.
  { exact (update_body_position_run sky c loc elev target p nc r s Hl Hp Hnc Hr Hs). }
  cbv zeta. destruct (_ >? _); cbn [self hass timers add_log set_next_handle
    set_timers set_ticks]; (split; [|intros t Hin; rewrite ?in_app_iff; auto]);
    (split; [exists loc, elev, target; exact Hl
            | repeat split; eexists; first [eassumption | reflexivity]]).
Qed.

(** With a location, an elevation and a body that [BODIES_DICT] does not
    know, the first query of an event recomputation raises. *)
Lemma update_events_unknown_body sky (c : Ctx) loc elev :
  location (self c) = Some loc -> elevation (self c) = Some elev ->
  dict_get BODIES_DICT (object (self c)) = None ->
  update_events sky c =
    (Raise (KeyError (object (self c))),
     {| hass := set_ticks (S (ticks (hass c))) (hass c);
        self_id := self_id c;
        self := set_next_change
                  (Some (clock sky (ticks (hass c)) + timedelta_days 400))
                  (self c) |}).
Proof.
  intros Hloc Hel Hd. unfold update_events, _check_event. mstep.
  unfold get_astral_event_next. mstep. rewrite Hloc, Hel. mstep.
  cbn [String.eqb SUN_EVENT_SUNRISE Ascii.eqb Bool.eqb]. mstep.
  rewrite Hd. mstep. reflexivity.
Qed.

(** The three outcomes of a change of location. *)
Lemma update_location_settled sky (c : Ctx) (initial : bool) :
  settled (self c) ->
  exists c',
    snd (update_location sky initial c) = c' /\
    ((fst (update_location sky initial c) = Ok tt /\
      self c' = self c /\ timers (hass c') = timers (hass c) /\
      initial = false) \/
     (fst (update_location sky initial c) = Ok tt /\
      ready (self c') /\
      exists h nc,
        _update_events_listener (self c') = Some h /\
        In {| t_handle := h; t_owner := self_id c;
              t_action := Run_update_events; t_point := nc |}
           (timers (hass c'))) \/
     (fst (update_location sky initial c) = Raise (KeyError (object (self c))) /\
      dict_get BODIES_DICT (object (self c)) = None /\
      object (self c') = object (self c) /\
      _update_events_listener (self c') = None /\
      _update_body_position_listener (self c') = None /\
      next_rising (self c') = None /\
      timers (hass c') = timers (hass c))).
Proof.
  intros Hset. eexists. split; [reflexivity|].
  destruct (get_astral_location_run c) as (l & cache' & Hloc & _ & _ & _).
  unfold update_location. mstep. rewrite Hloc. mstep.
  match goal with |- context [if ?x then _ else _] => destruct x eqn:Hskip end.
  { left. mstep. repeat split. destruct initial; [discriminate | reflexivity]. }
  right. mstep.
  destruct (dict_get BODIES_DICT (object (self c))) as [target|] eqn:Hd.
  - left.
    destruct (_update_events_listener (self c)) as [h0|] eqn:Hold; mstep;
      match goal with
      | |- context [update_events sky ?c2] =>
          assert (Hl2 : located (self c2) l (cfg_elevation (config (hass c))) target)
            by (repeat split; exact Hd);
          destruct (update_events_run sky c2 _ _ _ Hl2)
            as (c' & Hrun & _ & Hobj & Hl' & He' & Hr' & Hs' & Hnc & Hp & Hse & Hsa
                & Hev & _ & _ & _ & _ & Htimers)
      end;
      rewrite Hrun; cbn [fst snd];
      (split; [reflexivity|]);
      (split;
       [ split; [exists l, (cfg_elevation (config (hass c))), target;
                 repeat split; [exact Hl' | exact He' | rewrite Hobj; exact Hd]
                | repeat split; eexists; eassumption]
       | do 2 eexists; split; [exact Hev|];
         rewrite Htimers, !in_app_iff; right; right; left; reflexivity ]).
  - right.
    assert (Hnr : ~ ready (self c)).
    { intros ((loc & elev & tg & (_ & _ & Hd')) & _). congruence. }
    destruct Hset as [Hr | (He & Hp & Hn)]; [contradiction|].
    rewrite He. mstep.
    rewrite (update_events_unknown_body sky _ l (cfg_elevation (config (hass c))));
      [|reflexivity|reflexivity|exact Hd].
    cbn [fst snd self hass location elevation object set_location
         set_next_change _update_events_listener _update_body_position_listener
         next_rising timers set_ticks set_location_cache].
    repeat split; assumption.
Qed.

Lemma remove_listeners_self (c : Ctx) :
  fst (remove_listeners c) = Ok tt /\
  self (snd (remove_listeners c)) = self c /\
  timers (hass (snd (remove_listeners c))) =
    match _update_body_position_listener (self c) with
    | Some h => remove_timer h
    | None => fun ts => ts
    end
      (match _update_events_listener (self c) with
       | Some h => remove_timer h
       | None => fun ts => ts
       end (timers (hass c))) /\
  bus_listeners (hass (snd (remove_listeners c))) =
    match _config_listener (self c) with
    | Some l => filter (fun i => negb (Nat.eqb i l)) (bus_listeners (hass c))
    | None => bus_listeners (hass c)
    end.
Proof.
  unfold remove_listeners. mstep.
  destruct (_config_listener (self c)); mstep;
    destruct (_update_events_listener (self c)); mstep;
    destruct (_update_body_position_listener (self c)); mstep;
    repeat split.
Qed.

Lemma settled_listener_ready (b : CelestialBody) k h :
  settled b -> listener k b = Some h -> ready b.
Proof.
  intros [Hr | (He & Hp & _)] Hk; [exact Hr|]. destruct k; cbn in Hk; congruence.
Qed.

(** The entity that owns a pending timer is tracking. *)
Lemma pending_owner_ready s t :
  session_invariant s -> all_settled s -> In t (timers (sys_hass s)) ->
  exists b, nth_error (bodies s) (t_owner t) = Some b /\ ready b.
Proof.
  intros (_ & _ & _ & Hheld) Hset Hin.
  destruct (Hheld t Hin) as (b & Hb & Hl). exists b. split; [exact Hb|].
  exact (settled_listener_ready b _ _ (Hset _ _ Hb) Hl).
Qed.

Lemma nth_error_list_set_in {A} (l : list A) i j x y :
  nth_error (list_set i x l) j = Some y ->
  (j = i /\ y = x) \/ (j <> i /\ nth_error l j = Some y).
Proof.
  intros H. destruct (Nat.eq_dec j i) as [-> | Hne].
  - left. split; [reflexivity|].
    destruct (nth_error l i) as [z|] eqn:Hz.
    + rewrite (nth_error_list_set_eq _ _ _ _ Hz) in H. congruence.
    + exfalso. apply nth_error_None in Hz.
      assert (Hn : nth_error (list_set i x l) i = None)
        by (apply nth_error_None; rewrite length_list_set; exact Hz).
      congruence.
  - right. split; [exact Hne|]. rewrite nth_error_list_set_neq in H by exact Hne.
    exact H.
Qed.

(** The state in which the callback of a fired timer runs. *)
Lemma fired_invariant t s :
  session_invariant s -> In t (timers (sys_hass s)) ->
  session_invariant (fired t s) /\
  no_pending (t_owner t) (t_action t) (fired t s).
Proof.
  intros (Hr & Hnd & Hlt & Hheld) Hin. split.
  - split; [|split; [|split]]; unfold fired;
      cbn [sys_hass bodies timers log next_handle add_log set_timers].
    + rewrite replay_snoc, Hr. reflexivity.
    + apply NoDup_remove_timer, Hnd.
    + intros t' Hin'. apply In_remove_timer in Hin' as [Hin' _]. auto.
    + intros t' Hin'. apply In_remove_timer in Hin' as [Hin' _]. auto.
  - intros t' Hin' Ho Ha. cbn in Hin'.
    apply In_remove_timer in Hin' as [Hin' Hne]. apply Hne.
    destruct (Hheld t Hin) as (b & Hb & Hl).
    destruct (Hheld t' Hin') as (b' & Hb' & Hl').
    rewrite Ho, Hb in Hb'. injection Hb' as <-.
    rewrite Ha, Hl in Hl'. congruence.
Qed.

Lemma fired_sound t s :
  sound s -> In t (timers (sys_hass s)) -> sound (fired t s).
Proof.
  intros (Hinv & Ho & Hset & Hsub) Hin.
  split; [exact (proj1 (fired_invariant t s Hinv Hin))|].
  split; [exact (fired_handles_owned t s Ho)|]. split; assumption.
Qed.

(** A timer other than the fired one is still pending. *)
Lemma In_fired t t' s :
  session_invariant s -> In t (timers (sys_hass s)) ->
  In t' (timers (sys_hass s)) -> t' <> t ->
  In t' (timers (sys_hass (fired t s))).
Proof.
  intros (_ & Hnd & _) Hin Hin' Hne. cbn. apply In_remove_timer.
  split; [exact Hin'|]. intros Hh. apply Hne.
  exact (NoDup_map_inj t_handle _ _ _ Hnd Hin' Hin Hh).
Qed.

(** One method of one entity, in a sound session. *)
Lemma run_on_sound j (m : M unit) s (fe fp : bool) :
  sound s ->
  (fe = true -> no_pending j Run_update_events s) ->
  (fp = true -> no_pending j Run_update_body_position s) ->
  (forall O ph, vhoare (sched O j fe fp ph) m (sched O j false false ph)) ->
  (forall T0 N0, vhoare (apart T0 N0 j) m (apart T0 N0 j)) ->
  (forall b, nth_error (bodies s) j = Some b ->
     let c' := snd (m {| hass := sys_hass s; self_id := j; self := b |}) in
     settled (self c') /\ _config_listener (self c') = _config_listener b) ->
  sound (run_on j m s) /\
  (forall i, i <> j -> untouched i s (run_on j m s)) /\
  length (bodies (run_on j m s)) = length (bodies s).
Proof.
  intros (Hinv & Ho & Hset & Hsub) He Hp Hsched Hapart Hsettled.
  destruct (run_on_invariant j m s fe fp Hinv He Hp Hsched) as [Hinv' _].
  destruct (run_on_apart j m s Ho Hapart) as (Ho' & Htimers & Hbodies).
  assert (Hun : forall i, i <> j -> untouched i s (run_on j m s)).
  { intros i Hne. split; [exact (Hbodies i Hne)|].
    intros t Hto. apply Htimers. congruence. }
  destruct (nth_error (bodies s) j) as [b|] eqn:Hb.
  2:{ unfold run_on in *. rewrite Hb in *.
      split; [split; [exact Hinv|split; [exact Ho|split; assumption]]|].
      split; [exact Hun|reflexivity]. }
  destruct (Hsettled b eq_refl) as [Hsettled' Hcl].
  rewrite (run_on_some _ _ _ _ Hb) in *. cbn [sys_hass bodies] in *.
  split; [|split; [exact Hun|apply length_list_set]].
  split; [exact Hinv'|]. split; [exact Ho'|]. split.
  - intros i bi Hi. apply nth_error_list_set_in in Hi as [[-> ->] | [_ Hi]];
      [exact Hsettled' | exact (Hset _ _ Hi)].
  - intros i bi Hi. apply nth_error_list_set_in in Hi as [[-> ->] | [_ Hi]];
      [|exact (Hsub _ _ Hi)].
    rewrite Hcl. exact (Hsub _ _ Hb).
Qed.

Lemma steady_config_listener {A} (m : M A) c :
  steady m -> _config_listener (self (snd (m c))) = _config_listener (self c).
Proof. intros H. specialize (H c). injection H as _ _ H _. exact H. Qed.

Lemma run_on_bus j (m : M unit) s :
  steady m ->
  bus_listeners (sys_hass (run_on j m s)) = bus_listeners (sys_hass s).
Proof.
  intros H. unfold run_on. destruct (nth_error (bodies s) j) as [b|]; [|reflexivity].
  specialize (H {| hass := sys_hass s; self_id := j; self := b |}).
  injection H as _ _ _ H. exact H.
Qed.

(** ** One input at a time *)

Lemma carried_refl s : carried s s.
Proof. split; [lia|]. intros i b Hb Hr. eauto. Qed.

Lemma carried_trans s1 s2 s3 : carried s1 s2 -> carried s2 s3 -> carried s1 s3.
Proof.
  intros [L12 H12] [L23 H23]. split; [lia|]. intros i b Hb Hr.
  destruct (H12 i b Hb Hr) as (b' & Hb' & Hr'). eauto.
Qed.

Lemma untouched_refl i s : untouched i s s.
Proof. split; [reflexivity|]. intros t _. reflexivity. Qed.

Lemma untouched_trans i s1 s2 s3 :
  untouched i s1 s2 -> untouched i s2 s3 -> untouched i s1 s3.
Proof.
  intros [B12 T12] [B23 T23]. split; [congruence|].
  intros t Ht. rewrite (T23 t Ht). apply T12, Ht.
Qed.

Lemma untouched_chained i s s' : untouched i s s' -> chained i s -> chained i s'.
Proof.
  intros [Hb Ht] Hch b Hb' Hr. rewrite Hb in Hb'.
  destruct (Hch b Hb' Hr) as (t & Hin & Ho & Ha).
  exists t. split; [apply Ht; assumption | auto].
Qed.

Lemma untouched_ready i s s' b :
  untouched i s s' -> nth_error (bodies s) i = Some b -> ready b ->
  exists b', nth_error (bodies s') i = Some b' /\ ready b'.
Proof. intros [Hb _] Hi Hr. exists b. rewrite Hb. auto. Qed.

Lemma untouched_silent i s s' :
  untouched i s s' ->
  (forall x, In x (bus_listeners (sys_hass s')) ->
             In x (bus_listeners (sys_hass s)) \/ x <> i) ->
  silent i s -> silent i s'.
Proof.
  intros [_ Ht] Hbus [Hs Hn]. split.
  - intros t Hin Ho. apply (Hs t); [apply Ht; assumption | exact Ho].
  - intros Hin. destruct (Hbus _ Hin) as [H | H]; [exact (Hn H) | exact (H eq_refl)].
Qed.

Lemma update_location_step sky j initial s :
  sound s ->
  sound (run_on j (update_location sky initial) s) /\
  carried s (run_on j (update_location sky initial) s) /\
  (forall i, chained i s -> chained i (run_on j (update_location sky initial) s)) /\
  (forall i, i <> j -> untouched i s (run_on j (update_location sky initial) s)) /\
  bus_listeners (sys_hass (run_on j (update_location sky initial) s)) =
    bus_listeners (sys_hass s).
Proof.
  intros Hs. pose proof Hs as (Hinv & Ho & Hset & Hsub).
  destruct (run_on_sound j (update_location sky initial) s false false Hs)
    as (Hs' & Hun & Hlen); try discriminate.
  { intros O ph. apply vhoare_update_location. }
  { intros T0 N0. apply vhoare_update_location_apart. }
  { intros b Hb. cbv zeta. split; [|apply steady_config_listener, steady_update_location].
    destruct (update_location_settled sky
                {| hass := sys_hass s; self_id := j; self := b |} initial
                (Hset _ _ Hb)) as (c' & -> & Hcase).
    destruct Hcase as [(_ & Hsame & _) | [(_ & Hr & _) | (_ & _ & _ & H1 & H2 & H3 & _)]].
    - rewrite Hsame. exact (Hset _ _ Hb).
    - left. exact Hr.
    - right. auto. }
  split; [exact Hs'|].
  split; [|split; [|split; [exact Hun | apply run_on_bus, steady_update_location]]].
  - split; [rewrite Hlen; lia|]. intros i b Hb Hr.
    destruct (Nat.eq_dec i j) as [-> | Hne];
      [|exact (untouched_ready i _ _ b (Hun i Hne) Hb Hr)].
    rewrite (run_on_some _ _ _ _ Hb). cbn [bodies].
    eexists. split; [exact (nth_error_list_set_eq _ _ _ _ Hb)|].
    destruct (update_location_settled sky
                {| hass := sys_hass s; self_id := j; self := b |} initial
                (Hset _ _ Hb)) as (c' & -> & Hcase).
    destruct Hcase as [(_ & Hsame & _) | [(_ & Hr' & _) | (_ & Hd & _)]].
    + rewrite Hsame. exact Hr.
    + exact Hr'.
    + exfalso. destruct Hr as ((loc & elev & tg & (_ & _ & Hd')) & _).
      cbn [self] in Hd. congruence.
  - intros i Hch. destruct (Nat.eq_dec i j) as [-> | Hne];
      [|exact (untouched_chained i _ _ (Hun i Hne) Hch)].
    intros b' Hb' Hr'.
    destruct (nth_error (bodies s) j) as [b|] eqn:Hb.
    2:{ unfold run_on in *. rewrite Hb in *. congruence. }
    rewrite (run_on_some _ _ _ _ Hb) in *. cbn [bodies sys_hass] in *.
    rewrite (nth_error_list_set_eq _ _ _ _ Hb) in Hb'. injection Hb' as <-.
    destruct (update_location_settled sky
                {| hass := sys_hass s; self_id := j; self := b |} initial
                (Hset _ _ Hb)) as (c' & Hc' & Hcase).
    rewrite Hc' in *. cbn [self self_id hass] in Hcase.
    destruct Hcase as [(_ & Hsame & Ht & _) | [(_ & _ & h & nc & _ & Hin)
                                          | (_ & Hd & Hobj & _)]].
    + rewrite Ht. apply (Hch b Hb). rewrite <- Hsame. exact Hr'.
    + eexists. split; [exact Hin|]. split; reflexivity.
    + exfalso. destruct Hr' as ((loc & elev & tg & (_ & _ & Hd')) & _).
      rewrite Hobj in Hd'. congruence.
Qed.

Lemma callback_ready sky k (c : Ctx) :
  ready (self c) ->
  exists c',
    callback sky k c = (Ok tt, c') /\ ready (self c') /\
    match k with
    | Run_update_events =>
        exists h nc,
          In {| t_handle := h; t_owner := self_id c;
                t_action := Run_update_events; t_point := nc |} (timers (hass c'))
    | Run_update_body_position =>
        forall t, In t (timers (hass c)) -> In t (timers (hass c'))
    end.
Proof.
  intros Hr. destruct k; cbn [callback].
  - destruct (update_events_ready sky c Hr) as (c' & h & nc & Hrun & Hr' & _ & Hin).
    exists c'. split; [exact Hrun|]. split; [exact Hr'|]. eauto.
  - destruct (update_body_position_ready sky c Hr) as (c' & Hrun & Hr' & Hin).
    exists c'. auto.
Qed.

Lemma vhoare_callback sky O i ph k :
  vhoare (sched O i (Action_eqb k Run_update_events)
            (Action_eqb k Run_update_body_position) ph)
         (callback sky k) (sched O i false false ph).
Proof.
  destruct k; cbn [callback Action_eqb].
  - apply vhoare_update_events.
  - apply vhoare_update_body_position.
Qed.

Lemma fire_step sky t s :
  sound s -> In t (timers (sys_hass s)) ->
  sound (fire sky t s) /\
  carried s (fire sky t s) /\
  (forall i, chained i s -> chained i (fire sky t s)) /\
  (forall i, i <> t_owner t -> untouched i s (fire sky t s)) /\
  bus_listeners (sys_hass (fire sky t s)) = bus_listeners (sys_hass s) /\
  fire_result sky t s = Some (Ok tt).
Proof.
  intros Hs Hin. pose proof Hs as (Hinv & Ho & Hset & Hsub).
  pose proof (fired_sound t s Hs Hin) as Hs1.
  destruct (fired_invariant t s Hinv Hin) as [_ Hidle].
  destruct (pending_owner_ready s t Hinv Hset Hin) as (b & Hb & Hr).
  destruct (callback_ready sky (t_action t)
              {| hass := sys_hass (fired t s); self_id := t_owner t; self := b |} Hr)
    as (c' & Hrun & Hr' & Hk).
  assert (Hb1 : nth_error (bodies (fired t s)) (t_owner t) = Some b) by exact Hb.
  rewrite fire_callback.
  destruct (run_on_sound (t_owner t) (callback sky (t_action t)) (fired t s)
              (Action_eqb (t_action t) Run_update_events)
              (Action_eqb (t_action t) Run_update_body_position) Hs1)
    as (Hs' & Hun & Hlen).
  { intros H. destruct (t_action t); [exact Hidle | discriminate]. }
  { intros H. destruct (t_action t); [discriminate | exact Hidle]. }
  { intros O ph. apply vhoare_callback. }
  { intros T0 N0. destruct (t_action t); cbn [callback];
      [apply vhoare_update_events_apart | apply vhoare_update_body_position_apart]. }
  { intros b0 Hb0. rewrite Hb1 in Hb0. injection Hb0 as <-. cbv zeta.
    split; [rewrite Hrun; left; exact Hr' | apply steady_config_listener, steady_callback]. }
  assert (Hun' : forall i, i <> t_owner t ->
            untouched i s (run_on (t_owner t) (callback sky (t_action t)) (fired t s))).
  { intros i Hne. apply (untouched_trans i s (fired t s)); [|exact (Hun i Hne)].
    split; [reflexivity|]. intros t' Ho'. split.
    - intros H. cbn in H. apply In_remove_timer in H as [H _]. exact H.
    - intros H. apply In_fired; try assumption. congruence. }
  split; [exact Hs'|]. split; [|split; [|split; [exact Hun'|split]]].
  - split; [rewrite Hlen; cbn; lia|]. intros i bi Hbi Hri.
    destruct (Nat.eq_dec i (t_owner t)) as [-> | Hne];
      [|exact (untouched_ready i _ _ bi (Hun' i Hne) Hbi Hri)].
    rewrite (run_on_some _ _ _ _ Hb1), Hrun. cbn [bodies snd].
    eexists. split; [exact (nth_error_list_set_eq _ _ _ _ Hb1) | exact Hr'].
  - intros i Hch. destruct (Nat.eq_dec i (t_owner t)) as [-> | Hne];
      [|exact (untouched_chained i _ _ (Hun' i Hne) Hch)].
    intros b' Hb' _. rewrite (run_on_some _ _ _ _ Hb1), Hrun. cbn [sys_hass snd].
    destruct (t_action t) eqn:Ha.
    + destruct Hk as (h & nc & Hin'). eexists. split; [exact Hin'|].
      split; reflexivity.
    + destruct (Hch b Hb Hr) as (te & Hine & Hoe & Hae).
      exists te. split; [|auto]. apply Hk. cbn [hass]. apply In_fired; try assumption.
      congruence.
  - rewrite run_on_bus by apply steady_callback. reflexivity.
  - unfold fire_result, run_result. rewrite Hb1, Hrun. reflexivity.
Qed.

Lemma remove_listeners_step j s :
  sound s ->
  sound (run_on j remove_listeners s) /\
  carried s (run_on j remove_listeners s) /\
  (forall i, i <> j -> untouched i s (run_on j remove_listeners s)) /\
  nth_error (bodies (run_on j remove_listeners s)) j = nth_error (bodies s) j /\
  (forall x, In x (bus_listeners (sys_hass (run_on j remove_listeners s))) ->
             In x (bus_listeners (sys_hass s))) /\
  ((j < length (bodies s))%nat -> silent j (run_on j remove_listeners s)).
Proof.
  intros Hs. pose proof Hs as (Hinv & Ho & Hset & Hsub).
  destruct (run_on_sound j remove_listeners s false false Hs)
    as (Hs' & Hun & Hlen); try discriminate.
  { intros O ph. apply vhoare_remove_listeners. }
  { intros T0 N0. apply vhoare_remove_listeners_apart. }
  { intros b Hb. cbv zeta.
    destruct (remove_listeners_self {| hass := sys_hass s; self_id := j; self := b |})
      as (_ & -> & _). split; [exact (Hset _ _ Hb) | reflexivity]. }
  split; [exact Hs'|].
  destruct (nth_error (bodies s) j) as [b|] eqn:Hb.
  2:{ unfold run_on in *. rewrite Hb in *.
      split; [apply carried_refl|]. split; [exact Hun|]. split; [exact Hb|].
      split; [auto|]. intros Hlt. apply nth_error_None in Hb. lia. }
  destruct (remove_listeners_self {| hass := sys_hass s; self_id := j; self := b |})
    as (_ & Hself & Htimers & Hbus).
  cbn [self hass] in Hself, Htimers, Hbus. rewrite (Hsub _ _ Hb) in Hbus.
  assert (Hbj : nth_error (bodies (run_on j remove_listeners s)) j = Some b).
  { rewrite (run_on_some _ _ _ _ Hb). cbn [bodies]. rewrite Hself.
    exact (nth_error_list_set_eq _ _ _ _ Hb). }
  split; [|split; [exact Hun|split; [exact Hbj|split]]].
  - split; [rewrite Hlen; lia|]. intros i bi Hbi Hri.
    destruct (Nat.eq_dec i j) as [-> | Hne];
      [|exact (untouched_ready i _ _ bi (Hun i Hne) Hbi Hri)].
    rewrite Hb in Hbi. injection Hbi as <-. eauto.
  - intros x. rewrite (run_on_some _ _ _ _ Hb). cbn [sys_hass]. rewrite Hbus.
    intros H. apply filter_In in H as [H _]. exact H.
  - intros _. split.
    + intros t Hin Hto. destruct Hs' as ((_ & _ & _ & Hheld) & _).
      destruct (Hheld t Hin) as (b' & Hb' & Hl). rewrite Hto, Hbj in Hb'.
      injection Hb' as <-.
      rewrite (run_on_some _ _ _ _ Hb) in Hin. cbn [sys_hass] in Hin.
      rewrite Htimers in Hin.
      destruct (t_action t); cbn [listener] in Hl; rewrite Hl in Hin.
      * destruct (_update_body_position_listener b);
          [apply In_remove_timer in Hin as [Hin _]|];
          apply In_remove_timer in Hin as [_ Hne]; apply Hne; reflexivity.
      * apply In_remove_timer in Hin as [_ Hne]; apply Hne; reflexivity.
    + rewrite (run_on_some _ _ _ _ Hb). cbn [sys_hass]. rewrite Hbus.
      intros H. apply filter_In in H as [_ H]. rewrite Nat.eqb_refl in H.
      discriminate.
Qed.

Lemma new_body_step obj s :
  sound s ->
  sound (CelestialBody_init obj s) /\
  carried s (CelestialBody_init obj s) /\
  (forall i, chained i s -> chained i (CelestialBody_init obj s)) /\
  (forall i, (i < length (bodies s))%nat -> untouched i s (CelestialBody_init obj s)) /\
  bus_listeners (sys_hass (CelestialBody_init obj s)) =
    bus_listeners (sys_hass s) ++ [length (bodies s)].
Proof.
  intros (Hinv & Ho & Hset & Hsub).
  assert (Hnew : forall i b, nth_error (bodies (CelestialBody_init obj s)) i = Some b ->
            nth_error (bodies s) i = Some b \/
            (i = length (bodies s) /\ _config_listener b = Some i /\
             settled b /\ ~ ready b)).
  { intros i b Hb. cbn [CelestialBody_init bodies] in Hb.
    destruct (Nat.lt_ge_cases i (length (bodies s))) as [Hi | Hi].
    - left. rewrite nth_error_app1 in Hb by exact Hi. exact Hb.
    - right. rewrite nth_error_app2 in Hb by exact Hi.
      destruct (i - length (bodies s))%nat as [|n] eqn:Hn; cbn in Hb;
        [|destruct n; discriminate].
      injection Hb as <-. assert (i = length (bodies s)) by lia. subst i.
      split; [reflexivity|]. split; [reflexivity|]. split.
      + right. repeat split.
      + intros ((loc & elev & tg & (Hl & _)) & _). discriminate. }
  assert (Hold : forall i, (i < length (bodies s))%nat ->
            untouched i s (CelestialBody_init obj s)).
  { intros i Hi. split; [|intros t _; reflexivity].
    cbn [CelestialBody_init bodies]. apply nth_error_app1, Hi. }
  split; [|split; [|split; [|split; [exact Hold | reflexivity]]]].
  - split; [exact (proj1 (new_body_invariant obj s Hinv))|].
    split; [exact (new_body_handles_owned obj s Ho)|]. split.
    + intros i b Hb. destruct (Hnew i b Hb) as [H | (_ & _ & H & _)];
        [exact (Hset _ _ H) | exact H].
    + intros i b Hb. destruct (Hnew i b Hb) as [H | (_ & H & _)];
        [exact (Hsub _ _ H) | exact H].
  - split; [cbn [CelestialBody_init bodies]; rewrite length_app; lia|].
    intros i b Hb Hr. apply (untouched_ready i s _ b); try assumption.
    apply Hold. apply nth_error_Some. congruence.
  - intros i Hch b Hb Hr. destruct (Hnew i b Hb) as [H | (_ & _ & _ & H)];
      [exact (Hch b H Hr) | contradiction].
Qed.

Lemma config_update_step sky (l : list nat) s :
  sound s ->
  sound (fold_left (fun s i => run_on i (update_location sky false) s) l s) /\
  carried s (fold_left (fun s i => run_on i (update_location sky false) s) l s) /\
  (forall i, chained i s ->
     chained i (fold_left (fun s i => run_on i (update_location sky false) s) l s)) /\
  (forall i, ~ In i l ->
     untouched i s (fold_left (fun s i => run_on i (update_location sky false) s) l s)) /\
  bus_listeners
    (sys_hass (fold_left (fun s i => run_on i (update_location sky false) s) l s)) =
    bus_listeners (sys_hass s).
Proof.
  revert s. induction l as [|j l IH]; intros s Hs; cbn [fold_left].
  - split; [exact Hs|]. split; [apply carried_refl|]. split; [auto|].
    split; [intros i _; apply untouched_refl | reflexivity].
  - destruct (update_location_step sky j false s Hs) as (H1 & H2 & H3 & H4 & H5).
    destruct (IH _ H1) as (K1 & K2 & K3 & K4 & K5).
    split; [exact K1|]. split; [exact (carried_trans _ _ _ H2 K2)|].
    split; [intros i Hch; exact (K3 i (H3 i Hch))|]. split.
    + intros i Hni.
      apply (untouched_trans i s (run_on j (update_location sky false) s)).
      * apply H4. intros ->. apply Hni. left. reflexivity.
      * apply K4. intros Hin. apply Hni. right. exact Hin.
    + rewrite K5. exact H5.
Qed.

(** What one input does to a sound session. *)
Lemma handle_step sky s (inp : Input) :
  sound s ->
  sound (handle sky s inp) /\
  carried s (handle sky s inp) /\
  (forall i, inp <> In_remove_listeners i ->
     chained i s -> chained i (handle sky s inp)) /\
  (forall i, (i < length (bodies s))%nat -> avoids i inp -> silent i s ->
     untouched i s (handle sky s inp) /\ silent i (handle sky s inp)).
Proof.
  intros Hs. destruct inp as [obj | j | cfg | h | j]; cbn [handle avoids].
  - destruct (new_body_step obj s Hs) as (H1 & H2 & H3 & H4 & H5).
    split; [exact H1|]. split; [exact H2|]. split; [intros i _; apply H3|].
    intros i Hi _ Hsil. split; [exact (H4 i Hi)|].
    apply (untouched_silent i s); [exact (H4 i Hi) | | exact Hsil].
    intros x Hx. rewrite H5 in Hx. apply in_app_iff in Hx as [Hx | [<- | []]];
      [left; exact Hx | right; lia].
  - destruct (update_location_step sky j true s Hs) as (H1 & H2 & H3 & H4 & H5).
    split; [exact H1|]. split; [exact H2|]. split; [intros i _; apply H3|].
    intros i _ Hne Hsil. assert (Hij : i <> j) by congruence.
    split; [exact (H4 i Hij)|].
    apply (untouched_silent i s); [exact (H4 i Hij) | | exact Hsil].
    intros x Hx. rewrite H5 in Hx. left. exact Hx.
  - set (s0 := {| sys_hass := set_config cfg (sys_hass s); bodies := bodies s |}).
    assert (Hs0 : sound s0) by exact Hs.
    destruct (config_update_step sky (bus_listeners (sys_hass s)) s0 Hs0)
      as (H1 & H2 & H3 & H4 & H5).
    split; [exact H1|]. split; [exact H2|].
    split; [intros i _ Hch; exact (H3 i Hch)|].
    intros i _ _ Hsil. pose proof (H4 i (proj2 Hsil)) as Hun.
    split; [exact Hun|].
    apply (untouched_silent i s0); [exact Hun | | exact Hsil].
    intros x Hx. rewrite H5 in Hx. left. exact Hx.
  - destruct (find_timer h (timers (sys_hass s))) as [t|] eqn:Hf.
    2:{ split; [exact Hs|]. split; [apply carried_refl|]. split; [auto|].
        intros i _ _ Hsil. split; [apply untouched_refl | exact Hsil]. }
    apply find_timer_some in Hf as [Hin _].
    destruct (fire_step sky t s Hs Hin) as (H1 & H2 & H3 & H4 & H5 & _).
    split; [exact H1|]. split; [exact H2|]. split; [intros i _; apply H3|].
    intros i _ _ Hsil. assert (Hne : i <> t_owner t).
    { intros ->. exact (proj1 Hsil t Hin eq_refl). }
    split; [exact (H4 i Hne)|].
    apply (untouched_silent i s); [exact (H4 i Hne) | | exact Hsil].
    intros x Hx. rewrite H5 in Hx. left. exact Hx.
  - destruct (remove_listeners_step j s Hs) as (H1 & H2 & H3 & H4 & H5 & _).
    split; [exact H1|]. split; [exact H2|]. split.
    + intros i Hne. apply untouched_chained, H3. congruence.
    + intros i _ Hne Hsil. assert (Hij : i <> j) by congruence.
      split; [exact (H3 i Hij)|].
      apply (untouched_silent i s); [exact (H3 i Hij) | | exact Hsil].
      intros x Hx. left. exact (H5 x Hx).
Qed.

Lemma initial_sound cfg : sound (initial_system cfg).
Proof.
  split; [apply initial_invariant|]. split; [apply initial_handles_owned|].
  split; intros [|i] b Hb; discriminate.
Qed.

Lemma fold_handle_sound sky inputs s :
  sound s ->
  sound (fold_left (handle sky) inputs s) /\
  carried s (fold_left (handle sky) inputs s).
Proof.
  revert s. induction inputs as [|inp inputs IH]; intros s Hs; cbn [fold_left].
  - split; [exact Hs | apply carried_refl].
  - destruct (handle_step sky s inp Hs) as (H1 & H2 & _).
    destruct (IH _ H1) as [K1 K2].
    split; [exact K1 | exact (carried_trans _ _ _ H2 K2)].
Qed.

Lemma session_sound sky cfg inputs : sound (run_session sky cfg inputs).
Proof. exact (proj1 (fold_handle_sound sky inputs _ (initial_sound cfg))). Qed.

(** ** Sessions *)

(** X12. In every state a session can reach, whichever pending timer
    fires, its callback returns normally: an event or position
    recomputation started by a timer never meets an unset location,
    elevation, horizon or phase, nor a body that [BODIES_DICT] does not
    know. *)
Theorem timer_callbacks_never_raise sky cfg (inputs : list Input) (t : Timer) :
  In t (timers (sys_hass (run_session sky cfg inputs))) ->
  fire_result sky t (run_session sky cfg inputs) = Some (Ok tt).
Proof.
  intros Hin.
  exact (proj2 (proj2 (proj2 (proj2 (proj2
           (fire_step sky t _ (session_sound sky cfg inputs) Hin)))))).
Qed.

Lemma timer_callbacks_never_raise_witness :
  fire_result sky_venus venus_event_timer
    (run_session sky_venus cfg_origin inputs_venus) = Some (Ok tt).
Proof.
  apply timer_callbacks_never_raise. vm_compute. right. left. reflexivity.
Defined.



Lemma fold_handle_chained sky i inputs s :
  sound s -> chained i s ->
  Forall (fun inp => inp <> In_remove_listeners i) inputs ->
  chained i (fold_left (handle sky) inputs s).
Proof.
  revert s. induction inputs as [|inp inputs IH]; intros s Hs Hch Hall;
    cbn [fold_left]; [exact Hch|].
  inversion Hall as [|? ? Hinp Hrest]; subst.
  destruct (handle_step sky s inp Hs) as (H1 & _ & H3 & _).
  apply IH; [exact H1 | exact (H3 i Hinp Hch) | exact Hrest].
Qed.

(** X14. As long as [remove_listeners] has not been called on an entity,
    the chain of its event recomputations never breaks: once it has a
    next rising, exactly one event timer of the entity is pending, and
    it is the one whose handle the entity holds. *)
Theorem tracking_never_stops sky cfg (inputs : list Input) (i : nat)
    (b : CelestialBody) :
  let s := run_session sky cfg inputs in
  Forall (fun inp => inp <> In_remove_listeners i) inputs ->
  nth_error (bodies s) i = Some b ->
  next_rising b <> None ->
  exists t,
    In t (timers (sys_hass s)) /\ t_owner t = i /\
    t_action t = Run_update_events /\
    _update_events_listener b = Some (t_handle t) /\
    forall t', In t' (timers (sys_hass s)) -> t_owner t' = i ->
               t_action t' = Run_update_events -> t' = t.
Proof.
  cbv zeta. intros Hall Hb Hnr.
  pose proof (session_sound sky cfg inputs) as Hs.
  assert (Hch : chained i (run_session sky cfg inputs)).
  { unfold run_session. apply fold_handle_chained; [apply initial_sound | | exact Hall].
    intros b0 Hb0. destruct i; discriminate. }
  set (s := run_session sky cfg inputs) in *.
  destruct Hs as ((_ & Hnd & _ & Hheld) & _ & Hset & _).
  assert (Hr : ready b).
  { destruct (Hset _ _ Hb) as [Hr | (_ & _ & Hn)]; [exact Hr | contradiction]. }
  destruct (Hch b Hb Hr) as (t & Hin & Ho & Ha).
  assert (Hl : forall t', In t' (timers (sys_hass s)) -> t_owner t' = i ->
             t_action t' = Run_update_events ->
             _update_events_listener b = Some (t_handle t')).
  { intros t' Hin' Ho' Ha'. destruct (Hheld t' Hin') as (b' & Hb' & Hl').
    rewrite Ho', Hb in Hb'. injection Hb' as <-. rewrite Ha' in Hl'. exact Hl'. }
  exists t. split; [exact Hin|]. split; [exact Ho|]. split; [exact Ha|].
  split; [exact (Hl t Hin Ho Ha)|].
  intros t' Hin' Ho' Ha'.
  apply (NoDup_map_inj t_handle _ _ _ Hnd Hin' Hin).
  pose proof (Hl t Hin Ho Ha). pose proof (Hl t' Hin' Ho' Ha'). congruence.
Qed.

Lemma tracking_never_stops_witness :
  let s := run_session sky_venus cfg_origin inputs_two in
  exists b t,
    nth_error (bodies s) 1 = Some b /\
    In t (timers (sys_hass s)) /\ t_owner t = 1%nat /\
    t_action t = Run_update_events /\
    _update_events_listener b = Some (t_handle t) /\
    forall t', In t' (timers (sys_hass s)) -> t_owner t' = 1%nat ->
               t_action t' = Run_update_events -> t' = t.
Proof.
  cbv zeta.
  destruct (nth_error (bodies (run_session sky_venus cfg_origin inputs_two)) 1)
    as [b|] eqn:Hb; [|vm_compute in Hb; discriminate].
  destruct (tracking_never_stops sky_venus cfg_origin inputs_two 1 b)
    as (t & Ht).
  - repeat constructor; discriminate.
  - exact Hb.
  - vm_compute in Hb. injection Hb as <-. discriminate.
  - exists b, t. split; [reflexivity | exact Ht].
Defined.

Lemma fold_handle_silent sky i rest s :
  sound s -> (i < length (bodies s))%nat -> silent i s ->
  Forall (avoids i) rest ->
  untouched i s (fold_left (handle sky) rest s) /\
  silent i (fold_left (handle sky) rest s).
Proof.
  revert s. induction rest as [|inp rest IH]; intros s Hs Hi Hsil Hall;
    cbn [fold_left]; [split; [apply untouched_refl | exact Hsil]|].
  inversion Hall as [|? ? Hinp Hrest]; subst.
  destruct (handle_step sky s inp Hs) as (H1 & [Hlen _] & _ & H4).
  destruct (H4 i Hi Hinp Hsil) as [Hun Hsil'].
  destruct (IH _ H1 ltac:(lia) Hsil' Hrest) as [K1 K2].
  split; [exact (untouched_trans _ _ _ _ Hun K1) | exact K2].
Qed.

(** X15. Once [remove_listeners] has run on an entity, the entity stays
    out of the game whatever happens to the others: it has no pending
    timer, it is not told about changes of the configuration, and it is
    exactly as [remove_listeners] found it, as long as none of its
    methods is called from outside again. *)
Theorem removed_entity_stays_silent sky cfg (inputs rest : list Input) (i : nat)
    (b : CelestialBody) :
  let s := run_session sky cfg inputs in
  let s' := fold_left (handle sky) rest (handle sky s (In_remove_listeners i)) in
  nth_error (bodies s) i = Some b ->
  Forall (avoids i) rest ->
  nth_error (bodies s') i = Some b /\
  (forall t, In t (timers (sys_hass s')) -> t_owner t <> i) /\
  ~ In i (bus_listeners (sys_hass s')).
Proof.
  cbv zeta. intros Hb Hall.
  pose proof (session_sound sky cfg inputs) as Hs.
  set (s := run_session sky cfg inputs) in *.
  assert (Hi : (i < length (bodies s))%nat) by (apply nth_error_Some; congruence).
  destruct (remove_listeners_step i s Hs) as (H1 & [Hlen _] & _ & Hbi & _ & Hsil).
  cbn [handle].
  destruct (fold_handle_silent sky i rest _ H1 ltac:(lia) (Hsil Hi) Hall)
    as [[Hbody _] [Ht Hbus]].
  split; [congruence|]. split; assumption.
Qed.

Lemma removed_entity_stays_silent_witness :
  let s := run_session sky_venus cfg_origin inputs_two in
  let s' := fold_left (handle sky_venus) [In_config_update cfg_north; In_timer 3]
              (handle sky_venus s (In_remove_listeners 0)) in
  nth_error (bodies s') 0 = nth_error (bodies s) 0 /\
  (forall t, In t (timers (sys_hass s')) -> t_owner t <> 0%nat) /\
  ~ In 0%nat (bus_listeners (sys_hass s')).
Proof.
  cbv zeta.
  destruct (nth_error (bodies (run_session sky_venus cfg_origin inputs_two)) 0)
    as [b|] eqn:Hb; [|vm_compute in Hb; discriminate].
  apply (removed_entity_stays_silent sky_venus cfg_origin inputs_two
           [In_config_update cfg_north; In_timer 3] 0 b Hb).
  repeat constructor.
Defined.

Lemma ready_readable (b : CelestialBody) :
  ready b ->
  (exists st, state b = Ok st) /\ extra_state_attributes b = Ok (observe b).
Proof.
  intros (_ & _ & _ & (r & Hr) & (s & Hs) & (e & He) & _). split.
  - unfold state. rewrite He. destruct (Qgt_bool _ _); eauto.
  - unfold extra_state_attributes. rewrite Hr, Hs. reflexivity.
Qed.

(** X16. What an entity has computed once it never loses: from the
    moment it has a next rising, in every later state of the session it
    has its location, elevation, phase, horizon, both events and its
    position, so that its state and its attributes can always be
    read. *)
Theorem tracking_is_permanent sky cfg (inputs rest : list Input) (i : nat)
    (b : CelestialBody) :
  nth_error (bodies (run_session sky cfg inputs)) i = Some b ->
  next_rising b <> None ->
  exists b',
    nth_error (bodies (run_session sky cfg (inputs ++ rest))) i = Some b' /\
    ready b' /\
    (exists st, state b' = Ok st) /\
    extra_state_attributes b' = Ok (observe b').
Proof.
  intros Hb Hnr.
  pose proof (session_sound sky cfg inputs) as Hs.
  rewrite run_session_app.
  destruct (fold_handle_sound sky rest _ Hs) as [_ [_ Hc]].
  pose proof Hs as (_ & _ & Hset & _).
  assert (Hr : ready b).
  { destruct (Hset _ _ Hb) as [Hr | (_ & _ & Hn)]; [exact Hr | contradiction]. }
  destruct (Hc i b Hb Hr) as (b' & Hb' & Hr').
  exists b'. split; [exact Hb'|]. split; [exact Hr'|]. apply ready_readable, Hr'.
Qed.

Lemma tracking_is_permanent_witness :
  exists b',
    nth_error (bodies (run_session sky_venus cfg_origin
                         (inputs_venus ++ [In_config_update cfg_north; In_timer 0])))
              0 = Some b' /\
    ready b' /\
    (exists st, state b' = Ok st) /\
    extra_state_attributes b' = Ok (observe b').
Proof.
  destruct (nth_error (bodies (run_session sky_venus cfg_origin inputs_venus)) 0)
    as [b|] eqn:Hb; [|vm_compute in Hb; discriminate].
  apply (tracking_is_permanent sky_venus cfg_origin inputs_venus
           [In_config_update cfg_north; In_timer 0] 0 b Hb).
  vm_compute in Hb. injection Hb as <-. discriminate.
Defined.

(** ** What an event recomputation cancels *)



(** * The entry and its sensors *)

(** ** Unloading *)

Lemma handle_bus_bounded sky s (inp : Input) :
  sound s -> bus_bounded s -> bus_bounded (handle sky s inp).
Proof.
  intros Hs Hb x Hx.
  destruct inp as [obj | j | cfg | h | j]; cbn [handle] in *.
  - destruct (new_body_step obj s Hs) as (_ & _ & _ & _ & Hbus).
    rewrite Hbus in Hx. cbn [CelestialBody_init bodies]. rewrite length_app. cbn.
    apply in_app_iff in Hx as [Hx | [<- | []]]; [specialize (Hb x Hx)|]; lia.
  - destruct (update_location_step sky j true s Hs) as (_ & [Hlen _] & _ & _ & Hbus).
    rewrite Hbus in Hx. specialize (Hb x Hx). lia.
  - set (s0 := {| sys_hass := set_config cfg (sys_hass s); bodies := bodies s |}) in *.
    assert (Hs0 : sound s0) by exact Hs.
    destruct (config_update_step sky (bus_listeners (sys_hass s)) s0 Hs0)
      as (_ & [Hlen _] & _ & _ & Hbus).
    rewrite Hbus in Hx. specialize (Hb x Hx). cbn [s0 bodies] in Hlen. lia.
  - destruct (find_timer h (timers (sys_hass s))) as [t|] eqn:Hf; [|exact (Hb x Hx)].
    apply find_timer_some in Hf as [Hin _].
    destruct (fire_step sky t s Hs Hin) as (_ & [Hlen _] & _ & _ & Hbus & _).
    rewrite Hbus in Hx. specialize (Hb x Hx). lia.
  - destruct (remove_listeners_step j s Hs) as (_ & [Hlen _] & _ & _ & Hbus & _).
    specialize (Hb x (Hbus x Hx)). lia.
Qed.

Lemma session_bus_bounded sky cfg inputs : bus_bounded (run_session sky cfg inputs).
Proof.
  unfold run_session.
  assert (H : sound (initial_system cfg) /\ bus_bounded (initial_system cfg)).
  { split; [apply initial_sound | intros x []]. }
  revert H. generalize (initial_system cfg).
  induction inputs as [|inp inputs IH]; intros s [Hs Hb]; cbn [fold_left];
    [exact Hb|].
  apply IH. split.
  - exact (proj1 (handle_step sky s inp Hs)).
  - exact (handle_bus_bounded sky s inp Hs Hb).
Qed.

Lemma list_set_same {A} (l : list A) i x :
  nth_error l i = Some x -> list_set i x l = l.
Proof.
  revert i. induction l as [|a l IH]; intros [|i]; cbn; intros H;
    try discriminate.
  - congruence.
  - f_equal. auto.
Qed.

Lemma remove_listeners_bodies j s :
  bodies (run_on j remove_listeners s) = bodies s.
Proof.
  unfold run_on. destruct (nth_error (bodies s) j) as [b|] eqn:Hb; [|reflexivity].
  cbv zeta. cbn [bodies].
  destruct (remove_listeners_self {| hass := sys_hass s; self_id := j; self := b |})
    as (_ & -> & _).
  apply list_set_same. exact Hb.
Qed.

(** After [remove_listeners] on the entities [ids]. *)
Lemma unload_prefix sky s ids :
  sound s ->
  let s' := fold_left (handle sky) (map In_remove_listeners ids) s in
  sound s' /\ bodies s' = bodies s /\
  (forall i, In i ids -> (i < length (bodies s))%nat -> silent i s') /\
  (forall x, In x (bus_listeners (sys_hass s')) -> In x (bus_listeners (sys_hass s))).
Proof.
  intros Hs. induction ids as [|k ids IH] using rev_ind; cbv zeta.
  - cbn. split; [exact Hs|]. split; [reflexivity|]. split; [intros i [] | auto].
  - rewrite map_app, fold_left_app. cbn [map fold_left].
    destruct IH as (H1 & H2 & H3 & H4).
    set (s1 := fold_left (handle sky) (map In_remove_listeners ids) s) in *.
    destruct (remove_listeners_step k s1 H1) as (K1 & _ & _ & _ & K5 & K6).
    destruct (handle_step sky s1 (In_remove_listeners k) H1) as (_ & _ & _ & K4).
    cbn [handle] in *.
    split; [exact K1|]. split; [rewrite remove_listeners_bodies; exact H2|].
    split; [|intros x Hx; exact (H4 x (K5 x Hx))].
    intros i Hin Hi. destruct (Nat.eq_dec i k) as [-> | Hne].
    + apply K6. rewrite H2. exact Hi.
    + apply (K4 i); [rewrite H2; exact Hi | cbn; congruence |].
      apply H3; [|exact Hi]. apply in_app_iff in Hin as [Hin | [Heq | []]];
        [exact Hin | congruence].
Qed.

(** X18. Unloading releases everything: once [remove_listeners] has run
    on every entity, in whatever order and whatever the session did
    before, no timer is pending and nothing is subscribed to
    configuration updates any more; the entities themselves are as they
    were. *)
Theorem unload_releases_everything sky cfg (inputs : list Input) (ids : list nat) :
  let s := run_session sky cfg inputs in
  let s' := fold_left (handle sky) (map In_remove_listeners ids) s in
  (forall i, (i < length (bodies s))%nat -> In i ids) ->
  timers (sys_hass s') = [] /\
  bus_listeners (sys_hass s') = [] /\
  bodies s' = bodies s.
Proof.
  cbv zeta. intros Hall.
  pose proof (session_sound sky cfg inputs) as Hs.
  pose proof (session_bus_bounded sky cfg inputs) as Hb.
  set (s := run_session sky cfg inputs) in *.
  destruct (unload_prefix sky s ids Hs) as (H1 & H2 & H3 & H4).
  set (s' := fold_left (handle sky) (map In_remove_listeners ids) s) in *.
  assert (Ht : forall t, ~ In t (timers (sys_hass s'))).
  { intros t Hin. destruct H1 as ((_ & _ & _ & Hheld) & _).
    destruct (Hheld t Hin) as (b & Hbt & _).
    assert (Hlt : (t_owner t < length (bodies s))%nat).
    { rewrite <- H2. apply nth_error_Some. congruence. }
    exact (proj1 (H3 _ (Hall _ Hlt) Hlt) t Hin eq_refl). }
  assert (Hx : forall x, ~ In x (bus_listeners (sys_hass s'))).
  { intros x Hin. pose proof (Hb x (H4 x Hin)) as Hlt.
    exact (proj2 (H3 x (Hall _ Hlt) Hlt) Hin). }
  split; [|split; [|exact H2]].
  - destruct (timers (sys_hass s')) as [|t ts]; [reflexivity|].
    exfalso. apply (Ht t). left. reflexivity.
  - destruct (bus_listeners (sys_hass s')) as [|x xs]; [reflexivity|].
    exfalso. apply (Hx x). left. reflexivity.
Qed.

Lemma unload_releases_everything_witness :
  let s := run_session sky_venus cfg_origin inputs_two in
  let s' := fold_left (handle sky_venus) (map In_remove_listeners [1; 0]%nat) s in
  timers (sys_hass s') = [] /\
  bus_listeners (sys_hass s') = [] /\
  bodies s' = bodies s.
Proof.
  apply (unload_releases_everything sky_venus cfg_origin inputs_two [1; 0]%nat).
  intros i Hi. vm_compute in Hi.
  assert (H : i = 0%nat \/ i = 1%nat) by lia.
  destruct H as [-> | ->]; cbn; auto.
Defined.

(** ** Setting up *)


Lemma In_dict_set k v d k' v' :
  In (k', v') (dict_set k v d) -> (k' = k /\ v' = v) \/ In (k', v') d.
Proof.
  induction d as [|[k0 v0] d IH]; cbn [dict_set].
  - intros [H | []]. left. split; congruence.
  - destruct (String.eqb_spec k0 k) as [-> | Hne]; cbn [In].
    + intros [H | H]; [left; split; congruence | right; right; exact H].
    + intros [H | H]; [right; left; exact H|].
      destruct (IH H) as [H' | H']; [left; exact H' | right; right; exact H'].
Qed.

Lemma dict_set_has_key k v d : exists v', In (k, v') (dict_set k v d).
Proof.
  induction d as [|[k0 v0] d IH]; cbn [dict_set].
  - exists v. left. reflexivity.
  - destruct (String.eqb_spec k0 k) as [-> | Hne].
    + exists v. left. reflexivity.
    + destruct IH as (v' & H). exists v'. right. exact H.
Qed.

Lemma dict_set_keeps_keys k v d k' v' :
  In (k', v') d -> exists v'', In (k', v'') (dict_set k v d).
Proof.
  induction d as [|[k0 v0] d IH]; cbn [dict_set In]; [intros []|].
  destruct (String.eqb_spec k0 k) as [-> | Hne].
  - intros [H | H]; [injection H as <- <-; exists v; left; reflexivity|].
    exists v'. right. exact H.
  - intros [H | H]; [exists v'; left; exact H|].
    destruct (IH H) as (v'' & H'). exists v''. right. exact H'.
Qed.

Lemma create_bodies_snoc sel body s :
  create_bodies (sel ++ [body]) s =
    (CelestialBody_init body (fst (create_bodies sel s)),
     dict_set body (length (bodies (fst (create_bodies sel s))))
       (snd (create_bodies sel s))).
Proof. unfold create_bodies. rewrite fold_left_app. reflexivity. Qed.

Lemma body_created_init obj s :
  nth_error (bodies (CelestialBody_init obj s)) (length (bodies s)) =
    Some (body_created obj (length (bodies s))).
Proof.
  cbn [CelestialBody_init bodies]. rewrite nth_error_app2 by lia.
  rewrite Nat.sub_diag. reflexivity.
Qed.

(** After the first loop. *)
Lemma create_bodies_sound sel s :
  sound s ->
  let s1 := fst (create_bodies sel s) in
  let d := snd (create_bodies sel s) in
  sound s1 /\ carried s s1 /\
  (forall i, chained i s -> chained i s1) /\
  (forall i, (i < length (bodies s))%nat -> untouched i s s1) /\
  (forall name i, In (name, i) d ->
     nth_error (bodies s1) i = Some (body_created name i)) /\
  (forall name, In name sel -> exists i, In (name, i) d).
Proof.
  intros Hs. induction sel as [|body sel IH] using rev_ind; cbv zeta.
  - cbn. split; [exact Hs|]. split; [apply carried_refl|]. split; [auto|].
    split; [intros i _; apply untouched_refl|]. split; [intros name i []|intros name []].
  - rewrite create_bodies_snoc. cbn [fst snd].
    destruct IH as (H1 & H2 & H3 & H4 & H5 & H6).
    set (s1 := fst (create_bodies sel s)) in *.
    set (d := snd (create_bodies sel s)) in *.
    destruct (new_body_step body s1 H1) as (K1 & K2 & K3 & K4 & _).
    split; [exact K1|]. split; [exact (carried_trans _ _ _ H2 K2)|].
    split; [intros i Hch; exact (K3 i (H3 i Hch))|].
    split; [|split].
    + intros i Hi. apply (untouched_trans i s s1); [exact (H4 i Hi)|].
      apply K4. destruct H2 as [Hlen _]. lia.
    + intros name i Hin. apply In_dict_set in Hin as [[-> ->] | Hin].
      * apply body_created_init.
      * destruct (K4 i) as [Hb _].
        { apply nth_error_Some. rewrite (H5 name i Hin). discriminate. }
        rewrite Hb. exact (H5 name i Hin).
    + intros name Hin. apply in_app_iff in Hin as [Hin | [<- | []]].
      * destruct (H6 name Hin) as (i & Hi).
        destruct (dict_set_keeps_keys body (length (bodies s1)) d name i Hi) as (i' & Hi').
        exists i'. exact Hi'.
      * apply dict_set_has_key.
Qed.






(** ** The identifiers of the sensors *)

Lemma append_inj_l (p a b : string) :
  (p ++ a)%string = (p ++ b)%string -> a = b.
Proof.
  induction p as [|c p IH]; cbn; intros H; [exact H|].
  injection H as H. exact (IH H).
Qed.

Lemma hyphen_free_no_hyphen (k x y : string) :
  hyphen_free k = true -> k <> (x ++ "-" ++ y)%string.
Proof.
  revert k. induction x as [|c x IH]; intros k Hk Heq; subst k; cbn in Hk.
  - discriminate.
  - apply andb_true_iff in Hk as [_ Hk]. exact (IH _ Hk eq_refl).
Qed.

(** With hyphen-free keys, [body-key] names the body and the key. *)
Lemma body_key_inj (b b' k k' : string) :
  hyphen_free k = true -> hyphen_free k' = true ->
  (b ++ "-" ++ k)%string = (b' ++ "-" ++ k')%string -> b = b' /\ k = k'.
Proof.
  intros Hk Hk'. revert b'. induction b as [|c b IH]; intros [|c' b'] H; cbn in H.
  - injection H as H. auto.
  - injection H as Hc H. exfalso. exact (hyphen_free_no_hyphen k b' k' Hk H).
  - injection H as Hc H. exfalso. exact (hyphen_free_no_hyphen k' b k Hk' (eq_sym H)).
  - injection H as Hc H. destruct (IH b' H) as [-> ->]. subst. auto.
Qed.

Lemma sensor_keys_hyphen_free key :
  In key SENSOR_KEYS -> hyphen_free key = true.
Proof. intros [<- | [<- | [<- | [<- | []]]]]; reflexivity. Qed.

Lemma sensor_unique_id_inj entry_id b b' k k' :
  In k SENSOR_KEYS -> In k' SENSOR_KEYS ->
  sensor_unique_id entry_id b k = sensor_unique_id entry_id b' k' ->
  b = b' /\ k = k'.
Proof.
  intros Hk Hk' H. unfold sensor_unique_id in H.
  apply append_inj_l in H. change ("-" ++ ?x)%string with (String "-" x) in H.
  cbn in H. injection H as H.
  apply body_key_inj; auto using sensor_keys_hyphen_free.
Qed.

Lemma sensor_entity_id_inj b b' k k' :
  In k SENSOR_KEYS -> In k' SENSOR_KEYS ->
  sensor_entity_id b k = sensor_entity_id b' k' -> b = b' /\ k = k'.
Proof.
  intros Hk Hk' H. unfold sensor_entity_id in H.
  apply append_inj_l in H.
  apply body_key_inj; auto using sensor_keys_hyphen_free.
Qed.

Lemma In_valid_unique_ids entry_id bodies body key :
  In key SENSOR_KEYS ->
  (In (sensor_unique_id entry_id body key) (valid_unique_ids entry_id bodies)
   <-> In body bodies).
Proof.
  intros Hk. unfold valid_unique_ids. rewrite in_flat_map. split.
  - intros (b & Hb & Hin). apply in_map_iff in Hin as (k & Heq & Hk').
    destruct (sensor_unique_id_inj entry_id b body k key Hk' Hk Heq) as [-> _].
    exact Hb.
  - intros Hb. exists body. split; [exact Hb|]. apply in_map, Hk.
Qed.

(** ** Cleaning the registries *)

Lemma filter_filter_and {A} (f g : A -> bool) (l : list A) :
  filter f (filter g l) = filter (fun x => g x && f x) l.
Proof.
  induction l as [|a l IH]; cbn; [reflexivity|].
  destruct (g a); cbn; [destruct (f a)|]; rewrite IH; reflexivity.
Qed.

Lemma filter_all {A} (f : A -> bool) (l : list A) :
  (forall x, In x l -> f x = true) -> filter f l = l.
Proof.
  induction l as [|a l IH]; cbn; intros H; [reflexivity|].
  rewrite (H a (or_introl eq_refl)). f_equal. apply IH. intros x Hx. apply H. auto.
Qed.

(** A loop over a copy of a dict that deletes by key is a filter. *)
Lemma fold_remove_by_key {A} (key : A -> string) (p : A -> bool) (l0 acc : list A) :
  fold_left
    (fun acc x =>
       if p x then filter (fun y => negb (String.eqb (key y) (key x))) acc
       else acc)
    l0 acc =
  filter (fun y => negb (existsb (fun x => p x && String.eqb (key y) (key x)) l0))
         acc.
Proof.
  revert acc. induction l0 as [|x l0 IH]; intros acc; cbn [fold_left existsb].
  - symmetry. apply filter_all. reflexivity.
  - rewrite IH. destruct (p x) eqn:Hp; cbn [andb orb].
    + rewrite filter_filter_and. apply filter_ext. intros y.
      rewrite negb_orb. reflexivity.
    + reflexivity.
Qed.

Lemma fold_remove_by_key_nodup {A} (key : A -> string) (p : A -> bool) (l : list A) :
  NoDup (map key l) ->
  fold_left
    (fun acc x =>
       if p x then filter (fun y => negb (String.eqb (key y) (key x))) acc
       else acc)
    l l =
  filter (fun y => negb (p y)) l.
Proof.
  intros Hnd. rewrite fold_remove_by_key. apply filter_ext_in. intros y Hy.
  f_equal. destruct (p y) eqn:Hp.
  - apply existsb_exists. exists y. rewrite Hp, String.eqb_refl. auto.
  - apply not_true_is_false. intros H. apply existsb_exists in H as (x & Hx & H).
    apply andb_true_iff in H as [Hpx Hk]. apply String.eqb_eq in Hk.
    assert (y = x) by exact (NoDup_map_inj key l y x Hnd Hy Hx Hk). congruence.
Qed.

Lemma cleanup_entities entry_id current_bodies r :
  NoDup (map reg_entity_id (reg_entities r)) ->
  reg_entities (cleanup_removed_bodies entry_id current_bodies r) =
    filter (fun e => negb (to_be_removed entry_id
                             (valid_unique_ids entry_id current_bodies) e))
           (reg_entities r).
Proof.
  intros Hnd. unfold cleanup_removed_bodies. cbn [reg_entities].
  exact (fold_remove_by_key_nodup reg_entity_id _ _ Hnd).
Qed.

Lemma cleanup_devices entry_id current_bodies r :
  NoDup (map dev_id (reg_devices r)) ->
  reg_devices (cleanup_removed_bodies entry_id current_bodies r) =
    filter (fun d => negb (deserted entry_id
                             (reg_entities
                                (cleanup_removed_bodies entry_id current_bodies r)) d))
           (reg_devices r).
Proof.
  intros Hnd. unfold cleanup_removed_bodies. cbn [reg_entities reg_devices].
  exact (fold_remove_by_key_nodup dev_id _ _ Hnd).
Qed.

Lemma option_is_true o s : option_is o s = true <-> o = Some s.
Proof.
  destruct o as [x|]; cbn; [|split; discriminate].
  rewrite String.eqb_eq. split; congruence.
Qed.

Lemma existsb_eqb_In (x : string) (l : list string) :
  existsb (String.eqb x) l = true <-> In x l.
Proof.
  rewrite existsb_exists. split.
  - intros (y & Hy & H). apply String.eqb_eq in H. congruence.
  - intros H. exists x. rewrite String.eqb_refl. auto.
Qed.

Lemma to_be_removed_true entry_id valid e :
  to_be_removed entry_id valid e = true <->
  reg_config_entry_id e = Some entry_id /\ reg_domain e = "sensor" /\
  ~ In (reg_unique_id e) valid.
Proof.
  unfold to_be_removed. rewrite !andb_true_iff, option_is_true, String.eqb_eq,
    negb_true_iff. split.
  - intros [[H1 H2] H3]. repeat split; auto. intros Hin.
    apply existsb_eqb_In in Hin. congruence.
  - intros (H1 & H2 & H3). repeat split; auto.
    apply not_true_is_false. intros H. apply H3, existsb_eqb_In, H.
Qed.

(** X20. Of the sensors of the entry, [cleanup_removed_bodies] keeps
    exactly those of the bodies that are still selected: a registered
    sensor with the unique id of body and key is in the registry
    afterwards if and only if the body is among the current ones,
    whatever the names of the bodies. *)
Theorem cleanup_keeps_selected_sensors entry_id current_bodies (r : Registries)
    (e : RegistryEntry) body key :
  NoDup (map reg_entity_id (reg_entities r)) ->
  In e (reg_entities r) ->
  reg_config_entry_id e = Some entry_id ->
  reg_domain e = "sensor" ->
  reg_unique_id e = sensor_unique_id entry_id body key ->
  In key SENSOR_KEYS ->
  (In e (reg_entities (cleanup_removed_bodies entry_id current_bodies r))
   <-> In body current_bodies).
Proof.
  intros Hnd Hin He Hdom Hid Hk.
  rewrite (cleanup_entities _ _ _ Hnd), filter_In, negb_true_iff.
  rewrite <- (In_valid_unique_ids entry_id current_bodies body key Hk), <- Hid.
  split.
  - intros [_ H]. destruct (in_dec string_dec (reg_unique_id e)
                              (valid_unique_ids entry_id current_bodies))
      as [Hv | Hv]; [exact Hv|].
    exfalso. apply not_true_iff_false in H. apply H, to_be_removed_true. auto.
  - intros Hv. split; [exact Hin|]. apply not_true_is_false. intros H.
    apply to_be_removed_true in H as (_ & _ & H). exact (H Hv).
Qed.

Lemma cleanup_keeps_selected_sensors_witness :
  (In mars_rising_entry
      (reg_entities (cleanup_removed_bodies "e1" ["venus"] registries_sample))
   <-> In "mars" ["venus"]) /\
  (In venus_rising_entry
      (reg_entities (cleanup_removed_bodies "e1" ["venus"] registries_sample))
   <-> In "venus" ["venus"]).
Proof.
  assert (Hnd : NoDup (map reg_entity_id (reg_entities registries_sample))).
  { cbn. repeat constructor; cbn; intuition discriminate. }
  split.
  - apply (cleanup_keeps_selected_sensors "e1" ["venus"] registries_sample
             mars_rising_entry "mars" "next_rising" Hnd);
      try reflexivity; cbn; auto.
  - apply (cleanup_keeps_selected_sensors "e1" ["venus"] registries_sample
             venus_rising_entry "venus" "next_rising" Hnd);
      try reflexivity; cbn; auto.
Defined.

(** X21. [cleanup_removed_bodies] adds nothing to the entity registry
    and removes nothing but sensors of its own entry: the entities of
    other entries and of other domains all stay. *)
Theorem cleanup_touches_only_own_sensors entry_id current_bodies (r : Registries)
    (e : RegistryEntry) :
  NoDup (map reg_entity_id (reg_entities r)) ->
  (In e (reg_entities (cleanup_removed_bodies entry_id current_bodies r)) ->
   In e (reg_entities r)) /\
  (In e (reg_entities r) ->
   reg_config_entry_id e <> Some entry_id \/ reg_domain e <> "sensor" ->
   In e (reg_entities (cleanup_removed_bodies entry_id current_bodies r))).
Proof.
  intros Hnd. rewrite (cleanup_entities _ _ _ Hnd). split.
  - intros H. apply filter_In in H as [H _]. exact H.
  - intros Hin Hother. apply filter_In. split; [exact Hin|].
    apply negb_true_iff, not_true_is_false. intros H.
    apply to_be_removed_true in H as (H1 & H2 & _). destruct Hother; contradiction.
Qed.

Lemma cleanup_touches_only_own_sensors_witness :
  let kitchen := registry_entry "light.kitchen" "k1" "e2" "light" "d-kitchen" in
  (In kitchen (reg_entities (cleanup_removed_bodies "e1" [] registries_sample)) ->
   In kitchen (reg_entities registries_sample)) /\
  (In kitchen (reg_entities registries_sample) ->
   reg_config_entry_id kitchen <> Some "e1" \/ reg_domain kitchen <> "sensor" ->
   In kitchen (reg_entities (cleanup_removed_bodies "e1" [] registries_sample))).
Proof.
  apply (cleanup_touches_only_own_sensors "e1" [] registries_sample).
  cbn. repeat constructor; cbn; intuition discriminate.
Defined.

Lemma deserted_true entry_id es d :
  deserted entry_id es d = true <->
  In entry_id (dev_config_entries d) /\
  forall e, In e es -> reg_device_id e <> Some (dev_id d).
Proof.
  unfold deserted. rewrite andb_true_iff, existsb_eqb_In. split.
  - intros [H1 H2]. split; [exact H1|]. intros e He Hd.
    destruct (filter _ es) as [|e0 l] eqn:Hf; [|discriminate].
    assert (Hin : In e (filter (fun e => option_is (reg_device_id e) (dev_id d)) es)).
    { apply filter_In. split; [exact He | apply option_is_true, Hd]. }
    rewrite Hf in Hin. exact Hin.
  - intros [H1 H2]. split; [exact H1|].
    destruct (filter _ es) as [|e0 l] eqn:Hf; [reflexivity|]. exfalso.
    assert (Hin : In e0 (filter (fun e => option_is (reg_device_id e) (dev_id d)) es))
      by (rewrite Hf; left; reflexivity).
    apply filter_In in Hin as [Hin Hd]. apply option_is_true in Hd.
    exact (H2 e0 Hin Hd).
Qed.

(** X22. Of the devices, [cleanup_removed_bodies] removes exactly those
    of its entry that no entity of the registry, as the first loop left
    it, refers to any more; the devices of other entries all stay. *)
Theorem cleanup_removes_deserted_devices entry_id current_bodies (r : Registries)
    (d : DeviceEntry) :
  NoDup (map dev_id (reg_devices r)) ->
  In d (reg_devices r) ->
  let r' := cleanup_removed_bodies entry_id current_bodies r in
  (In d (reg_devices r') <->
   ~ In entry_id (dev_config_entries d) \/
   exists e, In e (reg_entities r') /\ reg_device_id e = Some (dev_id d)).
Proof.
  intros Hnd Hin r'. subst r'.
  rewrite (cleanup_devices _ _ _ Hnd), filter_In, negb_true_iff.
  set (es := reg_entities (cleanup_removed_bodies entry_id current_bodies r)).
  split.
  - intros [_ H].
    destruct (in_dec string_dec entry_id (dev_config_entries d)) as [Hi | Hi];
      [|left; exact Hi].
    right.
    destruct (filter (fun e => option_is (reg_device_id e) (dev_id d)) es)
      as [|e0 l] eqn:Hf.
    + exfalso. apply not_true_iff_false in H. apply H. unfold deserted.
      rewrite Hf, andb_true_r. apply existsb_eqb_In, Hi.
    + assert (Hin0 : In e0 (filter (fun e => option_is (reg_device_id e) (dev_id d)) es))
        by (rewrite Hf; left; reflexivity).
      apply filter_In in Hin0 as [Hin0 Hd]. apply option_is_true in Hd. eauto.
  - intros H. split; [exact Hin|]. apply not_true_is_false. intros Hdes.
    apply deserted_true in Hdes as [H1 H2].
    destruct H as [H | (e & He & Hd)]; [exact (H H1) | exact (H2 e He Hd)].
Qed.

Lemma cleanup_removes_deserted_devices_witness :
  let mars := {| dev_id := "d-mars"; dev_config_entries := ["e1"] |} in
  let r' := cleanup_removed_bodies "e1" ["venus"] registries_sample in
  (In mars (reg_devices r') <->
   ~ In "e1" (dev_config_entries mars) \/
   exists e, In e (reg_entities r') /\ reg_device_id e = Some (dev_id mars)).
Proof.
  apply (cleanup_removes_deserted_devices "e1" ["venus"] registries_sample).
  - cbn. repeat constructor; cbn; intuition discriminate.
  - cbn. auto.
Defined.

(** Filtering a dict keeps its keys distinct. *)
Lemma filter_keeps_keys_distinct {A} (key : A -> string) (keep : A -> bool)
    (entries : list A) :
  NoDup (map key entries) -> NoDup (map key (filter keep entries)).
Proof.
  intros Hnd. induction entries as [|x entries IH]; cbn; [constructor|].
  apply NoDup_cons_iff in Hnd as [Hx Hnd].
  destruct (keep x); [|exact (IH Hnd)]. cbn. apply NoDup_cons; [|exact (IH Hnd)].
  intros Hin. apply Hx. apply in_map_iff in Hin as (y & Hy & Hin).
  apply in_map_iff. exists y. split; [exact Hy|]. exact (proj1 (proj1 (filter_In _ _ _) Hin)).
Qed.

Lemma filter_idem {A} (p : A -> bool) (l : list A) :
  filter p (filter p l) = filter p l.
Proof.
  apply filter_all. intros x Hx. apply filter_In in Hx as [_ Hx]. exact Hx.
Qed.

(** X23. Cleaning twice with the same bodies is cleaning once. *)
Theorem cleanup_idempotent entry_id current_bodies (r : Registries) :
  NoDup (map reg_entity_id (reg_entities r)) ->
  NoDup (map dev_id (reg_devices r)) ->
  cleanup_removed_bodies entry_id current_bodies
    (cleanup_removed_bodies entry_id current_bodies r) =
  cleanup_removed_bodies entry_id current_bodies r.
Proof.
  intros He Hd.
  set (r1 := cleanup_removed_bodies entry_id current_bodies r).
  assert (He1 : NoDup (map reg_entity_id (reg_entities r1))).
  { subst r1. rewrite (cleanup_entities _ _ _ He). apply filter_keeps_keys_distinct, He. }
  assert (Hd1 : NoDup (map dev_id (reg_devices r1))).
  { subst r1. rewrite (cleanup_devices _ _ _ Hd). apply filter_keeps_keys_distinct, Hd. }
  assert (Hes : reg_entities (cleanup_removed_bodies entry_id current_bodies r1)
                = reg_entities r1).
  { rewrite (cleanup_entities _ _ _ He1). subst r1.
    rewrite (cleanup_entities _ _ _ He). apply filter_idem. }
  assert (Hds : reg_devices (cleanup_removed_bodies entry_id current_bodies r1)
                = reg_devices r1).
  { rewrite (cleanup_devices _ _ _ Hd1), Hes. subst r1.
    rewrite (cleanup_devices _ _ _ Hd). apply filter_idem. }
  destruct (cleanup_removed_bodies entry_id current_bodies r1) as [es ds].
  destruct r1 as [es1 ds1]. cbn in Hes, Hds. congruence.
Qed.

Lemma cleanup_idempotent_witness :
  cleanup_removed_bodies "e1" ["venus"]
    (cleanup_removed_bodies "e1" ["venus"] registries_sample) =
  cleanup_removed_bodies "e1" ["venus"] registries_sample.
Proof.
  apply cleanup_idempotent; cbn; repeat constructor; cbn; intuition discriminate.
Defined.

(** ** The sensors of an entry *)

Lemma dict_set_keys k v d k' :
  In k' (map fst (dict_set k v d)) -> k' = k \/ In k' (map fst d).
Proof.
  intros H. apply in_map_iff in H as ([k0 v0] & Heq & Hin). cbn in Heq. subst k0.
  apply In_dict_set in Hin as [[-> _] | Hin]; [left; reflexivity|].
  right. apply in_map_iff. exists (k', v0). auto.
Qed.

Lemma dict_set_nodup k v d :
  NoDup (map fst d) -> NoDup (map fst (dict_set k v d)).
Proof.
  induction d as [|[k0 v0] d IH]; cbn [dict_set map fst]; intros H.
  - constructor; [intros [] | constructor].
  - inversion H as [|? ? Hnotin Hnd]; subst.
    destruct (String.eqb_spec k0 k) as [-> | Hne]; cbn [map fst].
    + constructor; assumption.
    + constructor; [|auto]. intros Hin.
      apply dict_set_keys in Hin as [Heq | Hin]; [congruence | contradiction].
Qed.

Lemma create_bodies_nodup sel s :
  NoDup (map fst (snd (create_bodies sel s))).
Proof.
  induction sel as [|body sel IH] using rev_ind.
  - constructor.
  - rewrite create_bodies_snoc. cbn [snd]. apply dict_set_nodup, IH.
Qed.

Lemma sensor_keys_nodup : NoDup SENSOR_KEYS.
Proof. repeat constructor; cbn; intuition discriminate. Qed.

(** Identifiers built from body and key are distinct for distinct
    bodies and keys. *)
Lemma NoDup_body_key (f : string -> string -> string) (names : list string) :
  (forall b b' k k', In k SENSOR_KEYS -> In k' SENSOR_KEYS ->
     f b k = f b' k' -> b = b' /\ k = k') ->
  NoDup names ->
  NoDup (flat_map (fun b => map (f b) SENSOR_KEYS) names).
Proof.
  intros Hinj. induction names as [|b names IH]; cbn [flat_map]; intros Hnd;
    [constructor|].
  inversion Hnd as [|? ? Hnotin Hnd']; subst.
  apply NoDup_app; [| exact (IH Hnd') |].
  - apply NoDup_map_NoDup_ForallPairs; [|exact sensor_keys_nodup].
    intros k k' Hk Hk' Heq. exact (proj2 (Hinj b b k k' Hk Hk' Heq)).
  - intros x Hx Hx'. apply in_map_iff in Hx as (k & <- & Hk).
    apply in_flat_map in Hx' as (b' & Hb' & Hx').
    apply in_map_iff in Hx' as (k' & Heq & Hk').
    destruct (Hinj b' b k' k Hk' Hk Heq) as [-> _]. contradiction.
Qed.

(** The sensors of entities that are as [__init__] left them. *)
Lemma sensors_of_created entry_id d s :
  (forall name i, In (name, i) d ->
     nth_error (bodies s) i = Some (body_created name i)) ->
  sensors_of_entry entry_id d s =
    flat_map (fun item =>
                map (fun key => SunSensor_init (fst item) (snd item) key entry_id)
                    SENSOR_KEYS) d.
Proof.
  unfold sensors_of_entry. induction d as [|[name i] d IH]; intros H;
    cbn [flat_map fst snd]; [reflexivity|].
  rewrite (H name i (or_introl eq_refl)). cbn [object body_created].
  f_equal. apply IH. intros n j Hin. apply H. right. exact Hin.
Qed.

Lemma sensors_unique_ids entry_id (d : list (string * nat)) :
  map sensor_unique
    (flat_map (fun item =>
                 map (fun key => SunSensor_init (fst item) (snd item) key entry_id)
                     SENSOR_KEYS) d) =
  valid_unique_ids entry_id (map fst d).
Proof.
  unfold valid_unique_ids. induction d as [|[name i] d IH]; [reflexivity|].
  cbn [flat_map map fst snd]. rewrite map_app, IH. reflexivity.
Qed.

Lemma sensors_entity_ids entry_id (d : list (string * nat)) :
  map sensor_id
    (flat_map (fun item =>
                 map (fun key => SunSensor_init (fst item) (snd item) key entry_id)
                     SENSOR_KEYS) d) =
  flat_map (fun b => map (sensor_entity_id b) SENSOR_KEYS) (map fst d).
Proof.
  induction d as [|[name i] d IH]; [reflexivity|].
  cbn [flat_map map fst snd]. rewrite map_app, IH. reflexivity.
Qed.

(** X24. The platform makes four sensors for every entity of
    [runtime_data], with pairwise distinct entity ids and pairwise
    distinct unique ids, whatever was selected (a body listed twice
    included); and the cleanup that precedes removes from the registry
    no entry that carries the unique id of one of these sensors. *)
Theorem sensors_have_distinct_ids sky cfg (inputs : list Input)
    (sel : list string) (entry_id : string) (r : Registries) :
  let s := run_session sky cfg inputs in
  let created := create_bodies sel s in
  let platform :=
    sensor_async_setup_entry entry_id (snd created) (fst created) r in
  NoDup (map reg_entity_id (reg_entities r)) ->
  length (snd platform) = (4 * length (snd created))%nat /\
  NoDup (map sensor_id (snd platform)) /\
  NoDup (map sensor_unique (snd platform)) /\
  forall x e, In x (snd platform) -> In e (reg_entities r) ->
    reg_unique_id e = sensor_unique x ->
    In e (reg_entities (fst platform)).
Proof.
  cbv zeta. intros Hnd. unfold sensor_async_setup_entry. cbn [fst snd].
  destruct (create_bodies_sound sel _ (session_sound sky cfg inputs))
    as (_ & _ & _ & _ & H5 & _).
  pose proof (create_bodies_nodup sel (run_session sky cfg inputs)) as Hkeys.
  set (s1 := fst (create_bodies sel (run_session sky cfg inputs))) in *.
  set (d := snd (create_bodies sel (run_session sky cfg inputs))) in *.
  rewrite (sensors_of_created entry_id d s1 H5).
  split; [|split; [|split]].
  - clear. induction d as [|item d IH]; [reflexivity|].
    cbn [flat_map]. rewrite length_app, IH. cbn. lia.
  - rewrite sensors_entity_ids. apply NoDup_body_key; [|exact Hkeys].
    intros b b' k k'. apply sensor_entity_id_inj.
  - rewrite sensors_unique_ids. apply NoDup_body_key; [|exact Hkeys].
    intros b b' k k'. apply sensor_unique_id_inj.
  - intros x e Hx He Hid.
    rewrite (cleanup_entities _ _ _ Hnd). apply filter_In. split; [exact He|].
    apply negb_true_iff, not_true_is_false. intros H.
    apply to_be_removed_true in H as (_ & _ & H). apply H. rewrite Hid.
    rewrite <- (sensors_unique_ids entry_id d). apply in_map, Hx.
Qed.

Lemma sensors_have_distinct_ids_witness :
  let s := run_session sky_venus cfg_origin [] in
  let created := create_bodies ["venus"; "mars"; "venus"] s in
  let platform :=
    sensor_async_setup_entry "e1" (snd created) (fst created) registries_sample in
  length (snd platform) = (4 * length (snd created))%nat /\
  NoDup (map sensor_id (snd platform)) /\
  NoDup (map sensor_unique (snd platform)) /\
  forall x e, In x (snd platform) -> In e (reg_entities registries_sample) ->
    reg_unique_id e = sensor_unique x ->
    In e (reg_entities (fst platform)).
Proof.
  apply (sensors_have_distinct_ids sky_venus cfg_origin []
           ["venus"; "mars"; "venus"] "e1" registries_sample).
  cbn. repeat constructor; cbn; intuition discriminate.
Defined.

(** ** What the sensors show *)

Lemma last_seen_app sig i l l' :
  last_seen sig i (l ++ l') =
    match last_seen sig i l' with
    | Some o => Some o
    | None => last_seen sig i l
    end.
Proof.
  induction l as [|e l IH]; cbn [app last_seen].
  - destruct (last_seen sig i l'); reflexivity.
  - rewrite IH. destruct (last_seen sig i l'); reflexivity.
Qed.

Lemma last_seen_other sig i j l :
  Forall (entry_of j) l -> i <> j -> last_seen sig i l = None.
Proof.
  intros H Hne. induction H as [|e l He _ IH]; cbn [last_seen]; [reflexivity|].
  rewrite IH. destruct e; try reflexivity. cbn in He. subst.
  destruct (Nat.eqb_spec j i); [congruence|]. rewrite andb_false_r. reflexivity.
Qed.

(** One method of one entity that publishes what it changes. *)
Lemma run_on_shown j (m : M unit) s :
  shown s ->
  (forall b, nth_error (bodies s) j = Some b ->
     let c' := snd (m {| hass := sys_hass s; self_id := j; self := b |}) in
     exists suffix,
       log (hass c') = log (sys_hass s) ++ suffix /\
       published j b (self c') suffix) ->
  shown (run_on j m s).
Proof.
  intros Hsh Hm. unfold run_on.
  destruct (nth_error (bodies s) j) as [bj|] eqn:Hbj; [|exact Hsh].
  destruct (Hm bj eq_refl) as (suffix & Hlog & Hall & Hev & Hpos).
  cbv zeta. intros i b Hb Hr. cbn [sys_hass bodies] in *. rewrite Hlog, !last_seen_app.
  apply nth_error_list_set_in in Hb as [[-> ->] | [Hne Hb]].
  - split.
    + destruct (last_seen SIGNAL_EVENTS_CHANGED j suffix) as [o|]; [eauto|].
      destruct Hev as (Hready & H1 & H2).
      destruct (Hsh j bj Hbj (Hready Hr)) as [(o & Ho & H3 & H4) _].
      exists o. split; [exact Ho|]. split; congruence.
    + destruct (last_seen SIGNAL_POSITION_CHANGED j suffix) as [o|]; [eauto|].
      destruct Hpos as (Hready & H1 & H2).
      destruct (Hsh j bj Hbj (Hready Hr)) as [_ (o & Ho & H3 & H4)].
      exists o. split; [exact Ho|]. split; congruence.
  - rewrite !(last_seen_other _ i j suffix Hall Hne). exact (Hsh i b Hb Hr).
Qed.

(** What an event recomputation publishes. *)
Lemma update_events_published sky (c : Ctx) loc elev target :
  located (self c) loc elev target ->
  exists c' suffix,
    update_events sky c = (Ok tt, c') /\
    log (hass c') = log (hass c) ++ suffix /\
    Forall (entry_of (self_id c)) suffix /\
    (exists o, last_seen SIGNAL_EVENTS_CHANGED (self_id c) suffix = Some o /\
               shows_events o (self c')) /\
    (exists o, last_seen SIGNAL_POSITION_CHANGED (self_id c) suffix = Some o /\
               shows_position o (self c')).
Proof.
  intros Hl.
  destruct (update_events_run sky c loc elev target Hl)
    as (c' & Hrun & _ & _ & _ & _ & Hr & Hs & _ & _ & Hse & Hsa & _ & _
        & _ & _ & Hlog & _).
  cbv zeta in Hlog. exists c'. eexists. split; [exact Hrun|].
  split; [exact Hlog|]. unfold shows_events, shows_position. rewrite Hr, Hs, Hse, Hsa.
  destruct (_update_body_position_listener (self c)); destruct (_ >? _);
    cbn [app]; (split; [repeat constructor|]);
    cbn; rewrite Nat.eqb_refl; cbn; split; eexists; (split; [reflexivity|]);
    split; reflexivity.
Qed.

(** What a position recomputation publishes. *)
Lemma update_body_position_published sky (c : Ctx) :
  ready (self c) ->
  exists suffix,
    log (hass (snd (update_body_position sky c))) = log (hass c) ++ suffix /\
    published (self_id c) (self c) (self (snd (update_body_position sky c))) suffix.
Proof.
  intros Hready.
  pose proof Hready
    as ((loc & elev & target & Hl) & (p & Hp) & (nc & Hnc) & (r & Hr) & (s & Hs) & _).
  rewrite (update_body_position_run sky c loc elev target p nc r s Hl Hp Hnc Hr Hs).
  cbv zeta. cbn [snd].
  destruct (_ >? _); cbn [hass self log add_log set_next_handle set_timers set_ticks];
    rewrite <- ?app_assoc; cbn [app]; (eexists; split; [reflexivity|]);
    (split; [repeat constructor|]);
    cbn; rewrite Nat.eqb_refl; cbn; unfold shows_position; cbn;
    (split; [split; [intros _; exact Hready | split; reflexivity]
            | split; reflexivity]).
Qed.

(** What a change of location publishes. *)
Lemma update_location_published sky (c : Ctx) (initial : bool) :
  settled (self c) ->
  exists suffix,
    log (hass (snd (update_location sky initial c))) = log (hass c) ++ suffix /\
    published (self_id c) (self c) (self (snd (update_location sky initial c)))
              suffix.
Proof.
  intros Hset.
  destruct (get_astral_location_run c) as (l & cache' & Hloc & _ & _ & _).
  unfold update_location. mstep. rewrite Hloc. mstep.
  match goal with |- context [if ?x then _ else _] => destruct x end.
  { mstep. exists []. rewrite app_nil_r. split; [reflexivity|].
    split; [constructor|]. cbn. auto. }
  mstep.
  destruct (dict_get BODIES_DICT (object (self c))) as [target|] eqn:Hd.
  - destruct (_update_events_listener (self c)) as [h0|] eqn:Hold; mstep;
      match goal with
      | |- context [update_events sky ?c2] =>
          assert (Hl2 : located (self c2) l (cfg_elevation (config (hass c))) target)
            by (repeat split; exact Hd);
          destruct (update_events_published sky c2 _ _ _ Hl2)
            as (c' & suffix & Hrun & Hlog & Hall & (o & Ho & Hso) & (o' & Ho' & Hso'))
      end;
      rewrite Hrun; cbn [snd]; cbn [hass self_id log add_log set_timers
                                    set_location_cache] in Hlog, Hall, Ho, Ho'.
    + exists (LogCancel h0 :: suffix). split.
      { rewrite Hlog, <- app_assoc. reflexivity. }
      split; [constructor; [exact I | exact Hall]|].
      change (LogCancel h0 :: suffix) with ([LogCancel h0] ++ suffix).
      rewrite !last_seen_app, Ho, Ho'. split; assumption.
    + exists suffix. split; [exact Hlog|]. split; [exact Hall|].
      rewrite Ho, Ho'. split; assumption.
  - assert (Hnr : ~ ready (self c)).
    { intros ((loc & elev & tg & (_ & _ & Hd')) & _). congruence. }
    destruct Hset as [Hr | (He & Hp & Hn)]; [contradiction|].
    rewrite He. mstep.
    rewrite (update_events_unknown_body sky _ l (cfg_elevation (config (hass c))));
      [|reflexivity|reflexivity|exact Hd].
    cbn [snd hass self log set_ticks set_location_cache].
    exists []. rewrite app_nil_r. split; [reflexivity|]. split; [constructor|].
    cbn [last_seen next_rising next_setting solar_elevation solar_azimuth
         set_next_change set_location].
    assert (Hnr' : ready (set_next_change
                     (Some (clock sky (ticks (hass c)) + timedelta_days 400))
                     (set_location (Some l) (Some (cfg_elevation (config (hass c))))
                        (self c))) -> ready (self c)).
    { intros ((loc & elev & tg & (_ & _ & Hd')) & _). cbn in Hd'. congruence. }
    split; (split; [exact Hnr' | split; reflexivity]).
Qed.

(** [remove_listeners] publishes nothing and changes nothing of the
    entity. *)
Lemma remove_listeners_published (c : Ctx) :
  exists suffix,
    log (hass (snd (remove_listeners c))) = log (hass c) ++ suffix /\
    published (self_id c) (self c) (self (snd (remove_listeners c))) suffix.
Proof.
  unfold remove_listeners. mstep.
  destruct (_config_listener (self c)); mstep;
    destruct (_update_events_listener (self c)); mstep;
    destruct (_update_body_position_listener (self c)); mstep;
    rewrite <- ?app_assoc; cbn [app];
    (eexists; split; [try reflexivity; symmetry; apply app_nil_r|]);
    (split; [repeat constructor|]); cbn; auto.
Qed.

Lemma callback_published sky k (c : Ctx) :
  ready (self c) ->
  exists suffix,
    log (hass (snd (callback sky k c))) = log (hass c) ++ suffix /\
    published (self_id c) (self c) (self (snd (callback sky k c))) suffix.
Proof.
  intros Hr. destruct k; cbn [callback].
  - pose proof Hr as ((loc & elev & target & Hl) & _).
    destruct (update_events_published sky c loc elev target Hl)
      as (c' & suffix & Hrun & Hlog & Hall & (o & Ho & Hso) & (o' & Ho' & Hso')).
    rewrite Hrun. cbn [snd]. exists suffix. split; [exact Hlog|].
    split; [exact Hall|]. rewrite Ho, Ho'. split; assumption.
  - apply update_body_position_published, Hr.
Qed.

Lemma last_seen_snoc_quiet sig i l e :
  match e with LogDispatch _ _ _ => False | _ => True end ->
  last_seen sig i (l ++ [e]) = last_seen sig i l.
Proof.
  intros He. rewrite last_seen_app. destruct e; cbn; try reflexivity. contradiction.
Qed.

(** What one input does to what the sensors show. *)
Lemma handle_shown sky s (inp : Input) :
  sound s -> shown s -> shown (handle sky s inp).
Proof.
  intros Hs Hsh. destruct inp as [obj | j | cfg | h | j]; cbn [handle].
  - intros i b Hb Hr. cbn [CelestialBody_init bodies sys_hass log set_bus_listeners] in *.
    destruct (Nat.lt_ge_cases i (length (bodies s))) as [Hi | Hi].
    + rewrite nth_error_app1 in Hb by exact Hi. exact (Hsh i b Hb Hr).
    + rewrite nth_error_app2 in Hb by exact Hi.
      destruct (i - length (bodies s))%nat as [|n]; cbn in Hb;
        [|destruct n; discriminate].
      injection Hb as <-. destruct Hr as ((loc & elev & tg & (Hl & _)) & _).
      discriminate.
  - apply run_on_shown; [exact Hsh|]. intros b Hb.
    apply (update_location_published sky
             {| hass := sys_hass s; self_id := j; self := b |} true).
    destruct Hs as (_ & _ & Hset & _). exact (Hset _ _ Hb).
  - set (s0 := {| sys_hass := set_config cfg (sys_hass s); bodies := bodies s |}).
    assert (H0 : sound s0 /\ shown s0) by (split; [exact Hs | exact Hsh]).
    clearbody s0. revert s0 H0.
    induction (bus_listeners (sys_hass s)) as [|j l IH]; intros s0 [Hs0 Hsh0];
      cbn [fold_left]; [exact Hsh0|].
    apply IH. split.
    + exact (proj1 (update_location_step sky j false s0 Hs0)).
    + apply run_on_shown; [exact Hsh0|]. intros b Hb.
      apply (update_location_published sky
               {| hass := sys_hass s0; self_id := j; self := b |} false).
      destruct Hs0 as (_ & _ & Hset & _). exact (Hset _ _ Hb).
  - destruct (find_timer h (timers (sys_hass s))) as [t|] eqn:Hf; [|exact Hsh].
    apply find_timer_some in Hf as [Hin _].
    rewrite fire_callback.
    destruct Hs as (Hinv & _ & Hset & _).
    destruct (pending_owner_ready s t Hinv Hset Hin) as (bt & Hbt & Hrt).
    apply run_on_shown.
    + intros i b Hb Hr. cbn [fired sys_hass bodies log add_log set_timers] in *.
      rewrite !last_seen_snoc_quiet by exact I. exact (Hsh i b Hb Hr).
    + intros b Hb. cbn [fired bodies] in Hb. rewrite Hbt in Hb. injection Hb as <-.
      apply (callback_published sky (t_action t)
               {| hass := sys_hass (fired t s); self_id := t_owner t; self := bt |}).
      exact Hrt.
  - apply run_on_shown; [exact Hsh|]. intros b Hb.
    apply (remove_listeners_published
             {| hass := sys_hass s; self_id := j; self := b |}).
Qed.

Lemma session_shown sky cfg inputs : shown (run_session sky cfg inputs).
Proof.
  unfold run_session.
  assert (H : sound (initial_system cfg) /\ shown (initial_system cfg)).
  { split; [apply initial_sound|]. intros [|i] b Hb; discriminate. }
  revert H. generalize (initial_system cfg).
  induction inputs as [|inp inputs IH]; intros s [Hs Hsh]; cbn [fold_left];
    [exact Hsh|].
  apply IH. split.
  - exact (proj1 (handle_step sky s inp Hs)).
  - exact (handle_shown sky s inp Hs Hsh).
Qed.

(** X25. The sensors never show stale data: in every state a session
    can reach, for every entity that has computed its events, the last
    [events_changed] signal of the entity was sent with its current
    next rising and next setting, and its last [position_changed]
    signal with its current elevation and azimuth. *)
Theorem sensors_never_stale sky cfg (inputs : list Input) (i : nat)
    (b : CelestialBody) :
  let s := run_session sky cfg inputs in
  nth_error (bodies s) i = Some b ->
  next_rising b <> None ->
  (exists o,
     last_seen SIGNAL_EVENTS_CHANGED i (log (sys_hass s)) = Some o /\
     seen_next_rising o = next_rising b /\
     seen_next_setting o = next_setting b) /\
  (exists o,
     last_seen SIGNAL_POSITION_CHANGED i (log (sys_hass s)) = Some o /\
     seen_solar_elevation o = solar_elevation b /\
     seen_solar_azimuth o = solar_azimuth b).
Proof.
  cbv zeta. intros Hb Hnr.
  destruct (session_sound sky cfg inputs) as (_ & _ & Hset & _).
  apply (session_shown sky cfg inputs i b Hb).
  destruct (Hset _ _ Hb) as [Hr | (_ & _ & Hn)]; [exact Hr | contradiction].
Qed.

Lemma sensors_never_stale_witness :
  let s := run_session sky_running cfg_origin
             (inputs_venus ++ [In_timer 0; In_config_update cfg_north]) in
  exists b,
    nth_error (bodies s) 0 = Some b /\
    (exists o,
       last_seen SIGNAL_EVENTS_CHANGED 0 (log (sys_hass s)) = Some o /\
       seen_next_rising o = next_rising b /\
       seen_next_setting o = next_setting b) /\
    (exists o,
       last_seen SIGNAL_POSITION_CHANGED 0 (log (sys_hass s)) = Some o /\
       seen_solar_elevation o = solar_elevation b /\
       seen_solar_azimuth o = solar_azimuth b).
Proof.
  cbv zeta.
  destruct (nth_error (bodies (run_session sky_running cfg_origin
              (inputs_venus ++ [In_timer 0; In_config_update cfg_north]))) 0)
    as [b|] eqn:Hb; [|vm_compute in Hb; discriminate].
  exists b. split; [reflexivity|].
  apply (sensors_never_stale sky_running cfg_origin
           (inputs_venus ++ [In_timer 0; In_config_update cfg_north]) 0 b Hb).
  vm_compute in Hb. injection Hb as <-. discriminate.
Defined.
